(** * Gesture-Christmas-Tree: a shallow embedding of the choreography core

    The development follows the four source files:
    - [types.ts]                     : [AppState], [ParticleData], [HandGesture];
    - [utils/math.ts]                : [generateTreeLayout];
    - [App.tsx] / [HandManager]      : [handleGestureUpdate], [onResults];
    - [components/ChristmasScene]    : the two [useFrame] animators.

    JavaScript numbers are idealised as real numbers ([R]); where the
    rounding of double-precision arithmetic decides a property (the
    convergence of the animators), the coordinate update is also given on
    IEEE 754 doubles ([F64.lerp]).  The objects of three.js that the code
    shares and mutates ([THREE.Vector3]) live in an explicit heap and are
    passed around by reference, as in the source. *)

From Stdlib Require Import Reals Lra Lia String.
From Stdlib Require Floats.
From stdpp Require Import base list.

Open Scope R_scope.

(** ** JavaScript preliminaries *)

(** The only exception the modelled code can raise: reading a property of
    [undefined]. *)
Inductive Exn : Type := TypeError.

Inductive Result (A : Type) : Type :=
| Ok (a : A)
| Throw (e : Exn).

Arguments Ok {A} a.
Arguments Throw {A} e.

Definition Result_bind {A B : Type} (m : Result A) (k : A -> Result B) : Result B :=
  match m with
  | Ok a => k a
  | Throw e => Throw e
  end.

(** [o.field] where [o] may be [undefined]. *)
Definition prop {A B : Type} (o : option A) (field : A -> B) : Result B :=
  match o with
  | Some a => Ok (field a)
  | None => Throw TypeError
  end.

(** [a < b] and [a > b] on numbers. *)
Definition ltb (a b : R) : bool := if Rlt_dec a b then true else false.
Definition gtb (a b : R) : bool := ltb b a.

(** ** three.js: vectors as heap objects

    [Vector3] objects are mutable and shared by reference; their methods
    ([clone], [add], [multiplyScalar], [lerp], [copy], [setScalar]) follow
    three.js: all but [clone] overwrite [this] in place and return it. *)

Module THREE.

Record Vector3 : Type := Vec3 { x : R; y : R; z : R }.

Record Euler : Type := mkEuler { ex : R; ey : R; ez : R }.

(** A reference to a [Vector3] object: its index in the heap. *)
Notation Ref := nat (only parsing).

(** The world a piece of code runs in: the [Vector3] objects allocated so
    far, and the stream of values [Math.random()] is going to return
    together with the number of values already drawn. *)
Record World : Type := mkWorld {
  heap : list Vector3;
  entropy : nat -> R;
  drawn : nat
}.

Definition M (A : Type) : Type := World -> Result (A * World).

Definition ret {A : Type} (a : A) : M A := fun w => Ok (a, w).

Definition bind {A B : Type} (m : M A) (k : A -> M B) : M B :=
  fun w =>
    match m w with
    | Ok (a, w') => k a w'
    | Throw e => Throw e
    end.

Definition with_heap (w : World) (h : list Vector3) : World :=
  {| heap := h; entropy := entropy w; drawn := drawn w |}.

(** [Math.random()] *)
Definition Math_random : M R :=
  fun w => Ok (entropy w (drawn w),
               {| heap := heap w; entropy := entropy w; drawn := S (drawn w) |}).

(** [new THREE.Vector3(x, y, z)] *)
Definition new_Vector3 (x0 y0 z0 : R) : M Ref :=
  fun w => Ok (length (heap w), with_heap w (heap w ++ [Vec3 x0 y0 z0])).

(** Reading and overwriting the fields of the object behind a reference. *)
Definition get (r : Ref) : M Vector3 :=
  fun w =>
    match heap w !! r with
    | Some v => Ok (v, w)
    | None => Throw TypeError
    end.

Definition put (r : Ref) (v : Vector3) : M unit :=
  fun w =>
    match heap w !! r with
    | Some _ => Ok (tt, with_heap w (<[r := v]> (heap w)))
    | None => Throw TypeError
    end.

End THREE.

Notation "'let*' x ':=' m 'in' k" := (THREE.bind m (fun x => k))
  (at level 10, x pattern, m at level 100, k at level 200).
Notation "m ';;' k" := (THREE.bind m (fun _ => k))
  (at level 100, k at level 200, right associativity).
Notation "'let?' x ':=' m 'in' k" := (Result_bind m (fun x => k))
  (at level 10, x pattern, m at level 100, k at level 200).

Module Vector3.
Import THREE.

(** The value-level arithmetic behind the methods. *)
Definition add_val (a b : Vector3) : Vector3 :=
  Vec3 (x a + x b) (y a + y b) (z a + z b).

Definition multiplyScalar_val (a : Vector3) (s : R) : Vector3 :=
  Vec3 (x a * s) (y a * s) (z a * s).

(** [this.x += (v.x - this.x) * alpha] and likewise for [y], [z];
    three.js applies no clamp to [alpha]. *)
Definition lerp_val (a v : Vector3) (alpha : R) : Vector3 :=
  Vec3 (x a + (x v - x a) * alpha)
       (y a + (y v - y a) * alpha)
       (z a + (z v - z a) * alpha).

(** [this.clone()]: a new object with the same coordinates. *)
Definition clone (this : Ref) : M Ref :=
  let* a := get this in
  new_Vector3 (x a) (y a) (z a).

(** [this.add(v)]: mutates [this], returns [this]. *)
Definition add (this v : Ref) : M Ref :=
  let* a := get this in
  let* b := get v in
  put this (add_val a b) ;;
  ret this.

(** [this.multiplyScalar(s)]: mutates [this], returns [this]. *)
Definition multiplyScalar (this : Ref) (s : R) : M Ref :=
  let* a := get this in
  put this (multiplyScalar_val a s) ;;
  ret this.

(** [this.lerp(v, alpha)]: mutates [this], returns [this]. *)
Definition lerp (this v : Ref) (alpha : R) : M Ref :=
  let* a := get this in
  let* b := get v in
  put this (lerp_val a b alpha) ;;
  ret this.

(** [this.copy(v)] *)
Definition copy (this v : Ref) : M Ref :=
  let* b := get v in
  put this b ;;
  ret this.

(** [this.setScalar(s)] *)
Definition setScalar (this : Ref) (s : R) : M Ref :=
  let* _ := get this in
  put this (Vec3 s s s) ;;
  ret this.

(** [this.length()], and the distance between two points. *)
Definition length (a : Vector3) : R :=
  sqrt (x a * x a + y a * y a + z a * z a).

Definition distance (a b : Vector3) : R :=
  sqrt ((x a - x b) * (x a - x b) + (y a - y b) * (y a - y b)
        + (z a - z b) * (z a - z b)).

End Vector3.

(** ** types.ts *)

Inductive AppState : Type := TREE | EXPLODED | FOCUS.

Definition AppState_eqb (a b : AppState) : bool :=
  match a, b with
  | TREE, TREE | EXPLODED, EXPLODED | FOCUS, FOCUS => true
  | _, _ => false
  end.

Inductive ParticleType : Type := SPHERE | CUBE | PHOTO.

(** The four shared [THREE.Color] constants of [COLORS] (utils/math.ts). *)
Inductive Color : Type := GREEN | GOLD | RED | WHITE.

Module ParticleData.
Record t : Type := mk {
  id : nat;
  position : THREE.Ref;
  targetPosition : THREE.Ref;
  treePosition : THREE.Ref;
  explodedPosition : THREE.Ref;
  rotation : THREE.Euler;
  scale : R;
  color : Color;
  type : ParticleType;
  textureUrl : option string
}.
End ParticleData.

Module Point2.
Record t : Type := mk { x : R; y : R }.
End Point2.

Module HandGesture.
Record t : Type := mk {
  isFist : bool;
  isOpenPalm : bool;
  isPinching : bool;
  handPosition : Point2.t;
  rotation : R
}.
End HandGesture.

(** ** App.tsx: the gesture state machine *)

Module App.
(** The two pieces of component state the gesture handler writes. *)
Record t : Type := mk {
  appState : AppState;
  gesture : HandGesture.t
}.

(** [useState] initial values. *)
Definition initial : t :=
  {| appState := TREE;
     gesture := HandGesture.mk false false false (Point2.mk 0.5 0.5) 0 |}.
End App.

(** [setAppState(s)] inside an event handler queues [s]; the last queued
    value is the state of the next render. *)
Definition setAppState (s : AppState) (queued : option AppState) : option AppState :=
  Some s.

(** [handleGestureUpdate]: from the state the callback closes over and the
    incoming gesture to the state of the next render. *)
Definition handleGestureUpdate (self : App.t) (newGesture : HandGesture.t) : App.t :=
  let appState := App.appState self in
  let gesture := newGesture in (* setGesture(newGesture) *)
  let queued : option AppState := None in
  let queued :=
    if HandGesture.isFist newGesture then
      setAppState TREE queued
    else if HandGesture.isOpenPalm newGesture then
      let queued :=
        if negb (AppState_eqb appState EXPLODED) && negb (AppState_eqb appState FOCUS)
        then setAppState EXPLODED queued else queued in
      let queued :=
        if AppState_eqb appState FOCUS
        then setAppState EXPLODED queued else queued in
      queued
    else if HandGesture.isPinching newGesture then
      if AppState_eqb appState EXPLODED
      then setAppState FOCUS queued else queued
    else queued in
  {| App.appState := match queued with
                     | Some s => s
                     | None => appState
                     end;
     App.gesture := gesture |}.

(** The transition rule in the words of the specification (section 4.3),
    with [Assembled = TREE], [Dispersed = EXPLODED], [Focused = FOCUS]. *)
Definition transition_spec (mode : AppState) (g : HandGesture.t) : AppState :=
  if HandGesture.isFist g then TREE
  else if HandGesture.isOpenPalm g then EXPLODED
  else if HandGesture.isPinching g then
    match mode with
    | EXPLODED => FOCUS
    | _ => mode
    end
  else mode.

(** ** utils/math.ts: the layout generator *)

Section generateTreeLayout.
Import THREE.

Definition height : R := 18.
Definition bottomRadius : R := 7.
Definition goldenAngle : R := PI * (3 - sqrt 5).
Definition explodeRadius : R := 25.

(** One iteration of the [for] loop: the particle pushed for index [i]. *)
Definition generateTreeLayout_body (count : nat) (photoUrls : list string) (i : nat)
  : M ParticleData.t :=
  let isPhoto := (i <? length photoUrls)%nat in
  let y := (INR i / INR count) * height in
  let inverseY := 1 - (y / height) in
  let angle := INR i * goldenAngle in
  let* r := Math_random in
  let radius := bottomRadius * inverseY + (r * 0.5) in
  let x := cos angle * radius in
  let z := sin angle * radius in
  let* treePos := new_Vector3 x (y - height / 2) z in
  let* r := Math_random in
  let theta := r * PI * 2 in
  let* r := Math_random in
  let phi := acos ((r * 2) - 1) in
  let exX := explodeRadius * sin phi * cos theta in
  let exY := explodeRadius * sin phi * sin theta in
  let exZ := explodeRadius * cos phi in
  let* explodedPos := new_Vector3 exX exY exZ in
  let* (type, color) :=
    if isPhoto then ret (PHOTO, WHITE)
    else
      let* rand := Math_random in
      ret (if gtb rand 0.9 then (CUBE, GOLD)
           else if gtb rand 0.7 then (SPHERE, RED)
           else if gtb rand 0.6 then (SPHERE, GOLD)
           else (SPHERE, GREEN)) in
  let* position := Vector3.clone explodedPos in
  let* targetPosition := Vector3.clone treePos in
  let* rx := Math_random in
  let* ry := Math_random in
  let* scale :=
    if isPhoto then ret 1.5
    else let* r := Math_random in ret (r * 0.3 + 0.1) in
  ret {| ParticleData.id := i;
         ParticleData.position := position;
         ParticleData.targetPosition := targetPosition;
         ParticleData.treePosition := treePos;
         ParticleData.explodedPosition := explodedPos;
         ParticleData.rotation := mkEuler (rx * PI) (ry * PI) 0;
         ParticleData.scale := scale;
         ParticleData.color := color;
         ParticleData.type := type;
         ParticleData.textureUrl := if isPhoto then photoUrls !! i else None |}.

(** [for (let i = ...; i < count; i++) { particles.push(...) }], with
    [todo = count - i] iterations left. *)
Fixpoint generateTreeLayout_loop (todo : nat) (count : nat) (photoUrls : list string)
    (i : nat) (particles : list ParticleData.t) : M (list ParticleData.t) :=
  match todo with
  | O => ret particles
  | S todo' =>
      let* p := generateTreeLayout_body count photoUrls i in
      generateTreeLayout_loop todo' count photoUrls (S i) (particles ++ [p])
  end.

Definition generateTreeLayout (count : nat) (photoUrls : list string)
  : M (list ParticleData.t) :=
  generateTreeLayout_loop count count photoUrls 0%nat [].

End generateTreeLayout.

(** ** components/HandManager: the gesture classifier *)

Module Landmark.
(** A normalized landmark; the classifier reads its [x] and [y] only. *)
Record t : Type := mk { x : R; y : R }.
End Landmark.

Record Results : Type := mkResults {
  multiHandLandmarks : option (list (list Landmark.t))
}.

Definition tips : list nat := [8; 12; 16; 20]%nat.

(** [tips.forEach(idx => { ...; avgDist += Math.sqrt(dx*dx + dy*dy) })] *)
Fixpoint tips_forEach (landmarks : list Landmark.t) (wrist : option Landmark.t)
    (idxs : list nat) (avgDist : R) : Result R :=
  match idxs with
  | [] => Ok avgDist
  | idx :: rest =>
      let? lx := prop (landmarks !! idx) Landmark.x in
      let? wx := prop wrist Landmark.x in
      let dx := lx - wx in
      let? ly := prop (landmarks !! idx) Landmark.y in
      let? wy := prop wrist Landmark.y in
      let dy := ly - wy in
      tips_forEach landmarks wrist rest (avgDist + sqrt (dx * dx + dy * dy))
  end.

Definition neutral : HandGesture.t :=
  {| HandGesture.isFist := false;
     HandGesture.isOpenPalm := false;
     HandGesture.isPinching := false;
     HandGesture.handPosition := Point2.mk 0.5 0.5;
     HandGesture.rotation := 0 |}.

(** The [hands.onResults] callback: the [gestureData] it hands to
    [onGestureUpdate], or the exception it raises. *)
Definition onResults (results : Results) : Result HandGesture.t :=
  match multiHandLandmarks results with
  | Some (landmarks :: _) =>
      let wrist := landmarks !! 0%nat in
      let? avgDist := tips_forEach landmarks wrist tips 0 in
      let avgDist := avgDist / INR (length tips) in
      let isFist := ltb avgDist 0.25 in
      let isOpenPalm := gtb avgDist 0.4 in
      let thumbTip := landmarks !! 4%nat in
      let indexTip := landmarks !! 8%nat in
      let? tx := prop thumbTip Landmark.x in
      let? ix := prop indexTip Landmark.x in
      let? ty := prop thumbTip Landmark.y in
      let? iy := prop indexTip Landmark.y in
      let pinchDist := sqrt ((tx - ix) ^ 2 + (ty - iy) ^ 2) in
      let isPinching := ltb pinchDist 0.05 in
      let? x9 := prop (landmarks !! 9%nat) Landmark.x in
      let? y9 := prop (landmarks !! 9%nat) Landmark.y in
      let handPos := Point2.mk (1 - x9) y9 in
      let? x0 := prop (landmarks !! 0%nat) Landmark.x in
      Ok {| HandGesture.isFist := isFist;
            HandGesture.isOpenPalm := isOpenPalm;
            HandGesture.isPinching := isPinching;
            HandGesture.handPosition := handPos;
            HandGesture.rotation := x0 |}
  | Some [] | None => Ok neutral
  end.

(** ** components/ChristmasScene: the per-frame animators *)

(** A reference that may be [undefined]: dereferencing it raises. *)
Definition defined {A : Type} (o : option A) : THREE.M A :=
  fun w =>
    match o with
    | Some a => Ok (a, w)
    | None => Throw TypeError
    end.

(** The part of [useFrame]'s [state] argument the animators read. *)
Module RootState.
Record t : Type := mk {
  elapsedTime : R;            (* state.clock.elapsedTime *)
  camera_position : THREE.Ref (* state.camera.position *)
}.
End RootState.

(** What [updateMatrix] composes from an object's position, rotation and
    scale; the renderer consumes it. *)
Record Matrix4 : Type := compose {
  m_position : THREE.Vector3;
  m_rotation : THREE.Euler;
  m_scale : THREE.Vector3
}.

Module Object3D.
Record t : Type := mk {
  position : THREE.Ref;
  rotation : THREE.Euler;
  scale : THREE.Ref
}.
End Object3D.

Module InstancedMesh.
Record t : Type := mk {
  instanceMatrix : list Matrix4;
  instanceColor : list Color
}.

Definition setMatrixAt (mesh : t) (i : nat) (m : Matrix4) : t :=
  mk (<[i := m]> (instanceMatrix mesh)) (instanceColor mesh).

Definition setColorAt (mesh : t) (i : nat) (c : Color) : t :=
  mk (instanceMatrix mesh) (<[i := c]> (instanceColor mesh)).
End InstancedMesh.

Module ParticleGroup.
Import THREE.

(** The component's refs: [meshRef.current], [dummy] and
    [currentPositions.current]. *)
Record t : Type := mk {
  meshRef : option InstancedMesh.t;
  dummy : Object3D.t;
  currentPositions : list Ref
}.

(** [data.map(p => p.position.clone())] *)
Fixpoint clone_positions (data : list ParticleData.t) : M (list Ref) :=
  match data with
  | [] => ret []
  | p :: rest =>
      let* c := Vector3.clone (ParticleData.position p) in
      let* cs := clone_positions rest in
      ret (c :: cs)
  end.

(** First render: the instanced mesh has [data.length] instances, the
    dummy is a fresh [Object3D]. *)
Definition mount (data : list ParticleData.t) : M t :=
  let* dpos := new_Vector3 0 0 0 in
  let* dscale := new_Vector3 1 1 1 in
  let* cps := clone_positions data in
  let identity := compose (Vec3 0 0 0) (mkEuler 0 0 0) (Vec3 1 1 1) in
  ret {| meshRef := Some (InstancedMesh.mk (replicate (length data) identity)
                                           (replicate (length data) WHITE));
         dummy := Object3D.mk dpos (mkEuler 0 0 0) dscale;
         currentPositions := cps |}.

(** [for (const particle of data) { ...; i++ }] *)
Fixpoint useFrame_loop (appState : AppState) (state : RootState.t) (delta : R)
    (currentPositions : list Ref) (data : list ParticleData.t) (i : nat)
    (dummy : Object3D.t) (mesh : InstancedMesh.t)
  : M (Object3D.t * InstancedMesh.t) :=
  match data with
  | [] => ret (dummy, mesh)
  | particle :: rest =>
      let scale := ParticleData.scale particle in
      let elapsedTime := RootState.elapsedTime state in
      let id := INR (ParticleData.id particle) in
      let* target :=
        match appState with
        | TREE => ret (ParticleData.treePosition particle)
        | EXPLODED =>
            let target := ParticleData.explodedPosition particle in
            let* target' := Vector3.clone target in
            let* noise := new_Vector3 (sin (elapsedTime + id) * 0.5)
                                      (cos (elapsedTime * 0.8 + id) * 0.5)
                                      0 in
            Vector3.add target' noise
        | FOCUS =>
            let* target' := Vector3.clone (ParticleData.explodedPosition particle) in
            Vector3.multiplyScalar target' 1.5
        end in
      let* current := defined (currentPositions !! i) in
      Vector3.lerp current target (delta * 3) ;;
      Vector3.copy (Object3D.position dummy) current ;;
      let rotation := Object3D.rotation dummy in
      let rotation := mkEuler (ex rotation + delta * 0.2) (ey rotation) (ez rotation) in
      let rotation := mkEuler (ex rotation) (ey rotation + delta * 0.1) (ez rotation) in
      let dummy := Object3D.mk (Object3D.position dummy) rotation (Object3D.scale dummy) in
      Vector3.setScalar (Object3D.scale dummy) scale ;;
      let* p := get (Object3D.position dummy) in
      let* s := get (Object3D.scale dummy) in
      let matrix := compose p (Object3D.rotation dummy) s in
      let mesh := InstancedMesh.setMatrixAt mesh i matrix in
      let mesh := InstancedMesh.setColorAt mesh i (ParticleData.color particle) in
      useFrame_loop appState state delta currentPositions rest (S i) dummy mesh
  end.

(** The [needsUpdate] flags set after the loop concern the renderer only
    and are left out. *)
Definition useFrame (data : list ParticleData.t) (appState : AppState)
    (self : t) (state : RootState.t) (delta : R) : M t :=
  match meshRef self with
  | None => ret self
  | Some mesh =>
      let* (dummy', mesh') :=
        useFrame_loop appState state delta (currentPositions self) data 0%nat
                      (dummy self) mesh in
      ret {| meshRef := Some mesh';
             dummy := dummy';
             currentPositions := currentPositions self |}
  end.

End ParticleGroup.

Module Mesh.
(** A photo's mesh: its own position and scale vectors, and the point it
    was last turned towards by [lookAt]. *)
Record t : Type := mk {
  position : THREE.Ref;
  scale : THREE.Ref;
  facing : THREE.Vector3
}.

Definition lookAt (mesh : t) (v : THREE.Vector3) : t :=
  mk (position mesh) (scale mesh) v.
End Mesh.

Module SinglePhoto.
Import THREE.

(** [<mesh ref={meshRef} position={particle.treePosition}>]: the mesh keeps
    its own vectors; the position prop is copied into it. *)
Definition mount (particle : ParticleData.t) : M Mesh.t :=
  let* pos := Vector3.clone (ParticleData.treePosition particle) in
  let* sc := new_Vector3 1 1 1 in
  ret (Mesh.mk pos sc (Vec3 0 0 1)).

Definition useFrame (particle : ParticleData.t) (appState : AppState)
    (meshRef : option Mesh.t) (state : RootState.t) (delta : R)
  : M (option Mesh.t) :=
  match meshRef with
  | None => ret None
  | Some mesh =>
      let target := ParticleData.treePosition particle in
      let scale := 1.5 in
      let elapsedTime := RootState.elapsedTime state in
      let id := ParticleData.id particle in
      let* (target, scale, mesh) :=
        match appState with
        | EXPLODED =>
            let target := ParticleData.explodedPosition particle in
            let* noise := new_Vector3 0 (sin (elapsedTime + INR id) * 0.5) 0 in
            Vector3.add target noise ;;
            ret (target, scale, mesh)
        | FOCUS =>
            let isFocusTarget := (id mod 5 =? 0)%nat in
            if isFocusTarget then
              let* target := new_Vector3 0 0 15 in
              let scale := 6 in
              let* cam := get (RootState.camera_position state) in
              ret (target, scale, Mesh.lookAt mesh cam)
            else
              let* target' := Vector3.clone (ParticleData.explodedPosition particle) in
              let* target := Vector3.multiplyScalar target' 1.5 in
              let scale := 1.0 in
              ret (target, scale, mesh)
        | TREE => ret (target, scale, mesh)
        end in
      Vector3.lerp (Mesh.position mesh) target (delta * 3) ;;
      let* s := new_Vector3 scale scale scale in
      Vector3.lerp (Mesh.scale mesh) s (delta * 2) ;;
      let* mesh :=
        match appState with
        | FOCUS =>
            let isFocusTarget := (id mod 5 =? 0)%nat in
            if isFocusTarget then
              let* cam := get (RootState.camera_position state) in
              ret (Mesh.lookAt mesh cam)
            else ret (Mesh.lookAt mesh (Vec3 0 0 30))
        | _ => ret (Mesh.lookAt mesh (Vec3 0 0 30))
        end in
      ret (Some mesh)
  end.

End SinglePhoto.

(** [photoParticles] of [ChristmasScene]: the generator's output with the
    ids moved to [i + 10000]; the copies share the position vectors. *)
Definition photoParticles (photos : list string) : THREE.M (list ParticleData.t) :=
  if (length photos =? 0)%nat then THREE.ret []
  else
    let* raw := generateTreeLayout (length photos) photos in
    THREE.ret (imap (fun i p =>
                 ParticleData.mk (i + 10000)%nat
                   (ParticleData.position p) (ParticleData.targetPosition p)
                   (ParticleData.treePosition p) (ParticleData.explodedPosition p)
                   (ParticleData.rotation p) 1.5 (ParticleData.color p)
                   PHOTO (ParticleData.textureUrl p)) raw).

(** ** App.tsx: the photo list *)

Definition DEFAULT_PHOTOS : list string :=
  ["https://picsum.photos/400/400?random=1";
   "https://picsum.photos/400/400?random=2";
   "https://picsum.photos/400/400?random=3";
   "https://picsum.photos/400/400?random=4";
   "https://picsum.photos/400/400?random=5";
   "https://picsum.photos/400/400?random=6"]%string.

Module Photos.
(** The two pieces of component state the upload handler writes. *)
Record t : Type := mk {
  photos : list string;
  hasCustomPhotos : bool
}.

Definition initial : t := {| photos := DEFAULT_PHOTOS; hasCustomPhotos := false |}.
End Photos.

Section handlePhotoUpload.

(** The browser's [File] objects and [URL.createObjectURL]. *)
Variable File : Type.
Variable createObjectURL : File -> string.

(** [Array.from(files).forEach(file => newPhotos.push(URL.createObjectURL(file)))] *)
Fixpoint files_forEach (files : list File) (newPhotos : list string) : list string :=
  match files with
  | [] => newPhotos
  | file :: rest => files_forEach rest (newPhotos ++ [createObjectURL file])
  end.

(** [handlePhotoUpload], from the state the handler closes over and
    [event.target.files] (which may be [null]) to the state of the next
    render. *)
Definition handlePhotoUpload (self : Photos.t) (files : option (list File)) : Photos.t :=
  match files with
  | Some (file :: rest) =>
      let newPhotos := files_forEach (file :: rest) [] in
      let setPhotos (prev : list string) :=
        if negb (Photos.hasCustomPhotos self) then newPhotos
        else prev ++ newPhotos in
      {| Photos.photos := setPhotos (Photos.photos self);
         Photos.hasCustomPhotos := true |}
  | Some [] | None => self
  end.

End handlePhotoUpload.

(** ** components/ChristmasScene: the scene's particles and the camera *)

Definition ParticleType_eqb (a b : ParticleType) : bool :=
  match a, b with
  | SPHERE, SPHERE | CUBE, CUBE | PHOTO, PHOTO => true
  | _, _ => false
  end.

Module ChristmasScene.

Definition ornamentCount : nat := 400.

(** [generateTreeLayout(ornamentCount, [])] *)
Definition ornaments : THREE.M (list ParticleData.t) :=
  generateTreeLayout ornamentCount [].

(** [ornaments.filter(p => p.type === 'SPHERE')] and its [CUBE] twin. *)
Definition sphereOrnaments (ornaments : list ParticleData.t) : list ParticleData.t :=
  List.filter (fun p => ParticleType_eqb (ParticleData.type p) SPHERE) ornaments.

Definition cubeOrnaments (ornaments : list ParticleData.t) : list ParticleData.t :=
  List.filter (fun p => ParticleType_eqb (ParticleData.type p) CUBE) ornaments.

End ChristmasScene.

Module Camera.
(** The scene camera: its position vector and the point it was last
    turned towards by [lookAt]. *)
Record t : Type := mk {
  position : THREE.Ref;
  facing : THREE.Vector3
}.

Definition lookAt (camera : t) (v : THREE.Vector3) : t := mk (position camera) v.
End Camera.

Module CameraController.
Import THREE.

(** [camera.position.x += d] and [camera.position.y += d]. *)
Definition add_x (r : Ref) (d : Vector3 -> R) : M unit :=
  let* p := get r in
  put r (Vec3 (x p + d p) (y p) (z p)).

Definition add_y (r : Ref) (d : Vector3 -> R) : M unit :=
  let* p := get r in
  put r (Vec3 (x p) (y p + d p) (z p)).

Definition useFrame (appState : AppState) (gesture : HandGesture.t)
    (camera : Camera.t) (state : RootState.t) (delta : R) : M Camera.t :=
  match appState with
  | EXPLODED =>
      let targetX := (Point2.x (HandGesture.handPosition gesture) - 0.5) * 8 in
      let targetY := (Point2.y (HandGesture.handPosition gesture) - 0.5) * 8 in
      add_x (Camera.position camera) (fun p => (targetX - x p) * delta * 2) ;;
      add_y (Camera.position camera) (fun p => (targetY - y p) * delta * 2) ;;
      ret (Camera.lookAt camera (Vec3 0 0 0))
  | TREE =>
      let* home := new_Vector3 0 0 25 in
      Vector3.lerp (Camera.position camera) home delta ;;
      ret (Camera.lookAt camera (Vec3 0 0 0))
  | FOCUS => ret camera
  end.

End CameraController.

(** ** Reference notions taken from the specification's wording *)

(** Euclidean distance between two landmarks in the image plane. *)
Definition euclid (p q : Landmark.t) : R :=
  sqrt ((Landmark.x p - Landmark.x q) ^ 2 + (Landmark.y p - Landmark.y q) ^ 2).

(** The landmark labels of a 21-point hand. *)
Definition WRIST : nat := 0.
Definition THUMB_TIP : nat := 4.
Definition INDEX_TIP : nat := 8.
Definition MIDDLE_MCP : nat := 9.
Definition MIDDLE_TIP : nat := 12.
Definition RING_TIP : nat := 16.
Definition PINKY_TIP : nat := 20.

Definition landmark (lms : list Landmark.t) (label : nat) : Landmark.t :=
  nth label lms (Landmark.mk 0 0).

(** Mean distance from the wrist to the four fingertips. *)
Definition meanTipDistance (lms : list Landmark.t) : R :=
  (euclid (landmark lms INDEX_TIP) (landmark lms WRIST)
   + euclid (landmark lms MIDDLE_TIP) (landmark lms WRIST)
   + euclid (landmark lms RING_TIP) (landmark lms WRIST)
   + euclid (landmark lms PINKY_TIP) (landmark lms WRIST)) / 4.

Definition pinchDistance (lms : list Landmark.t) : R :=
  euclid (landmark lms THUMB_TIP) (landmark lms INDEX_TIP).

(** The position update in the words of the specification (section 4.4):
    [current += (target - current) * min(1, deltaTime * smoothingRate)]. *)
Definition advance_spec (current target : THREE.Vector3) (deltaTime smoothingRate : R)
  : THREE.Vector3 :=
  Vector3.lerp_val current target (Rmin 1 (deltaTime * smoothingRate)).

(** ** Notions used in the statements *)

(** Closed forms of the two vectors one iteration of the generator
    allocates, as functions of the values [Math.random()] returned. *)
Definition treePos_at (count i : nat) (r : R) : THREE.Vector3 :=
  let y := (INR i / INR count) * height in
  let radius := bottomRadius * (1 - (y / height)) + (r * 0.5) in
  THREE.Vec3 (cos (INR i * goldenAngle) * radius)
             (y - height / 2)
             (sin (INR i * goldenAngle) * radius).

Definition explodedPos_at (r_theta r_phi : R) : THREE.Vector3 :=
  let theta := r_theta * PI * 2 in
  let phi := acos ((r_phi * 2) - 1) in
  THREE.Vec3 (explodeRadius * sin phi * cos theta)
             (explodeRadius * sin phi * sin theta)
             (explodeRadius * cos phi).

(** What the generator guarantees of the particle it pushes for index [i],
    read in a heap [h] that holds its vectors. *)
Definition generated (count : nat) (photoUrls : list string)
    (h : list THREE.Vector3) (i : nat) (p : ParticleData.t) : Prop :=
  ParticleData.id p = i
  /\ (ParticleData.type p = PHOTO <-> (i < length photoUrls)%nat)
  /\ ParticleData.textureUrl p
     = (if (i <? length photoUrls)%nat then photoUrls !! i else None)
  /\ ((i < length photoUrls)%nat ->
      ParticleData.color p = WHITE /\ ParticleData.scale p = 1.5)
  /\ exists r r_theta r_phi : R,
       h !! ParticleData.treePosition p = Some (treePos_at count i r)
       /\ h !! ParticleData.explodedPosition p = Some (explodedPos_at r_theta r_phi).

(** [n] updates of a value towards a fixed target with factor [alpha]. *)
Definition lerp_iter (n : nat) (current target : THREE.Vector3) (alpha : R)
  : THREE.Vector3 :=
  Nat.iter n (fun c => Vector3.lerp_val c target alpha) current.

(** Well-formedness of a mounted [ParticleGroup] in a heap [h]: every
    particle has its own smoothed position, the smoothed positions and the
    dummy's vectors are distinct live objects, and none of them is a
    particle's stored home or scatter position. *)
Definition ParticleGroup_wf (data : list ParticleData.t) (g : ParticleGroup.t)
    (h : list THREE.Vector3) : Prop :=
  let cps := ParticleGroup.currentPositions g in
  let dpos := Object3D.position (ParticleGroup.dummy g) in
  let dscale := Object3D.scale (ParticleGroup.dummy g) in
  (exists mesh, ParticleGroup.meshRef g = Some mesh)
  /\ length cps = length data
  /\ NoDup cps
  /\ (forall c, c ∈ cps -> (c < length h)%nat /\ c <> dpos /\ c <> dscale)
  /\ (dpos < length h)%nat /\ (dscale < length h)%nat /\ dpos <> dscale
  /\ (forall p, p ∈ data ->
        let t := ParticleData.treePosition p in
        (t < length h)%nat /\ (t ∉ cps) /\ t <> dpos /\ t <> dscale)
  /\ (forall p, p ∈ data ->
        let e := ParticleData.explodedPosition p in
        (e < length h)%nat /\ (e ∉ cps) /\ e <> dpos /\ e <> dscale).

(** ** Example inputs *)

(** A closed hand for the examples: the wrist at the centre of the image
    and every other point 0.1 above it. *)
Definition closed_hand : list Landmark.t :=
  Landmark.mk 0.5 0.5 :: replicate 20 (Landmark.mk 0.5 0.6).

(** The same hand with every [x] at 2, outside the image. *)
Definition far_hand : list Landmark.t :=
  Landmark.mk 2 0.5 :: replicate 20 (Landmark.mk 2 0.6).

(** The scenes of the examples live on a canvas whose only vector is the
    camera position (cell 0) and where [Math.random()] returns 0.5 at its
    third call and 0 at every other call. *)
Definition entropy0 : nat -> R := fun n => if (n =? 2)%nat then 0.5 else 0.

Definition canvas0 : THREE.World :=
  THREE.mkWorld [THREE.Vec3 0 0 25] entropy0 0.

(** The only photo of [photoParticles] for one photo handle on that
    canvas (its id is 10000), with its home and scatter positions and their
    clones in cells 1-4. *)
Definition photo0 : ParticleData.t :=
  ParticleData.mk 10000 3%nat 4%nat 1%nat 2%nat (THREE.mkEuler 0 0 0) 1.5 WHITE PHOTO
                  (Some "a"%string).

Definition photo_layout0 : THREE.World :=
  THREE.mkWorld
    [THREE.Vec3 0 0 25;
     THREE.Vec3 7 (-9) 0; THREE.Vec3 25 0 0; THREE.Vec3 25 0 0; THREE.Vec3 7 (-9) 0]
    entropy0 5.

(** The photo's mesh as [SinglePhoto.mount] creates it: position (cell 5)
    at the home position, scale (cell 6) at 1. *)
Definition mesh0 : Mesh.t := Mesh.mk 5%nat 6%nat (THREE.Vec3 0 0 1).

Definition scene0 : THREE.World :=
  THREE.mkWorld
    [THREE.Vec3 0 0 25;
     THREE.Vec3 7 (-9) 0; THREE.Vec3 25 0 0; THREE.Vec3 25 0 0; THREE.Vec3 7 (-9) 0;
     THREE.Vec3 7 (-9) 0; THREE.Vec3 1 1 1]
    entropy0 5.

(** A frame 4000 pi + pi/2 - 10000 seconds (about 43 minutes) into the
    session. *)
Definition frame0 : RootState.t :=
  RootState.mk (4000 * PI + PI / 2 - 10000) 0%nat.

(** The only ornament of [generateTreeLayout 1 []] on the same canvas, and
    its group as [ParticleGroup.mount] creates it: the dummy's position and
    scale (cells 5, 6) and the ornament's smoothed position (cell 7), which
    starts at the scatter position. *)
Definition ornament0 : ParticleData.t :=
  ParticleData.mk 0%nat 3%nat 4%nat 1%nat 2%nat (THREE.mkEuler 0 0 0) 0.1 GREEN SPHERE None.

Definition layout0 : THREE.World :=
  THREE.mkWorld
    [THREE.Vec3 0 0 25;
     THREE.Vec3 7 (-9) 0; THREE.Vec3 25 0 0; THREE.Vec3 25 0 0; THREE.Vec3 7 (-9) 0]
    entropy0 7.

Definition group_scene0 : THREE.World :=
  THREE.mkWorld
    [THREE.Vec3 0 0 25;
     THREE.Vec3 7 (-9) 0; THREE.Vec3 25 0 0; THREE.Vec3 25 0 0; THREE.Vec3 7 (-9) 0;
     THREE.Vec3 0 0 0; THREE.Vec3 1 1 1; THREE.Vec3 25 0 0]
    entropy0 7.

Definition group0 : ParticleGroup.t :=
  ParticleGroup.mk
    (Some (InstancedMesh.mk
             [compose (THREE.Vec3 0 0 0) (THREE.mkEuler 0 0 0) (THREE.Vec3 1 1 1)]
             [WHITE]))
    (Object3D.mk 5%nat (THREE.mkEuler 0 0 0) 6%nat)
    [7%nat].

(** ** Notions used in the further properties *)

(** The end of the [hands.onResults] callback: the gesture is handed to
    [onGestureUpdate], which is [handleGestureUpdate]. *)
Definition onResults_update (self : App.t) (results : Results) : Result App.t :=
  let? gestureData := onResults results in
  Ok (handleGestureUpdate self gestureData).

(** A hand moved by [(dx, dy)] in the image, and a hand scaled by [k]
    about the image origin. *)
Definition translate (dx dy : R) (lms : list Landmark.t) : list Landmark.t :=
  map (fun p => Landmark.mk (Landmark.x p + dx) (Landmark.y p + dy)) lms.

Definition rescale (k : R) (lms : list Landmark.t) : list Landmark.t :=
  map (fun p => Landmark.mk (k * Landmark.x p) (k * Landmark.y p)) lms.

(** The landmarks the callback reads. *)
Definition read_labels : list nat :=
  [WRIST; THUMB_TIP; INDEX_TIP; MIDDLE_MCP; MIDDLE_TIP; RING_TIP; PINKY_TIP].

(** The urls one file selection contributes: none when the selection is
    [null] or empty. *)
Definition upload_urls {File : Type} (createObjectURL : File -> string)
    (files : option (list File)) : list string :=
  match files with
  | Some fs => map createObjectURL fs
  | None => []
  end.

(** The kind and tint of an ornament, from the value drawn for it. *)
Definition ornament_kind (rand : R) : ParticleType * Color :=
  if gtb rand 0.9 then (CUBE, GOLD)
  else if gtb rand 0.7 then (SPHERE, RED)
  else if gtb rand 0.6 then (SPHERE, GOLD)
  else (SPHERE, GREEN).

(** The four vectors a particle refers to. *)
Definition vector_refs (p : ParticleData.t) : list THREE.Ref :=
  [ParticleData.treePosition p; ParticleData.explodedPosition p;
   ParticleData.position p; ParticleData.targetPosition p].

(** The particle of index [i] in the output of a generator call started
    in world [w0], read in a heap [h] that holds its vectors: where its four
    vectors are, what they hold, and its attributes, in terms of the values
    [Math.random()] returned from some call [d] on. *)
Definition generated_at (count : nat) (photoUrls : list string) (w0 : THREE.World)
    (h : list THREE.Vector3) (i : nat) (p : ParticleData.t) : Prop :=
  let n := (length (THREE.heap w0) + 4 * i)%nat in
  let e := THREE.entropy w0 in
  ParticleData.id p = i
  /\ vector_refs p = seq n 4
  /\ exists d : nat,
       (THREE.drawn w0 <= d)%nat
       /\ h !! n = Some (treePos_at count i (e d))
       /\ h !! S n = Some (explodedPos_at (e (S d)) (e (S (S d))))
       /\ h !! S (S n) = Some (explodedPos_at (e (S d)) (e (S (S d))))
       /\ h !! S (S (S n)) = Some (treePos_at count i (e d))
       /\ ((i < length photoUrls)%nat ->
           ParticleData.type p = PHOTO /\ ParticleData.color p = WHITE
           /\ ParticleData.scale p = 1.5
           /\ ParticleData.textureUrl p = photoUrls !! i)
       /\ ((length photoUrls <= i)%nat ->
           (ParticleData.type p, ParticleData.color p)
           = ornament_kind (e (S (S (S d))))
           /\ ParticleData.scale p = e (S (S (S (S (S (S d)))))) * 0.3 + 0.1
           /\ ParticleData.textureUrl p = None).

(** A session: the frames the render loop delivers, one after the other,
    each described by a value of type [Fr] (mode, root state, delta, ...). *)
Fixpoint run_frames {Fr St : Type} (frame : Fr -> St -> THREE.M St)
    (frames : list Fr) (s : St) : THREE.M St :=
  match frames with
  | [] => THREE.ret s
  | fr :: rest =>
      let* s' := frame fr s in
      run_frames frame rest s'
  end.

(** The ambient float offset of an ornament ([EXPLODED] mode). *)
Definition float_noise (state : RootState.t) (p : ParticleData.t) : THREE.Vector3 :=
  let elapsedTime := RootState.elapsedTime state in
  let id := INR (ParticleData.id p) in
  THREE.Vec3 (sin (elapsedTime + id) * 0.5) (cos (elapsedTime * 0.8 + id) * 0.5) 0.

(** The value of the target an ornament is interpolated towards in a
    frame, from the values [vt], [ve] of its stored home and scatter
    positions. *)
Definition ParticleGroup_target (appState : AppState) (state : RootState.t)
    (p : ParticleData.t) (vt ve : THREE.Vector3) : THREE.Vector3 :=
  match appState with
  | TREE => vt
  | EXPLODED => Vector3.add_val ve (float_noise state p)
  | FOCUS => Vector3.multiplyScalar_val ve 1.5
  end.

(** [dummy.rotation.x += delta * 0.2; dummy.rotation.y += delta * 0.1] *)
Definition spin_step (delta : R) (r : THREE.Euler) : THREE.Euler :=
  THREE.mkEuler (THREE.ex r + delta * 0.2) (THREE.ey r + delta * 0.1) (THREE.ez r).

(** The photo animator's choices in a frame, in closed form: the float
    offset, the target value, the target scale, the point the mesh is turned
    towards, and the value the stored scatter position is left with. *)
Definition photo_noise (state : RootState.t) (p : ParticleData.t) : THREE.Vector3 :=
  THREE.Vec3 0 (sin (RootState.elapsedTime state + INR (ParticleData.id p)) * 0.5) 0.

Definition isFocusTarget (p : ParticleData.t) : bool :=
  (ParticleData.id p mod 5 =? 0)%nat.

Definition SinglePhoto_target (appState : AppState) (state : RootState.t)
    (p : ParticleData.t) (vt ve : THREE.Vector3) : THREE.Vector3 :=
  match appState with
  | TREE => vt
  | EXPLODED => Vector3.add_val ve (photo_noise state p)
  | FOCUS => if isFocusTarget p then THREE.Vec3 0 0 15
             else Vector3.multiplyScalar_val ve 1.5
  end.

Definition SinglePhoto_scale (appState : AppState) (p : ParticleData.t) : R :=
  match appState with
  | FOCUS => if isFocusTarget p then 6 else 1.0
  | _ => 1.5
  end.

Definition SinglePhoto_facing (appState : AppState) (p : ParticleData.t)
    (vcam : THREE.Vector3) : THREE.Vector3 :=
  match appState with
  | FOCUS => if isFocusTarget p then vcam else THREE.Vec3 0 0 30
  | _ => THREE.Vec3 0 0 30
  end.

Definition SinglePhoto_scatter_after (appState : AppState) (state : RootState.t)
    (p : ParticleData.t) (ve : THREE.Vector3) : THREE.Vector3 :=
  match appState with
  | EXPLODED => Vector3.add_val ve (photo_noise state p)
  | _ => ve
  end.

(** A frame of the render loop as the animators see it: the mode of the
    current render, the root state and the time since the last frame. *)
Definition Frame : Type := AppState * RootState.t * R.

Definition frame_mode (fr : Frame) : AppState := fst (fst fr).
Definition frame_state (fr : Frame) : RootState.t := snd (fst fr).
Definition frame_delta (fr : Frame) : R := snd fr.

(** How many of the frames are rendered in [EXPLODED] mode. *)
Definition exploded_frames (frames : list Frame) : nat :=
  length (List.filter (fun fr => AppState_eqb (frame_mode fr) EXPLODED) frames).

(** The photo animator and the ornament animator as session steps. *)
Definition SinglePhoto_frame (particle : ParticleData.t) (fr : Frame)
    (meshRef : option Mesh.t) : THREE.M (option Mesh.t) :=
  SinglePhoto.useFrame particle (frame_mode fr) meshRef (frame_state fr) (frame_delta fr).

Definition ParticleGroup_frame (data : list ParticleData.t) (fr : Frame)
    (self : ParticleGroup.t) : THREE.M ParticleGroup.t :=
  ParticleGroup.useFrame data (frame_mode fr) self (frame_state fr) (frame_delta fr).

(** A frame as the camera controller sees it: the frame and the gesture of
    the current render. *)
Definition CameraFrame : Type := Frame * HandGesture.t.

Definition CameraController_frame (fr : CameraFrame) (camera : Camera.t)
  : THREE.M Camera.t :=
  CameraController.useFrame (frame_mode (fst fr)) (snd fr) camera
    (frame_state (fst fr)) (frame_delta (fst fr)).

(** Where the pointer pulls the camera, on each axis, in [EXPLODED] mode. *)
Definition pointer_target (c : R) : R := (c - 0.5) * 8.

(** The value the camera position takes in one frame, from its value [v]
    before the frame. *)
Definition CameraController_step (appState : AppState) (gesture : HandGesture.t)
    (delta : R) (v : THREE.Vector3) : THREE.Vector3 :=
  match appState with
  | EXPLODED =>
      let hand := HandGesture.handPosition gesture in
      THREE.Vec3
        (THREE.x v + (pointer_target (Point2.x hand) - THREE.x v) * delta * 2)
        (THREE.y v + (pointer_target (Point2.y hand) - THREE.y v) * delta * 2)
        (THREE.z v)
  | TREE => Vector3.lerp_val v (THREE.Vec3 0 0 25) delta
  | FOCUS => v
  end.

(** The camera of the example canvas: its position is cell 0, and it
    looks down the negative [z] axis until first turned. *)
Definition camera0 : Camera.t := Camera.mk 0%nat (THREE.Vec3 0 0 (-1)).

(** A canvas whose camera has been steered off the axis, to (4, -4, 25). *)
Definition steered_canvas : THREE.World :=
  THREE.mkWorld [THREE.Vec3 4 (-4) 25] entropy0 0.

(** An open hand for the examples: the wrist at the centre of the image
    and every other point at (0.2, 0.9), at distance 0.5 from it. *)
Definition open_hand : list Landmark.t :=
  Landmark.mk 0.5 0.5 :: replicate 20 (Landmark.mk 0.2 0.9).

(** The time a run of frames takes: the sum of the frames' deltas. *)
Definition total_time (frames : list Frame) : R :=
  fold_right (fun fr acc => frame_delta fr + acc) 0 frames.

(** The dummy's rotation after [n] turns of [delta] each, in closed form. *)
Definition spin (n : nat) (delta : R) (r : THREE.Euler) : THREE.Euler :=
  THREE.mkEuler (THREE.ex r + INR n * (delta * 0.2))
                (THREE.ey r + INR n * (delta * 0.1))
                (THREE.ez r).

(** ** The interpolation in double precision

    What [Vector3.lerp] does to one coordinate, [this.x += (v.x - this.x) *
    alpha], on the IEEE 754 doubles JavaScript computes with (round to
    nearest, ties to even), and [n] such updates towards a fixed target. *)
Module F64.
Import PrimFloat.

Definition lerp (c t alpha : float) : float := (c + (t - c) * alpha)%float.

Definition lerp_iter (n : nat) (c t alpha : float) : float :=
  Nat.iter n (fun c => lerp c t alpha) c.

End F64.

(** * Properties *)

(** ** The state machine *)

(** C1: the mode [handleGestureUpdate] leaves behind equals the reference
    rule applied to the current mode and the incoming gesture: a closed
    hand assembles from every mode; otherwise an open hand disperses from
    every mode (from [FOCUS] too); otherwise a pinch in [EXPLODED] focuses;
    otherwise the mode stays. *)
Theorem handleGestureUpdate_is_transition_spec :
  forall (self : App.t) (g : HandGesture.t),
    App.appState (handleGestureUpdate self g)
    = transition_spec (App.appState self) g
    /\ App.gesture (handleGestureUpdate self g) = g.
Proof.
  intros [mode g0] [fist open pinch pos rot].
  unfold handleGestureUpdate, transition_spec; cbn.
  split; [|reflexivity].
  destruct fist, open, pinch, mode; reflexivity.
Qed.

(** The walk of the specification's section 8: an open hand, a pinch, an
    open hand again, a closed hand. *)
Example handleGestureUpdate_walk :
  let open_hand := HandGesture.mk false true false (Point2.mk 0.5 0.5) 0 in
  let pinch := HandGesture.mk false false true (Point2.mk 0.5 0.5) 0 in
  let closed := HandGesture.mk true false false (Point2.mk 0.5 0.5) 0 in
  let s1 := handleGestureUpdate App.initial open_hand in
  let s2 := handleGestureUpdate s1 pinch in
  let s3 := handleGestureUpdate s2 open_hand in
  let s4 := handleGestureUpdate s3 closed in
  App.appState s1 = EXPLODED /\ App.appState s2 = FOCUS
  /\ App.appState s3 = EXPLODED /\ App.appState s4 = TREE.
Proof. repeat split. Qed.

(** ** The gesture classifier *)

Lemma ltb_true (a b : R) : ltb a b = true <-> a < b.
Proof. unfold ltb. destruct (Rlt_dec a b); split; intros; try done. Qed.

Lemma gtb_true (a b : R) : gtb a b = true <-> a > b.
Proof. unfold gtb. rewrite ltb_true. lra. Qed.

(** C6: without a hand (no landmark list, or an empty one) the classifier
    returns exactly the neutral signal. *)
Theorem onResults_no_hand_is_neutral :
  onResults (mkResults None) = Ok neutral
  /\ onResults (mkResults (Some [])) = Ok neutral
  /\ HandGesture.isFist neutral = false
  /\ HandGesture.isOpenPalm neutral = false
  /\ HandGesture.isPinching neutral = false
  /\ HandGesture.handPosition neutral = Point2.mk 0.5 0.5
  /\ HandGesture.rotation neutral = 0.
Proof. repeat split. Qed.

(** The fingertip loop raises as soon as one of its indices is missing. *)
Lemma tips_forEach_missing (lms : list Landmark.t) (wrist : option Landmark.t)
    (idxs : list nat) (acc : R) :
  (exists idx, idx ∈ idxs /\ lms !! idx = None) ->
  tips_forEach lms wrist idxs acc = Throw TypeError.
Proof.
  revert acc. induction idxs as [|i idxs IH]; intros acc [idx [Hin Hnone]].
  - inversion Hin.
  - cbn [tips_forEach].
    destruct (lms !! i) as [p|] eqn:Hi; [|reflexivity].
    destruct wrist as [w|]; [|reflexivity].
    cbn [prop Result_bind].
    apply IH. exists idx. split; [|exact Hnone].
    apply elem_of_cons in Hin as [->|Hin]; [congruence|exact Hin].
Qed.

(** A hand with fewer than 21 points makes the callback raise: index 20
    is read by the fingertip loop. *)
Lemma onResults_short_hand_throws (lms : list Landmark.t) (others : list (list Landmark.t)) :
  (length lms < 21)%nat ->
  onResults (mkResults (Some (lms :: others))) = Throw TypeError.
Proof.
  intros Hlen. unfold onResults; cbn [multiHandLandmarks].
  rewrite (tips_forEach_missing lms (lms !! 0%nat) tips 0); [reflexivity|].
  exists 20%nat. split.
  - unfold tips. repeat constructor.
  - apply lookup_ge_None. lia.
Qed.


(** On a hand of at least 21 points every index the callback reads is
    present. *)
Lemma full_hand_inv (lms : list Landmark.t) :
  (21 <= length lms)%nat ->
  exists p0 p1 p2 p3 p4 p5 p6 p7 p8 p9 p10 p11 p12 p13 p14 p15 p16 p17 p18 p19 p20 more,
    lms = [p0; p1; p2; p3; p4; p5; p6; p7; p8; p9; p10; p11; p12; p13; p14;
           p15; p16; p17; p18; p19; p20] ++ more.
Proof.
  intros H.
  do 21 (destruct lms as [|? lms]; [simpl in H; lia|]).
  repeat eexists.
Qed.

Lemma sqr_as_pow (a : R) : a * a = a ^ 2.
Proof. ring. Qed.

(** What the callback returns on a full hand, in closed form. *)
Lemma onResults_full_hand (lms : list Landmark.t) (others : list (list Landmark.t)) :
  (21 <= length lms)%nat ->
  onResults (mkResults (Some (lms :: others)))
  = Ok {| HandGesture.isFist := ltb (meanTipDistance lms) 0.25;
          HandGesture.isOpenPalm := gtb (meanTipDistance lms) 0.4;
          HandGesture.isPinching := ltb (pinchDistance lms) 0.05;
          HandGesture.handPosition :=
            Point2.mk (1 - Landmark.x (landmark lms MIDDLE_MCP))
                      (Landmark.y (landmark lms MIDDLE_MCP));
          HandGesture.rotation := Landmark.x (landmark lms WRIST) |}.
Proof.
  intros H. destruct (full_hand_inv lms H) as
    (p0 & p1 & p2 & p3 & p4 & p5 & p6 & p7 & p8 & p9 & p10 & p11 & p12 & p13
     & p14 & p15 & p16 & p17 & p18 & p19 & p20 & more & ->).
  unfold onResults, meanTipDistance, pinchDistance, euclid, landmark, tips.
  cbn [multiHandLandmarks tips_forEach lookup list_lookup prop Result_bind nth
       WRIST THUMB_TIP INDEX_TIP MIDDLE_MCP MIDDLE_TIP RING_TIP PINKY_TIP length
       app].
  rewrite !sqr_as_pow.
  replace (INR 4) with 4 by (simpl; lra).
  rewrite Rplus_0_l.
  reflexivity.
Qed.



(** C5: on a well-formed 21-point hand, [isFist] holds exactly when the
    mean wrist-to-fingertip distance is below 0.25, [isOpenPalm] exactly
    when it is above 0.4 (so neither holds on [0.25, 0.4]), and
    [isPinching] exactly when thumb tip and index tip are closer than
    0.05. *)
Theorem onResults_thresholds :
  forall (lms : list Landmark.t) (others : list (list Landmark.t)),
    length lms = 21%nat ->
    exists g : HandGesture.t,
      onResults (mkResults (Some (lms :: others))) = Ok g
      /\ (HandGesture.isFist g = true <-> meanTipDistance lms < 0.25)
      /\ (HandGesture.isOpenPalm g = true <-> meanTipDistance lms > 0.4)
      /\ (0.25 <= meanTipDistance lms <= 0.4 ->
          HandGesture.isFist g = false /\ HandGesture.isOpenPalm g = false)
      /\ (HandGesture.isPinching g = true <-> pinchDistance lms < 0.05).
Proof.
  intros lms others H.
  eexists. split; [apply onResults_full_hand; lia|].
  cbn [HandGesture.isFist HandGesture.isOpenPalm HandGesture.isPinching].
  split; [apply ltb_true|]. split; [apply gtb_true|]. split; [|apply ltb_true].
  intros [Hlo Hhi]. split.
  - destruct (ltb _ 0.25) eqn:E; [apply ltb_true in E; lra|reflexivity].
  - destruct (gtb _ 0.4) eqn:E; [apply gtb_true in E; lra|reflexivity].
Qed.

Lemma closed_hand_meanTipDistance : meanTipDistance closed_hand = 0.1.
Proof.
  unfold meanTipDistance, euclid, landmark, closed_hand.
  cbn [nth replicate WRIST INDEX_TIP MIDDLE_TIP RING_TIP PINKY_TIP
       Landmark.x Landmark.y].
  replace ((0.5 - 0.5) ^ 2 + (0.6 - 0.5) ^ 2) with (0.1 * 0.1) by lra.
  rewrite sqrt_square by lra. lra.
Qed.

Lemma onResults_thresholds_witness :
  length closed_hand = 21%nat
  /\ exists g : HandGesture.t,
       onResults (mkResults (Some [closed_hand])) = Ok g
       /\ HandGesture.isFist g = true
       /\ HandGesture.isOpenPalm g = false.
Proof.
  split; [reflexivity|].
  destruct (onResults_thresholds closed_hand [] eq_refl)
    as (g & Hg & Hfist & Hopen & _ & _).
  exists g. split; [exact Hg|]. split.
  - apply Hfist. rewrite closed_hand_meanTipDistance. lra.
  - destruct (HandGesture.isOpenPalm g); [|reflexivity].
    assert (meanTipDistance closed_hand > 0.4) as Hgt by (apply Hopen; reflexivity).
    rewrite closed_hand_meanTipDistance in Hgt. lra.
Defined.

(** C10: whatever the input, a signal the classifier returns never has
    [isFist] and [isOpenPalm] both set: the mean distance cannot be below
    0.25 and above 0.4 at once. *)
Theorem onResults_fist_open_exclusive :
  forall (results : Results) (g : HandGesture.t),
    onResults results = Ok g ->
    ~ (HandGesture.isFist g = true /\ HandGesture.isOpenPalm g = true).
Proof.
  intros [[[|lms others]|]] g Hg [Hfist Hopen].
  - cbn in Hg. injection Hg as <-. discriminate Hfist.
  - destruct (Nat.lt_ge_cases (length lms) 21) as [Hshort|Hfull].
    + rewrite (onResults_short_hand_throws lms others Hshort) in Hg. discriminate Hg.
    + rewrite (onResults_full_hand lms others Hfull) in Hg. injection Hg as <-.
      cbn in Hfist, Hopen.
      apply ltb_true in Hfist. apply gtb_true in Hopen. lra.
  - cbn in Hg. injection Hg as <-. discriminate Hfist.
Qed.

Lemma onResults_fist_open_exclusive_witness :
  exists g : HandGesture.t,
    onResults (mkResults (Some [closed_hand])) = Ok g
    /\ ~ (HandGesture.isFist g = true /\ HandGesture.isOpenPalm g = true).
Proof.
  eexists. split.
  - apply (onResults_full_hand closed_hand []). simpl. lia.
  - apply (onResults_fist_open_exclusive (mkResults (Some [closed_hand]))).
    apply (onResults_full_hand closed_hand []). simpl. lia.
Defined.

(** ** The heap primitives *)

Section primitives.
Import THREE.

Lemma get_run (w : World) (r : Ref) (v : Vector3) :
  heap w !! r = Some v -> get r w = Ok (v, w).
Proof. unfold get. intros ->. reflexivity. Qed.

Lemma put_run (w : World) (r : Ref) (v0 v : Vector3) :
  heap w !! r = Some v0 -> put r v w = Ok (tt, with_heap w (<[r := v]> (heap w))).
Proof. unfold put. intros ->. reflexivity. Qed.

Lemma bind_run {A B : Type} (m : M A) (k : A -> M B) (w w' : World) (a : A) :
  m w = Ok (a, w') -> bind m k w = k a w'.
Proof. unfold bind. intros ->. reflexivity. Qed.

Lemma clone_run (w : World) (r : Ref) (v : Vector3) :
  heap w !! r = Some v ->
  Vector3.clone r w = Ok (length (heap w), with_heap w (heap w ++ [v])).
Proof.
  intros H. unfold Vector3.clone.
  rewrite (bind_run _ _ _ _ _ (get_run w r v H)).
  destruct v; reflexivity.
Qed.

Lemma new_Vector3_run (w : World) (x0 y0 z0 : R) :
  new_Vector3 x0 y0 z0 w
  = Ok (length (heap w), with_heap w (heap w ++ [Vec3 x0 y0 z0])).
Proof. reflexivity. Qed.

Lemma add_run (w : World) (this v : Ref) (a b : Vector3) :
  heap w !! this = Some a -> heap w !! v = Some b ->
  Vector3.add this v w
  = Ok (this, with_heap w (<[this := Vector3.add_val a b]> (heap w))).
Proof.
  intros Ha Hb. unfold Vector3.add.
  rewrite (bind_run _ _ _ _ _ (get_run w this a Ha)).
  rewrite (bind_run _ _ _ _ _ (get_run w v b Hb)).
  rewrite (bind_run _ _ _ _ _ (put_run w this a _ Ha)).
  reflexivity.
Qed.

Lemma multiplyScalar_run (w : World) (this : Ref) (a : Vector3) (s : R) :
  heap w !! this = Some a ->
  Vector3.multiplyScalar this s w
  = Ok (this, with_heap w (<[this := Vector3.multiplyScalar_val a s]> (heap w))).
Proof.
  intros Ha. unfold Vector3.multiplyScalar.
  rewrite (bind_run _ _ _ _ _ (get_run w this a Ha)).
  rewrite (bind_run _ _ _ _ _ (put_run w this a _ Ha)).
  reflexivity.
Qed.

Lemma lerp_run (w : World) (this v : Ref) (a b : Vector3) (alpha : R) :
  heap w !! this = Some a -> heap w !! v = Some b ->
  Vector3.lerp this v alpha w
  = Ok (this, with_heap w (<[this := Vector3.lerp_val a b alpha]> (heap w))).
Proof.
  intros Ha Hb. unfold Vector3.lerp.
  rewrite (bind_run _ _ _ _ _ (get_run w this a Ha)).
  rewrite (bind_run _ _ _ _ _ (get_run w v b Hb)).
  rewrite (bind_run _ _ _ _ _ (put_run w this a _ Ha)).
  reflexivity.
Qed.

Lemma copy_run (w : World) (this v : Ref) (a b : Vector3) :
  heap w !! this = Some a -> heap w !! v = Some b ->
  Vector3.copy this v w = Ok (this, with_heap w (<[this := b]> (heap w))).
Proof.
  intros Ha Hb. unfold Vector3.copy.
  rewrite (bind_run _ _ _ _ _ (get_run w v b Hb)).
  rewrite (bind_run _ _ _ _ _ (put_run w this a _ Ha)).
  reflexivity.
Qed.

Lemma setScalar_run (w : World) (this : Ref) (a : Vector3) (s : R) :
  heap w !! this = Some a ->
  Vector3.setScalar this s w = Ok (this, with_heap w (<[this := Vec3 s s s]> (heap w))).
Proof.
  intros Ha. unfold Vector3.setScalar.
  rewrite (bind_run _ _ _ _ _ (get_run w this a Ha)).
  rewrite (bind_run _ _ _ _ _ (put_run w this a _ Ha)).
  reflexivity.
Qed.

End primitives.

(** ** The layout generator *)

Lemma lookup_heap_offset (h ext : list THREE.Vector3) (n k : nat) (v : THREE.Vector3) :
  (n = length h + k)%nat -> ext !! k = Some v -> (h ++ ext) !! n = Some v.
Proof.
  intros -> H. rewrite lookup_app_r by lia.
  replace (length h + k - length h)%nat with k by lia. exact H.
Qed.

(** Symbolic execution of straight-line code that only allocates. *)
Ltac solve_offset k :=
  eapply (lookup_heap_offset _ _ _ k);
  [rewrite ?length_app; cbn [length]; lia | reflexivity].

Ltac solve_lookup :=
  cbn [THREE.heap THREE.with_heap]; rewrite <- ?app_assoc; cbn [app];
  first [ solve_offset 0%nat | solve_offset 1%nat
        | solve_offset 2%nat | solve_offset 3%nat ].

Ltac run :=
  erewrite bind_run by (first [ apply clone_run; solve_lookup | reflexivity ]);
  cbn beta iota zeta;
  cbn [THREE.heap THREE.entropy THREE.drawn THREE.with_heap].

Section layout.
Import THREE.

(** One iteration on a photo index, in closed form: four vectors are
    allocated at the end of the heap (home, scatter, and a clone of each)
    and five random values are drawn. *)
Lemma generateTreeLayout_body_photo (count : nat) (photoUrls : list string)
    (i : nat) (w : World) :
  (i < length photoUrls)%nat ->
  let n := length (heap w) in
  let d := drawn w in
  let tree := treePos_at count i (entropy w d) in
  let expl := explodedPos_at (entropy w (S d)) (entropy w (S (S d))) in
  generateTreeLayout_body count photoUrls i w
  = Ok (ParticleData.mk i (S (S n)) (S (S (S n))) n (S n)
          (mkEuler (entropy w (S (S (S d))) * PI) (entropy w (S (S (S (S d)))) * PI) 0)
          1.5 WHITE PHOTO (photoUrls !! i),
        mkWorld (heap w ++ [tree; expl; expl; tree]) (entropy w)
                (S (S (S (S (S d)))))).
Proof.
  intros Hlt n d tree expl. unfold generateTreeLayout_body.
  apply Nat.ltb_lt in Hlt. rewrite Hlt.
  cbn beta iota zeta. repeat run.
  unfold ret. f_equal. f_equal.
  - f_equal; rewrite ?length_app; cbn [length]; lia.
  - rewrite <- !app_assoc. reflexivity.
Qed.

(** The kind and tint of an ornament, from the value drawn for it. *)
Lemma generateTreeLayout_body_ornament (count : nat) (photoUrls : list string)
    (i : nat) (w : World) :
  (length photoUrls <= i)%nat ->
  let n := length (heap w) in
  let d := drawn w in
  let tree := treePos_at count i (entropy w d) in
  let expl := explodedPos_at (entropy w (S d)) (entropy w (S (S d))) in
  let rand := entropy w (S (S (S d))) in
  let kind :=
    if gtb rand 0.9 then (CUBE, GOLD)
    else if gtb rand 0.7 then (SPHERE, RED)
    else if gtb rand 0.6 then (SPHERE, GOLD)
    else (SPHERE, GREEN) in
  generateTreeLayout_body count photoUrls i w
  = Ok (ParticleData.mk i (S (S n)) (S (S (S n))) n (S n)
          (mkEuler (entropy w (S (S (S (S d)))) * PI)
                   (entropy w (S (S (S (S (S d))))) * PI) 0)
          (entropy w (S (S (S (S (S (S d)))))) * 0.3 + 0.1)
          (snd kind) (fst kind) None,
        mkWorld (heap w ++ [tree; expl; expl; tree]) (entropy w)
                (S (S (S (S (S (S (S d)))))))).
Proof.
  intros Hge n d tree expl rand kind. unfold generateTreeLayout_body.
  apply Nat.ltb_ge in Hge. rewrite Hge.
  cbn beta iota zeta. repeat run. fold d rand. subst kind.
  destruct (gtb rand 0.9); [|destruct (gtb rand 0.7); [|destruct (gtb rand 0.6)]];
    cbn beta iota zeta; repeat run;
    unfold ret; (f_equal; f_equal;
                 [ f_equal; rewrite ?length_app; cbn [length]; lia
                 | rewrite <- !app_assoc; reflexivity ]).
Qed.

(** One iteration always returns, and its particle satisfies [generated]
    in the extended heap. *)
Lemma generateTreeLayout_body_run (count : nat) (photoUrls : list string)
    (i : nat) (w : World) :
  let tree := treePos_at count i (entropy w (drawn w)) in
  let expl := explodedPos_at (entropy w (S (drawn w))) (entropy w (S (S (drawn w)))) in
  exists (p : ParticleData.t) (w' : World),
    generateTreeLayout_body count photoUrls i w = Ok (p, w')
    /\ heap w' = heap w ++ [tree; expl; expl; tree]
    /\ entropy w' = entropy w
    /\ ParticleData.treePosition p = length (heap w)
    /\ ParticleData.explodedPosition p = S (length (heap w))
    /\ generated count photoUrls (heap w') i p.
Proof.
  intros tree expl.
  destruct (Nat.lt_ge_cases i (length photoUrls)) as [Hlt|Hge].
  - eexists _, _. split; [apply generateTreeLayout_body_photo; exact Hlt|].
    cbn [heap entropy ParticleData.treePosition ParticleData.explodedPosition].
    do 4 (split; [reflexivity|]).
    unfold generated.
    cbn [ParticleData.id ParticleData.type ParticleData.textureUrl
         ParticleData.color ParticleData.scale ParticleData.treePosition
         ParticleData.explodedPosition].
    pose proof Hlt as Hb. apply Nat.ltb_lt in Hb. rewrite Hb.
    split; [reflexivity|]. split; [tauto|]. split; [reflexivity|].
    split; [intros _; split; reflexivity|].
    exists (entropy w (drawn w)), (entropy w (S (drawn w))),
           (entropy w (S (S (drawn w)))).
    split; [solve_offset 0%nat | solve_offset 1%nat].
  - eexists _, _. split; [apply generateTreeLayout_body_ornament; exact Hge|].
    cbn [heap entropy ParticleData.treePosition ParticleData.explodedPosition].
    do 4 (split; [reflexivity|]).
    unfold generated.
    cbn [ParticleData.id ParticleData.type ParticleData.textureUrl
         ParticleData.color ParticleData.scale ParticleData.treePosition
         ParticleData.explodedPosition].
    pose proof Hge as Hb. apply Nat.ltb_ge in Hb. rewrite Hb.
    split; [reflexivity|]. split.
    { split; [|lia]. intros H. exfalso.
      repeat match type of H with
             | context [gtb ?a ?b] => destruct (gtb a b)
             end; discriminate H. }
    split; [reflexivity|]. split; [lia|].
    exists (entropy w (drawn w)), (entropy w (S (drawn w))),
           (entropy w (S (S (drawn w)))).
    split; [solve_offset 0%nat | solve_offset 1%nat].
Qed.

Lemma generated_mono (count : nat) (photoUrls : list string)
    (h ext : list Vector3) (i : nat) (p : ParticleData.t) :
  generated count photoUrls h i p -> generated count photoUrls (h ++ ext) i p.
Proof.
  intros (Hid & Hty & Hurl & Hphoto & r & rt & rp & Ht & He).
  repeat split; try tauto.
  exists r, rt, rp. split; apply lookup_app_l_Some; assumption.
Qed.

(** The loop pushes one particle per remaining index, in order, and only
    ever extends the heap. *)
Lemma generateTreeLayout_loop_run (count : nat) (photoUrls : list string) (todo : nat) :
  forall (i : nat) (particles : list ParticleData.t) (w : World),
  exists (pushed : list ParticleData.t) (w' : World),
    generateTreeLayout_loop todo count photoUrls i particles w
    = Ok (particles ++ pushed, w')
    /\ length pushed = todo
    /\ (exists ext, heap w' = heap w ++ ext)
    /\ entropy w' = entropy w
    /\ forall k p, pushed !! k = Some p ->
                   generated count photoUrls (heap w') (i + k) p.
Proof.
  induction todo as [|todo IH]; intros i particles w.
  - exists [], w. cbn [generateTreeLayout_loop]. rewrite app_nil_r.
    split; [reflexivity|]. split; [reflexivity|].
    split; [exists []; rewrite app_nil_r; reflexivity|].
    split; [reflexivity|]. intros k p H. inversion H.
  - destruct (generateTreeLayout_body_run count photoUrls i w)
      as (p & w1 & Hbody & Hheap1 & Hent1 & _ & _ & Hgen).
    destruct (IH (S i) (particles ++ [p]) w1)
      as (pushed & w' & Hloop & Hlen & [ext Hext] & Hent & Hall).
    exists (p :: pushed), w'. cbn [generateTreeLayout_loop].
    rewrite (bind_run _ _ _ _ _ Hbody), Hloop, <- app_assoc. cbn [app].
    split; [reflexivity|]. split; [cbn; lia|].
    split; [eexists; rewrite Hext, Hheap1, <- app_assoc; reflexivity|].
    split; [congruence|].
    intros [|k] q Hq.
    + cbn in Hq. injection Hq as <-. rewrite Nat.add_0_r, Hext.
      apply generated_mono, Hgen.
    + cbn in Hq. replace (i + S k)%nat with (S i + k)%nat by lia.
      apply Hall, Hq.
Qed.

(** The generator always returns, with [count] particles, and every
    particle satisfies [generated] at its index in the final heap. *)
Lemma generateTreeLayout_run (count : nat) (photoUrls : list string) (w : World) :
  exists (particles : list ParticleData.t) (w' : World),
    generateTreeLayout count photoUrls w = Ok (particles, w')
    /\ length particles = count
    /\ (exists ext, heap w' = heap w ++ ext)
    /\ forall i p, particles !! i = Some p ->
                   generated count photoUrls (heap w') i p.
Proof.
  destruct (generateTreeLayout_loop_run count photoUrls count 0%nat [] w)
    as (pushed & w' & Hrun & Hlen & Hext & _ & Hall).
  exists pushed, w'. unfold generateTreeLayout.
  split; [exact Hrun|]. split; [exact Hlen|]. split; [exact Hext|].
  intros i p H. apply (Hall i p H).
Qed.

Lemma ids_are_indices (count : nat) (photoUrls : list string) (h : list Vector3)
    (particles : list ParticleData.t) :
  (forall i p, particles !! i = Some p -> generated count photoUrls h i p) ->
  ParticleData.id <$> particles = seq 0 (length particles).
Proof.
  intros Hall. apply list_eq. intros i.
  rewrite list_lookup_fmap.
  destruct (particles !! i) as [p|] eqn:Hp.
  - cbn. destruct (Hall i p Hp) as [-> _].
    symmetry. apply lookup_seq. split; [reflexivity|].
    apply lookup_lt_Some in Hp. exact Hp.
  - cbn. symmetry. apply lookup_ge_None. rewrite length_seq.
    apply lookup_ge_None in Hp. exact Hp.
Qed.

(** C7: for every count and every list of photo handles the generator
    returns, with exactly [count] particles whose ids are [0 .. count-1] in
    order (hence pairwise distinct); none for [count = 0]; and the particle
    at index [i] is a [PHOTO] exactly when [i < photoUrls.length], in which
    case its [textureUrl] is the handle at index [i]. *)
Theorem generateTreeLayout_shape :
  forall (count : nat) (photoUrls : list string) (w : World),
  exists (particles : list ParticleData.t) (w' : World),
    generateTreeLayout count photoUrls w = Ok (particles, w')
    /\ length particles = count
    /\ ParticleData.id <$> particles = seq 0 count
    /\ NoDup (ParticleData.id <$> particles)
    /\ (count = 0%nat -> particles = [])
    /\ forall i p, particles !! i = Some p ->
         (ParticleData.type p = PHOTO <-> (i < length photoUrls)%nat)
         /\ (forall url, photoUrls !! i = Some url ->
                         ParticleData.textureUrl p = Some url)
         /\ ((length photoUrls <= i)%nat -> ParticleData.textureUrl p = None).
Proof.
  intros count photoUrls w.
  destruct (generateTreeLayout_run count photoUrls w)
    as (particles & w' & Hrun & Hlen & _ & Hall).
  exists particles, w'.
  pose proof (ids_are_indices _ _ _ _ Hall) as Hids. rewrite Hlen in Hids.
  split; [exact Hrun|]. split; [exact Hlen|]. split; [exact Hids|].
  split; [rewrite Hids; apply NoDup_seq|].
  split; [intros ->; destruct particles; [reflexivity|discriminate Hlen]|].
  intros i p Hp. destruct (Hall i p Hp) as (_ & Hty & Hurl & _).
  split; [exact Hty|]. split.
  - intros url Hu. rewrite Hurl.
    apply lookup_lt_Some in Hu as Hlt. apply Nat.ltb_lt in Hlt.
    rewrite Hlt. exact Hu.
  - intros Hge. rewrite Hurl. apply Nat.ltb_ge in Hge. rewrite Hge. reflexivity.
Qed.

(** Whatever was drawn for [theta] and [phi], the scatter point lies on
    the sphere of radius [explodeRadius]. *)
Lemma explodedPos_at_length (r_theta r_phi : R) :
  Vector3.length (explodedPos_at r_theta r_phi) = explodeRadius.
Proof.
  unfold Vector3.length, explodedPos_at, explodeRadius. cbn [x y z].
  set (theta := r_theta * PI * 2). set (phi := acos (r_phi * 2 - 1)).
  pose proof (sin2_cos2 theta) as Ht. pose proof (sin2_cos2 phi) as Hp.
  unfold Rsqr in Ht, Hp.
  replace (25 * sin phi * cos theta * (25 * sin phi * cos theta)
           + 25 * sin phi * sin theta * (25 * sin phi * sin theta)
           + 25 * cos phi * (25 * cos phi))
    with (25 * 25 * (sin phi * sin phi * (sin theta * sin theta + cos theta * cos theta)
                     + cos phi * cos phi)) by ring.
  rewrite Ht, Rmult_1_r, Hp, Rmult_1_r.
  apply sqrt_square. lra.
Qed.

(** C8: every particle the generator returns has its [explodedPosition]
    at distance exactly 25 from the origin, whatever values
    [Math.random()] returned. *)
Theorem generateTreeLayout_scatter_on_sphere :
  forall (count : nat) (photoUrls : list string) (w : World),
  exists (particles : list ParticleData.t) (w' : World),
    generateTreeLayout count photoUrls w = Ok (particles, w')
    /\ forall p, p ∈ particles ->
         exists v : Vector3,
           heap w' !! ParticleData.explodedPosition p = Some v
           /\ Vector3.length v = 25.
Proof.
  intros count photoUrls w.
  destruct (generateTreeLayout_run count photoUrls w)
    as (particles & w' & Hrun & _ & _ & Hall).
  exists particles, w'. split; [exact Hrun|].
  intros p Hin. apply list_elem_of_lookup in Hin as [i Hi].
  destruct (Hall i p Hi) as (_ & _ & _ & _ & r & rt & rp & _ & He).
  exists (explodedPos_at rt rp). split; [exact He|].
  apply explodedPos_at_length.
Qed.

(** The home position of the only particle of a one-particle layout. *)
Lemma treePos_at_single (r : R) :
  treePos_at 1 0 r = Vec3 (7 + r * 0.5) (-9) 0.
Proof.
  unfold treePos_at, height, bottomRadius. cbn [INR].
  rewrite Rmult_0_l, cos_0, sin_0. f_equal; lra.
Qed.

Lemma generateTreeLayout_single (url : string) (rnd : nat -> R) :
  exists (p : ParticleData.t) (w' : World),
    generateTreeLayout 1 [url] (mkWorld [] rnd 0) = Ok ([p], w')
    /\ ParticleData.type p = PHOTO
    /\ ParticleData.textureUrl p = Some url
    /\ heap w' !! ParticleData.treePosition p = Some (Vec3 (7 + rnd 0%nat * 0.5) (-9) 0)
    /\ heap w' !! ParticleData.explodedPosition p
       = Some (explodedPos_at (rnd 1%nat) (rnd 2%nat)).
Proof.
  destruct (generateTreeLayout_body_run 1 [url] 0 (mkWorld [] rnd 0))
    as (p & w' & Hbody & Hheap & _ & Htree & Hexpl & _ & Hty & Hurl & _).
  exists p, w'. unfold generateTreeLayout. cbn [generateTreeLayout_loop].
  rewrite (bind_run _ _ _ _ _ Hbody). cbn [app].
  split; [reflexivity|].
  split; [apply Hty; cbn; lia|]. split; [exact Hurl|].
  rewrite Htree, Hexpl, Hheap.
  cbn [heap entropy drawn length app lookup list_lookup].
  rewrite treePos_at_single. split; reflexivity.
Qed.

(** The depth of a scatter position, for a draw in [0, 1]. *)
Lemma explodedPos_at_z (r_theta r_phi : R) :
  0 <= r_phi <= 1 -> z (explodedPos_at r_theta r_phi) = 25 * (r_phi * 2 - 1).
Proof.
  intros H. unfold explodedPos_at, explodeRadius. cbn [z].
  rewrite cos_acos by lra. reflexivity.
Qed.

(** C9, refuted as stated: two invocations with the same count and the
    same single photo, one drawing 0 and the other 0.5 from
    [Math.random()] at every call, bind the photo to the same handle but
    place its home position at x = 7 and at x = 7.25, and its scatter
    position at depth -25 and at depth 0. *)
Lemma generateTreeLayout_media_positions_differ :
  exists (p1 p2 : ParticleData.t) (w1 w2 : World) (t1 t2 e1 e2 : Vector3),
    generateTreeLayout 1 ["a"%string] (mkWorld [] (fun _ => 0) 0) = Ok ([p1], w1)
    /\ generateTreeLayout 1 ["a"%string] (mkWorld [] (fun _ => 0.5) 0) = Ok ([p2], w2)
    /\ ParticleData.type p1 = PHOTO /\ ParticleData.type p2 = PHOTO
    /\ ParticleData.textureUrl p1 = ParticleData.textureUrl p2
    /\ heap w1 !! ParticleData.treePosition p1 = Some t1
    /\ heap w2 !! ParticleData.treePosition p2 = Some t2
    /\ heap w1 !! ParticleData.explodedPosition p1 = Some e1
    /\ heap w2 !! ParticleData.explodedPosition p2 = Some e2
    /\ x t1 = 7 /\ x t2 = 7.25 /\ t1 <> t2
    /\ z e1 = -25 /\ z e2 = 0 /\ e1 <> e2.
Proof.
  destruct (generateTreeLayout_single "a" (fun _ => 0))
    as (p1 & w1 & H1 & Hty1 & Hurl1 & Ht1 & He1).
  destruct (generateTreeLayout_single "a" (fun _ => 0.5))
    as (p2 & w2 & H2 & Hty2 & Hurl2 & Ht2 & He2).
  assert (z (explodedPos_at 0 0) = -25) as Hz1
    by (rewrite explodedPos_at_z by lra; lra).
  assert (z (explodedPos_at 0.5 0.5) = 0) as Hz2
    by (rewrite explodedPos_at_z by lra; lra).
  exists p1, p2, w1, w2. eexists _, _, _, _.
  split; [exact H1|]. split; [exact H2|]. split; [exact Hty1|]. split; [exact Hty2|].
  split; [congruence|].
  split; [exact Ht1|]. split; [exact Ht2|]. split; [exact He1|]. split; [exact He2|].
  cbn [x]. split; [lra|]. split; [lra|].
  split; [intros Heq; injection Heq as Hx; lra|].
  split; [exact Hz1|]. split; [exact Hz2|].
  intros Heq. rewrite Heq in Hz1. lra.
Qed.

(** The draws behind the photos: the photo of index [i] is placed with the
    values [Math.random()] returns at the calls [5 i], [5 i + 1] and
    [5 i + 2] of the invocation (five calls are made per photo). *)
Lemma generateTreeLayout_loop_draws (count : nat) (photoUrls : list string)
    (todo : nat) :
  forall (i : nat) (particles : list ParticleData.t) (w : World),
  exists (pushed : list ParticleData.t) (w' : World),
    generateTreeLayout_loop todo count photoUrls i particles w
    = Ok (particles ++ pushed, w')
    /\ (exists ext, heap w' = heap w ++ ext)
    /\ entropy w' = entropy w
    /\ (drawn w <= drawn w')%nat
    /\ forall k p, pushed !! k = Some p -> (i + k < length photoUrls)%nat ->
         let d := (drawn w + 5 * k)%nat in
         (d + 5 <= drawn w')%nat
         /\ heap w' !! ParticleData.treePosition p
            = Some (treePos_at count (i + k) (entropy w d))
         /\ heap w' !! ParticleData.explodedPosition p
            = Some (explodedPos_at (entropy w (S d)) (entropy w (S (S d)))).
Proof.
  induction todo as [|todo IH]; intros i particles w.
  - exists [], w. cbn [generateTreeLayout_loop]. rewrite app_nil_r.
    split; [reflexivity|]. split; [exists []; rewrite app_nil_r; reflexivity|].
    split; [reflexivity|]. split; [lia|]. intros k p H. inversion H.
  - destruct (Nat.lt_ge_cases i (length photoUrls)) as [Hlt|Hge].
    + pose proof (generateTreeLayout_body_photo count photoUrls i w Hlt) as Hbody.
      cbn zeta in Hbody.
      match type of Hbody with
      | _ = Ok (?p0, ?w0) =>
          destruct (IH (S i) (particles ++ [p0]) w0)
            as (pushed & w' & Hloop & [ext Hext] & Hent & Hdrawn & Hall);
          exists (p0 :: pushed), w'
      end.
      cbn [generateTreeLayout_loop].
      rewrite (bind_run _ _ _ _ _ Hbody), Hloop, <- app_assoc. cbn [app].
      cbn [heap entropy drawn] in Hext, Hent, Hdrawn, Hall.
      split; [reflexivity|].
      split; [eexists; rewrite Hext, <- app_assoc; reflexivity|].
      split; [exact Hent|]. split; [lia|].
      intros [|k] q Hq Hk; cbn zeta.
      * cbn in Hq. injection Hq as <-.
        cbn [ParticleData.treePosition ParticleData.explodedPosition].
        rewrite Nat.mul_0_r, !Nat.add_0_r, Hext.
        split; [lia|].
        split; apply lookup_app_l_Some;
          [solve_offset 0%nat | solve_offset 1%nat].
      * cbn in Hq.
        destruct (Hall k q Hq) as (Hd & Ht & He); [lia|].
        cbn zeta in Hd, Ht, He.
        replace (drawn w + 5 * S k)%nat
          with (S (S (S (S (S (drawn w))))) + 5 * k)%nat by lia.
        replace (i + S k)%nat with (S i + k)%nat by lia.
        split; [exact Hd|]. split; [exact Ht|exact He].
    + pose proof (generateTreeLayout_body_ornament count photoUrls i w Hge) as Hbody.
      cbn zeta in Hbody.
      match type of Hbody with
      | _ = Ok (?p0, ?w0) =>
          destruct (IH (S i) (particles ++ [p0]) w0)
            as (pushed & w' & Hloop & [ext Hext] & Hent & Hdrawn & Hall);
          exists (p0 :: pushed), w'
      end.
      cbn [generateTreeLayout_loop].
      rewrite (bind_run _ _ _ _ _ Hbody), Hloop, <- app_assoc. cbn [app].
      cbn [heap entropy drawn] in Hext, Hent, Hdrawn.
      split; [reflexivity|].
      split; [eexists; rewrite Hext, <- app_assoc; reflexivity|].
      split; [exact Hent|]. split; [lia|].
      intros k q _ Hk. lia.
Qed.

Lemma jitter_inj (cA sA B r1 r2 : R) :
  sA * sA + cA * cA = 1 ->
  cA * (B + r1 * 0.5) = cA * (B + r2 * 0.5) ->
  sA * (B + r1 * 0.5) = sA * (B + r2 * 0.5) ->
  r1 = r2.
Proof.
  intros Hsc Hx Hz.
  assert (cA * (r1 - r2) = 0) as Hc by lra.
  assert (sA * (r1 - r2) = 0) as Hs by lra.
  assert ((r1 - r2) * (sA * sA + cA * cA) = 0) as H0.
  { replace ((r1 - r2) * (sA * sA + cA * cA))
      with (sA * (sA * (r1 - r2)) + cA * (cA * (r1 - r2))) by ring.
    rewrite Hc, Hs. ring. }
  rewrite Hsc in H0. lra.
Qed.

(** Two home positions of the same index coincide exactly when the jitter
    values drawn for them do. *)
Lemma treePos_at_inj (count i : nat) (r1 r2 : R) :
  treePos_at count i r1 = treePos_at count i r2 <-> r1 = r2.
Proof.
  split; [|intros ->; reflexivity].
  unfold treePos_at. intros H. injection H as Hx Hz.
  pose proof (sin2_cos2 (INR i * goldenAngle)) as Hsc. unfold Rsqr in Hsc.
  exact (jitter_inj _ _ _ r1 r2 Hsc Hx Hz).
Qed.

(** C9 (as the code has it): two invocations with the same count and the
    same photo handles agree, index by index, on which particles are
    photos and on the handle each photo is bound to (and on ids, tint and
    scale of the photos, and on the height of every home position).  The
    positions of a photo are computed afresh by each invocation from three
    values it draws itself from [Math.random()] (its calls number [5 i],
    [5 i + 1] and [5 i + 2] for the photo of index [i]): the jitter of the
    home position and the two angles of the scatter position.  So the home
    positions of a photo in the two results coincide exactly when the two
    jitter draws do, and the scatter positions coincide when the two pairs
    of angle draws do. *)
Theorem generateTreeLayout_media_binding_stable :
  forall (count : nat) (photoUrls : list string) (w1 w2 : World),
  exists (ps1 ps2 : list ParticleData.t) (w1' w2' : World),
    generateTreeLayout count photoUrls w1 = Ok (ps1, w1')
    /\ generateTreeLayout count photoUrls w2 = Ok (ps2, w2')
    /\ length ps1 = length ps2
    /\ ParticleData.textureUrl <$> ps1 = ParticleData.textureUrl <$> ps2
    /\ forall i p1 p2, ps1 !! i = Some p1 -> ps2 !! i = Some p2 ->
         ParticleData.id p1 = ParticleData.id p2
         /\ (ParticleData.type p1 = PHOTO <-> ParticleData.type p2 = PHOTO)
         /\ (ParticleData.type p1 = PHOTO ->
             ParticleData.textureUrl p1 = photoUrls !! i
             /\ ParticleData.textureUrl p2 = photoUrls !! i
             /\ ParticleData.color p1 = ParticleData.color p2
             /\ ParticleData.scale p1 = ParticleData.scale p2)
         /\ (exists t1 t2 : Vector3,
               heap w1' !! ParticleData.treePosition p1 = Some t1
               /\ heap w2' !! ParticleData.treePosition p2 = Some t2
               /\ y t1 = y t2)
         /\ (ParticleData.type p1 = PHOTO ->
             let d1 := (drawn w1 + 5 * i)%nat in
             let d2 := (drawn w2 + 5 * i)%nat in
             let t1 := treePos_at count i (entropy w1 d1) in
             let t2 := treePos_at count i (entropy w2 d2) in
             let e1 := explodedPos_at (entropy w1 (S d1)) (entropy w1 (S (S d1))) in
             let e2 := explodedPos_at (entropy w2 (S d2)) (entropy w2 (S (S d2))) in
             (d1 + 5 <= drawn w1')%nat /\ (d2 + 5 <= drawn w2')%nat
             /\ heap w1' !! ParticleData.treePosition p1 = Some t1
             /\ heap w2' !! ParticleData.treePosition p2 = Some t2
             /\ heap w1' !! ParticleData.explodedPosition p1 = Some e1
             /\ heap w2' !! ParticleData.explodedPosition p2 = Some e2
             /\ (t1 = t2 <-> entropy w1 d1 = entropy w2 d2)
             /\ (entropy w1 (S d1) = entropy w2 (S d2) ->
                 entropy w1 (S (S d1)) = entropy w2 (S (S d2)) -> e1 = e2)).
Proof.
  intros count photoUrls w1 w2.
  destruct (generateTreeLayout_run count photoUrls w1)
    as (ps1 & w1' & Hrun1 & Hlen1 & _ & Hall1).
  destruct (generateTreeLayout_run count photoUrls w2)
    as (ps2 & w2' & Hrun2 & Hlen2 & _ & Hall2).
  destruct (generateTreeLayout_loop_draws count photoUrls count 0%nat [] w1)
    as (qs1 & v1 & Hd1 & _ & _ & _ & Hdraws1).
  destruct (generateTreeLayout_loop_draws count photoUrls count 0%nat [] w2)
    as (qs2 & v2 & Hd2 & _ & _ & _ & Hdraws2).
  unfold generateTreeLayout in Hrun1, Hrun2.
  rewrite Hrun1 in Hd1. rewrite Hrun2 in Hd2.
  cbn [app] in Hd1, Hd2. injection Hd1 as <- <-. injection Hd2 as <- <-.
  exists ps1, ps2, w1', w2'.
  split; [exact Hrun1|]. split; [exact Hrun2|]. split; [congruence|].
  split.
  - apply list_eq. intros i. rewrite !list_lookup_fmap.
    destruct (ps1 !! i) as [p1|] eqn:H1; destruct (ps2 !! i) as [p2|] eqn:H2; cbn.
    + destruct (Hall1 i p1 H1) as (_ & _ & -> & _).
      destruct (Hall2 i p2 H2) as (_ & _ & -> & _). reflexivity.
    + apply lookup_lt_Some in H1. apply lookup_ge_None in H2. lia.
    + apply lookup_ge_None in H1. apply lookup_lt_Some in H2. lia.
    + reflexivity.
  - intros i p1 p2 H1 H2.
    destruct (Hall1 i p1 H1) as (Hid1 & Hty1 & Hurl1 & Hph1 & r1 & ? & ? & Ht1 & _).
    destruct (Hall2 i p2 H2) as (Hid2 & Hty2 & Hurl2 & Hph2 & r2 & ? & ? & Ht2 & _).
    split; [congruence|]. split; [tauto|]. split; [|split].
    + intros Hphoto. apply Hty1 in Hphoto.
      destruct (Hph1 Hphoto) as [-> ->]. destruct (Hph2 Hphoto) as [-> ->].
      apply Nat.ltb_lt in Hphoto. rewrite Hphoto in Hurl1, Hurl2.
      repeat split; assumption.
    + exists (treePos_at count i r1), (treePos_at count i r2).
      split; [exact Ht1|]. split; [exact Ht2|]. reflexivity.
    + intros Hphoto. apply Hty1 in Hphoto. cbn zeta.
      destruct (Hdraws1 i p1 H1 Hphoto) as (Hb1 & Hp1 & He1).
      destruct (Hdraws2 i p2 H2 Hphoto) as (Hb2 & Hp2 & He2).
      cbn zeta in Hb1, Hp1, He1, Hb2, Hp2, He2.
      split; [exact Hb1|]. split; [exact Hb2|].
      split; [exact Hp1|]. split; [exact Hp2|].
      split; [exact He1|]. split; [exact He2|].
      split; [apply treePos_at_inj|].
      intros -> ->. reflexivity.
Qed.

Lemma generateTreeLayout_media_binding_stable_witness :
  exists (p1 p2 : ParticleData.t) (w1' w2' : World),
    generateTreeLayout 1 ["a"%string] (mkWorld [] (fun _ => 0) 0) = Ok ([p1], w1')
    /\ generateTreeLayout 1 ["a"%string] (mkWorld [] (fun _ => 0.5) 0) = Ok ([p2], w2')
    /\ ParticleData.textureUrl p1 = Some "a"%string
    /\ ParticleData.textureUrl p2 = Some "a"%string
    /\ (5 <= drawn w1')%nat /\ (5 <= drawn w2')%nat
    /\ heap w1' !! ParticleData.treePosition p1 = Some (treePos_at 1 0 0)
    /\ heap w2' !! ParticleData.treePosition p2 = Some (treePos_at 1 0 0.5)
    /\ heap w1' !! ParticleData.explodedPosition p1 = Some (explodedPos_at 0 0)
    /\ heap w2' !! ParticleData.explodedPosition p2 = Some (explodedPos_at 0.5 0.5)
    /\ (treePos_at 1 0 0 = treePos_at 1 0 0.5 <-> (0 : R) = 0.5).
Proof.
  destruct (generateTreeLayout_media_binding_stable 1 ["a"%string]
              (mkWorld [] (fun _ => 0) 0) (mkWorld [] (fun _ => 0.5) 0))
    as (ps1 & ps2 & w1' & w2' & H1 & H2 & _ & _ & Hall).
  destruct (generateTreeLayout_single "a" (fun _ => 0)) as (p1 & v1 & G1 & Hty1 & _).
  destruct (generateTreeLayout_single "a" (fun _ => 0.5)) as (p2 & v2 & G2 & _).
  rewrite G1 in H1. injection H1 as <- <-.
  rewrite G2 in H2. injection H2 as <- <-.
  destruct (Hall 0%nat p1 p2 eq_refl eq_refl) as (_ & _ & Hattr & _ & Hphoto).
  destruct (Hattr Hty1) as (Hurl1 & Hurl2 & _).
  destruct (Hphoto Hty1) as (Hd1 & Hd2 & Ht1 & Ht2 & He1 & He2 & Hiff & _).
  exists p1, p2, v1, v2.
  split; [exact G1|]. split; [exact G2|].
  split; [exact Hurl1|]. split; [exact Hurl2|].
  split; [exact Hd1|]. split; [exact Hd2|].
  split; [exact Ht1|]. split; [exact Ht2|].
  split; [exact He1|]. split; [exact He2|]. exact Hiff.
Defined.

End layout.

(** ** The animators *)

Lemma lookup_snoc_here {A : Type} (l : list A) (a : A) : (l ++ [a]) !! length l = Some a.
Proof. apply list_lookup_middle. reflexivity. Qed.

Ltac len_solve :=
  repeat first [rewrite length_insert | rewrite length_app]; cbn [length]; lia.

(** Reading a cell of a heap built from inserts and allocations. *)
Ltac heap_lookup :=
  cbn [THREE.heap THREE.with_heap];
  lazymatch goal with
  | |- <[?r := _]> _ !! ?r = _ =>
      rewrite list_lookup_insert_eq by len_solve; reflexivity
  | |- <[_ := _]> _ !! _ = _ =>
      rewrite list_lookup_insert_ne
        by (first [assumption | apply not_eq_sym; assumption | len_solve]);
      heap_lookup
  | |- (_ ++ _) !! _ = _ =>
      first [ solve [apply lookup_app_l_Some; heap_lookup]
            | solve [apply list_lookup_middle; len_solve] ]
  | |- _ => eassumption
  end.

Section animator.
Import THREE.

(** *** Mounting a group establishes its well-formedness *)

Lemma clone_positions_run (data : list ParticleData.t) :
  forall w : World,
    (forall p, p ∈ data -> (ParticleData.position p < length (heap w))%nat) ->
    exists w' : World,
      ParticleGroup.clone_positions data w
      = Ok (seq (length (heap w)) (length data), w')
      /\ length (heap w') = (length (heap w) + length data)%nat.
Proof.
  induction data as [|p rest IH]; intros w Hvalid.
  - exists w. cbn. split; [reflexivity|lia].
  - assert (ParticleData.position p < length (heap w))%nat as Lp
      by (apply Hvalid; left).
    destruct (lookup_lt_is_Some_2 _ _ Lp) as [v Hv].
    destruct (IH (with_heap w (heap w ++ [v]))) as (w' & Hrun & Hlen).
    { intros q Hq. cbn [heap with_heap]. rewrite length_app. cbn [length].
      assert (ParticleData.position q < length (heap w))%nat
        by (apply Hvalid; right; exact Hq).
      lia. }
    exists w'. cbn [ParticleGroup.clone_positions].
    rewrite (bind_run _ _ _ _ _ (clone_run w _ v Hv)).
    rewrite (bind_run _ _ _ _ _ Hrun).
    cbn [heap with_heap] in *. rewrite length_app in *. cbn [length] in *.
    rewrite Nat.add_1_r. split; [reflexivity|lia].
Qed.

Lemma ParticleGroup_mount_wf (data : list ParticleData.t) (w : World) :
  (forall p, p ∈ data ->
     (ParticleData.position p < length (heap w))%nat
     /\ (ParticleData.treePosition p < length (heap w))%nat
     /\ (ParticleData.explodedPosition p < length (heap w))%nat) ->
  exists (g : ParticleGroup.t) (w' : World),
    ParticleGroup.mount data w = Ok (g, w')
    /\ ParticleGroup_wf data g (heap w').
Proof.
  intros Hvalid. unfold ParticleGroup.mount.
  erewrite bind_run by apply new_Vector3_run.
  erewrite bind_run by apply new_Vector3_run.
  cbn [heap with_heap].
  destruct (clone_positions_run data
              (with_heap (with_heap w (heap w ++ [Vec3 0 0 0]))
                         ((heap w ++ [Vec3 0 0 0]) ++ [Vec3 1 1 1])))
    as (w' & Hrun & Hlen).
  { intros p Hp. destruct (Hvalid p Hp) as (Lp & _ & _).
    cbn [heap with_heap]. rewrite !length_app. cbn [length]. lia. }
  cbn [heap with_heap] in Hrun, Hlen. rewrite !length_app in Hrun, Hlen.
  cbn [length] in Hrun, Hlen.
  rewrite (bind_run _ _ _ _ _ Hrun).
  eexists _, w'. split; [reflexivity|].
  unfold ParticleGroup_wf.
  cbn [ParticleGroup.currentPositions ParticleGroup.dummy ParticleGroup.meshRef
       Object3D.position Object3D.scale].
  rewrite length_app. cbn [length].
  split; [eexists; reflexivity|]. split; [apply length_seq|].
  split; [apply NoDup_seq|]. split.
  { intros c Hc. apply elem_of_seq in Hc. lia. }
  split; [lia|]. split; [lia|]. split; [lia|].
  split; intros p Hp; destruct (Hvalid p Hp) as (_ & Lt & Le); cbn zeta;
    (split; [lia|]); (split; [|lia]);
    intros Hin; apply elem_of_seq in Hin; lia.
Qed.

(** *** Example scenes *)

Lemma explodedPos_at_example : explodedPos_at 0 0.5 = Vec3 25 0 0.
Proof.
  unfold explodedPos_at, explodeRadius.
  replace (0.5 * 2 - 1) with 0 by lra.
  replace (0 * PI * 2) with 0 by lra.
  rewrite acos_0, sin_PI2, cos_PI2, cos_0, sin_0. f_equal; lra.
Qed.

Lemma treePos_at_example : treePos_at 1 0 0 = Vec3 7 (-9) 0.
Proof. rewrite treePos_at_single. f_equal; lra. Qed.

(** The example scenes are what the code builds on the example canvas. *)
Lemma photo0_is_generated :
  photoParticles ["a"%string] canvas0 = Ok ([photo0], photo_layout0).
Proof.
  unfold photoParticles, generateTreeLayout.
  cbn [length Nat.eqb generateTreeLayout_loop].
  erewrite bind_run; cycle 1.
  { erewrite bind_run by (apply generateTreeLayout_body_photo; cbn; lia).
    reflexivity. }
  unfold ret, canvas0, photo0, photo_layout0.
  cbn [app imap heap entropy drawn length entropy0 Nat.eqb lookup list_lookup
       ParticleData.position ParticleData.targetPosition ParticleData.treePosition
       ParticleData.explodedPosition ParticleData.rotation ParticleData.color
       ParticleData.textureUrl].
  rewrite treePos_at_example, explodedPos_at_example, !Rmult_0_l.
  reflexivity.
Qed.

Lemma mesh0_is_mounted : SinglePhoto.mount photo0 photo_layout0 = Ok (mesh0, scene0).
Proof. reflexivity. Qed.

Lemma gtb_0_false (b : R) : 0 < b -> gtb 0 b = false.
Proof.
  intros H. destruct (gtb 0 b) eqn:E; [|reflexivity].
  apply gtb_true in E. lra.
Qed.

Lemma ornament0_is_generated :
  generateTreeLayout 1 [] canvas0 = Ok ([ornament0], layout0).
Proof.
  unfold generateTreeLayout. cbn [generateTreeLayout_loop].
  erewrite bind_run by (apply generateTreeLayout_body_ornament; cbn; lia).
  unfold ret, canvas0, ornament0, layout0.
  cbn [app heap entropy drawn length entropy0 Nat.eqb].
  rewrite !gtb_0_false by lra. cbn [fst snd].
  rewrite treePos_at_example, explodedPos_at_example, !Rmult_0_l.
  replace (0 + 0.1) with 0.1 by lra.
  reflexivity.
Qed.

Lemma group0_is_mounted :
  ParticleGroup.mount [ornament0] layout0 = Ok (group0, group_scene0).
Proof. reflexivity. Qed.

Lemma group0_wf : ParticleGroup_wf [ornament0] group0 (heap group_scene0).
Proof.
  unfold ParticleGroup_wf, group0, group_scene0.
  cbn [ParticleGroup.currentPositions ParticleGroup.dummy ParticleGroup.meshRef
       Object3D.position Object3D.scale heap length].
  split; [eexists; reflexivity|]. split; [reflexivity|].
  split; [apply NoDup_singleton|].
  split; [intros c Hc; apply list_elem_of_singleton in Hc as ->; lia|].
  split; [lia|]. split; [lia|]. split; [lia|].
  split; intros p Hp; apply list_elem_of_singleton in Hp as ->;
    cbn [ornament0 ParticleData.treePosition ParticleData.explodedPosition];
    (split; [lia|]); (split; [|lia]);
    intros H; apply list_elem_of_singleton in H; lia.
Qed.

(** *** The photo animator in [EXPLODED] mode *)

Lemma SinglePhoto_useFrame_EXPLODED (particle : ParticleData.t) (mesh : Mesh.t)
    (state : RootState.t) (delta : R) (w : World) (e mp ms : Vector3) :
  let ep := ParticleData.explodedPosition particle in
  let noise := Vec3 0 (sin (RootState.elapsedTime state
                            + INR (ParticleData.id particle)) * 0.5) 0 in
  heap w !! ep = Some e ->
  heap w !! Mesh.position mesh = Some mp ->
  heap w !! Mesh.scale mesh = Some ms ->
  Mesh.position mesh <> ep -> Mesh.scale mesh <> ep ->
  Mesh.position mesh <> Mesh.scale mesh ->
  exists w' : World,
    SinglePhoto.useFrame particle EXPLODED (Some mesh) state delta w
    = Ok (Some (Mesh.lookAt mesh (Vec3 0 0 30)), w')
    /\ heap w' !! ep = Some (Vector3.add_val e noise)
    /\ heap w' !! Mesh.position mesh
       = Some (Vector3.lerp_val mp (Vector3.add_val e noise) (delta * 3))
    /\ heap w' !! Mesh.scale mesh
       = Some (Vector3.lerp_val ms (Vec3 1.5 1.5 1.5) (delta * 2))
    /\ forall (r : Ref) (v : Vector3),
         r <> ep -> r <> Mesh.position mesh -> r <> Mesh.scale mesh ->
         heap w !! r = Some v -> heap w' !! r = Some v.
Proof.
  intros ep noise He Hmp Hms Hne1 Hne2 Hne3.
  pose proof (lookup_lt_Some _ _ _ He) as Le.
  pose proof (lookup_lt_Some _ _ _ Hmp) as Lmp.
  pose proof (lookup_lt_Some _ _ _ Hms) as Lms.
  subst ep. unfold SinglePhoto.useFrame.
  erewrite bind_run; cycle 1.
  { erewrite bind_run by apply new_Vector3_run. fold noise.
    erewrite bind_run by (apply (add_run _ _ _ e noise); heap_lookup).
    reflexivity. }
  cbn beta iota zeta.
  erewrite bind_run
    by (apply (lerp_run _ _ _ mp (Vector3.add_val e noise)); heap_lookup).
  erewrite bind_run by apply new_Vector3_run.
  erewrite bind_run
    by (apply (lerp_run _ _ _ ms (Vec3 1.5 1.5 1.5)); heap_lookup).
  erewrite bind_run by reflexivity.
  eexists. split; [reflexivity|].
  split; [heap_lookup|]. split; [heap_lookup|]. split; [heap_lookup|].
  intros r v Hr1 Hr2 Hr3 Hr.
  pose proof (lookup_lt_Some _ _ _ Hr) as Lr. heap_lookup.
Qed.

Lemma INR_10000 : INR 10000 = 10000.
Proof. rewrite INR_IZR_INZ. reflexivity. Qed.

Lemma frame0_phase :
  sin (RootState.elapsedTime frame0 + INR (ParticleData.id photo0)) = 1.
Proof.
  cbn [frame0 photo0 RootState.elapsedTime ParticleData.id].
  rewrite INR_10000.
  assert (INR 2000 = 2000) as H2000 by (rewrite INR_IZR_INZ; reflexivity).
  replace (4000 * PI + PI / 2 - 10000 + 10000) with (PI / 2 + 2 * INR 2000 * PI)
    by (rewrite H2000; lra).
  rewrite sin_period. apply sin_PI2.
Qed.

Lemma frame0_elapsed_nonneg : 0 <= RootState.elapsedTime frame0.
Proof.
  cbn [frame0 RootState.elapsedTime]. pose proof PI2_3_2. lra.
Qed.

(** C3, evaluated on the code: one [EXPLODED] frame of a photo's animator
    changes the particle's stored [explodedPosition] from (25, 0, 0) to
    (25, 0.5, 0): [target.add(...)] is applied to the stored vector itself,
    not to a clone of it. The stored [treePosition] is left as it was. *)
Theorem SinglePhoto_useFrame_mutates_explodedPosition :
  exists w' : World,
    SinglePhoto.useFrame photo0 EXPLODED (Some mesh0) frame0 (1 / 60) scene0
    = Ok (Some (Mesh.lookAt mesh0 (Vec3 0 0 30)), w')
    /\ heap scene0 !! ParticleData.explodedPosition photo0 = Some (Vec3 25 0 0)
    /\ heap w' !! ParticleData.explodedPosition photo0 = Some (Vec3 25 0.5 0)
    /\ heap w' !! ParticleData.treePosition photo0
       = heap scene0 !! ParticleData.treePosition photo0.
Proof.
  destruct (SinglePhoto_useFrame_EXPLODED photo0 mesh0 frame0 (1 / 60) scene0
              (Vec3 25 0 0) (Vec3 7 (-9) 0) (Vec3 1 1 1))
    as (w' & Hrun & Hexp & _ & _ & Hframe); try reflexivity; try (cbn; lia).
  exists w'. split; [exact Hrun|]. split; [reflexivity|]. split.
  - rewrite Hexp, frame0_phase. unfold Vector3.add_val. cbn [x y z].
    f_equal. f_equal; lra.
  - apply Hframe; try reflexivity; cbn; lia.
Qed.

(** *** Interpolation towards a fixed target, on values *)

Lemma lerp_val_offset (c t : Vector3) (a : R) :
  x (Vector3.lerp_val c t a) - x t = (1 - a) * (x c - x t)
  /\ y (Vector3.lerp_val c t a) - y t = (1 - a) * (y c - y t)
  /\ z (Vector3.lerp_val c t a) - z t = (1 - a) * (z c - z t).
Proof. unfold Vector3.lerp_val; cbn [x y z]. repeat split; ring. Qed.

Lemma lerp_val_distance (c t : Vector3) (a : R) :
  Vector3.distance (Vector3.lerp_val c t a) t = Rabs (1 - a) * Vector3.distance c t.
Proof.
  unfold Vector3.distance.
  destruct (lerp_val_offset c t a) as (-> & -> & ->).
  replace ((1 - a) * (x c - x t) * ((1 - a) * (x c - x t))
           + (1 - a) * (y c - y t) * ((1 - a) * (y c - y t))
           + (1 - a) * (z c - z t) * ((1 - a) * (z c - z t)))
    with (Rsqr (1 - a) * ((x c - x t) * (x c - x t) + (y c - y t) * (y c - y t)
                          + (z c - z t) * (z c - z t)))
    by (unfold Rsqr; ring).
  rewrite sqrt_mult_alt by apply Rle_0_sqr.
  rewrite sqrt_Rsqr_abs. reflexivity.
Qed.

Lemma distance_nonneg (c t : Vector3) : 0 <= Vector3.distance c t.
Proof. apply sqrt_pos. Qed.

Lemma sum_sqr_nonneg (a b c : R) : 0 <= a * a + b * b + c * c.
Proof.
  pose proof (Rle_0_sqr a). pose proof (Rle_0_sqr b). pose proof (Rle_0_sqr c).
  unfold Rsqr in *. lra.
Qed.

Lemma distance_zero (c t : Vector3) : Vector3.distance c t = 0 <-> c = t.
Proof.
  unfold Vector3.distance. split.
  - intros H. apply sqrt_eq_0 in H; [|apply sum_sqr_nonneg].
    destruct c as [cx cy cz], t as [tx ty tz]. cbn [x y z] in H.
    pose proof (Rle_0_sqr (cx - tx)) as Hx.
    pose proof (Rle_0_sqr (cy - ty)) as Hy.
    pose proof (Rle_0_sqr (cz - tz)) as Hz.
    unfold Rsqr in Hx, Hy, Hz.
    assert (cx - tx = 0) by (apply Rsqr_0_uniq; unfold Rsqr; lra).
    assert (cy - ty = 0) by (apply Rsqr_0_uniq; unfold Rsqr; lra).
    assert (cz - tz = 0) by (apply Rsqr_0_uniq; unfold Rsqr; lra).
    f_equal; lra.
  - intros ->.
    replace ((x t - x t) * (x t - x t) + (y t - y t) * (y t - y t)
             + (z t - z t) * (z t - z t)) with 0 by ring.
    apply sqrt_0.
Qed.

Lemma lerp_iter_S (n : nat) (c t : Vector3) (a : R) :
  lerp_iter (S n) c t a = Vector3.lerp_val (lerp_iter n c t a) t a.
Proof. reflexivity. Qed.

Lemma lerp_iter_distance (n : nat) (c t : Vector3) (a : R) :
  Vector3.distance (lerp_iter n c t a) t = Rabs (1 - a) ^ n * Vector3.distance c t.
Proof.
  induction n as [|n IH].
  - cbn. lra.
  - rewrite lerp_iter_S, lerp_val_distance, IH. cbn [pow]. ring.
Qed.

(** The offset from the target after [n] updates is the initial offset
    scaled by [(1 - alpha)^n]. *)
Lemma lerp_iter_offset (n : nat) (c t : Vector3) (a : R) :
  x (lerp_iter n c t a) - x t = (1 - a) ^ n * (x c - x t)
  /\ y (lerp_iter n c t a) - y t = (1 - a) ^ n * (y c - y t)
  /\ z (lerp_iter n c t a) - z t = (1 - a) ^ n * (z c - z t).
Proof.
  induction n as [|n (IHx & IHy & IHz)].
  - cbn. repeat split; ring.
  - rewrite lerp_iter_S.
    destruct (lerp_val_offset (lerp_iter n c t a) t a) as (-> & -> & ->).
    rewrite IHx, IHy, IHz. cbn [pow]. repeat split; ring.
Qed.

(** With a factor strictly between 0 and 1 the distance to the target
    shrinks strictly at every update, is never zero after finitely many
    updates unless it was zero before, and tends to zero. *)
Lemma lerp_iter_converges (c t : Vector3) (a : R) :
  0 < a < 1 ->
  (forall n, Vector3.distance (lerp_iter n c t a) t
             = (1 - a) ^ n * Vector3.distance c t)
  /\ (forall n, c <> t ->
        lerp_iter n c t a <> t
        /\ Vector3.distance (lerp_iter (S n) c t a) t
           < Vector3.distance (lerp_iter n c t a) t)
  /\ (forall eps, 0 < eps ->
        exists N, forall n, (N <= n)%nat ->
          Vector3.distance (lerp_iter n c t a) t < eps).
Proof.
  intros Ha.
  assert (Habs : Rabs (1 - a) = 1 - a) by (apply Rabs_pos_eq; lra).
  assert (Hd : forall n, Vector3.distance (lerp_iter n c t a) t
                         = (1 - a) ^ n * Vector3.distance c t).
  { intros n. rewrite lerp_iter_distance, Habs. reflexivity. }
  assert (Hpow : forall n, 0 < (1 - a) ^ n) by (intros n; apply pow_lt; lra).
  split; [exact Hd|]. split.
  - intros n Hne.
    assert (0 < Vector3.distance c t) as Hpos.
    { destruct (distance_nonneg c t) as [H|H]; [exact H|].
      symmetry in H. apply distance_zero in H. contradiction. }
    split.
    + intros Heq. apply distance_zero in Heq. rewrite Hd in Heq.
      specialize (Hpow n). nra.
    + rewrite !Hd. cbn [pow]. rewrite Rmult_assoc.
      assert (0 < (1 - a) ^ n * Vector3.distance c t) as Hq
        by (apply Rmult_lt_0_compat; [apply Hpow|exact Hpos]).
      assert (0 < a * ((1 - a) ^ n * Vector3.distance c t))
        by (apply Rmult_lt_0_compat; [lra|exact Hq]).
      lra.
  - intros eps Heps.
    destruct (distance_nonneg c t) as [Hpos|Hzero].
    + destruct (pow_lt_1_zero (1 - a) ltac:(rewrite Habs; lra)
                  (eps / Vector3.distance c t)
                  ltac:(apply Rdiv_lt_0_compat; assumption)) as [N HN].
      exists N. intros n Hn. rewrite Hd.
      specialize (HN n Hn). rewrite Rabs_pos_eq in HN by (apply Rlt_le, Hpow).
      apply (Rmult_lt_compat_r _ _ _ Hpos) in HN.
      unfold Rdiv in HN. rewrite Rmult_assoc, Rinv_l, Rmult_1_r in HN by lra.
      exact HN.
    + exists 0%nat. intros n _. rewrite Hd, <- Hzero. lra.
Qed.

(** *** The photo animator in [TREE] mode *)

Lemma SinglePhoto_useFrame_TREE (particle : ParticleData.t) (mesh : Mesh.t)
    (state : RootState.t) (delta : R) (w : World) (t mp ms : Vector3) :
  heap w !! ParticleData.treePosition particle = Some t ->
  heap w !! Mesh.position mesh = Some mp ->
  heap w !! Mesh.scale mesh = Some ms ->
  Mesh.position mesh <> ParticleData.treePosition particle ->
  Mesh.scale mesh <> ParticleData.treePosition particle ->
  Mesh.position mesh <> Mesh.scale mesh ->
  exists w' : World,
    SinglePhoto.useFrame particle TREE (Some mesh) state delta w
    = Ok (Some (Mesh.lookAt mesh (Vec3 0 0 30)), w')
    /\ heap w' !! ParticleData.treePosition particle = Some t
    /\ heap w' !! Mesh.position mesh = Some (Vector3.lerp_val mp t (delta * 3))
    /\ heap w' !! Mesh.scale mesh
       = Some (Vector3.lerp_val ms (Vec3 1.5 1.5 1.5) (delta * 2)).
Proof.
  intros Ht Hmp Hms Hne1 Hne2 Hne3.
  pose proof (lookup_lt_Some _ _ _ Ht) as Lt.
  pose proof (lookup_lt_Some _ _ _ Hmp) as Lmp.
  pose proof (lookup_lt_Some _ _ _ Hms) as Lms.
  unfold SinglePhoto.useFrame.
  erewrite bind_run by reflexivity. cbn beta iota zeta.
  erewrite bind_run by (apply (lerp_run _ _ _ mp t); heap_lookup).
  erewrite bind_run by apply new_Vector3_run.
  erewrite bind_run
    by (apply (lerp_run _ _ _ ms (Vec3 1.5 1.5 1.5)); heap_lookup).
  erewrite bind_run by reflexivity.
  eexists. split; [reflexivity|].
  split; [heap_lookup|]. split; heap_lookup.
Qed.

Lemma lerp_iter_shift (n : nat) (c t : Vector3) (a : R) :
  lerp_iter n (Vector3.lerp_val c t a) t a = lerp_iter (S n) c t a.
Proof. unfold lerp_iter. rewrite Nat.iter_succ_r. reflexivity. Qed.

(** *** The ornament animator in [TREE] mode *)

(** The particle loop from index [i] on: each remaining particle's smoothed
    position takes one interpolation step towards its home position; no
    other cell than the smoothed positions from [i] on and the dummy's two
    vectors is written, and nothing is allocated. *)
Lemma ParticleGroup_useFrame_loop_TREE (state : RootState.t) (delta : R)
    (cps : list Ref) (dpos dscale : Ref) :
  NoDup cps ->
  dpos <> dscale ->
  forall (data : list ParticleData.t) (i : nat) (rot : Euler)
         (mesh : InstancedMesh.t) (w : World),
    (dpos < length (heap w))%nat -> (dscale < length (heap w))%nat ->
    (forall c, c ∈ cps -> (c < length (heap w))%nat /\ c <> dpos /\ c <> dscale) ->
    (forall j p, data !! j = Some p ->
       is_Some (cps !! (i + j)%nat)
       /\ (ParticleData.treePosition p < length (heap w))%nat
       /\ (ParticleData.treePosition p ∉ cps)
       /\ ParticleData.treePosition p <> dpos
       /\ ParticleData.treePosition p <> dscale) ->
    exists (rot' : Euler) (mesh' : InstancedMesh.t) (w' : World),
      ParticleGroup.useFrame_loop TREE state delta cps data i
        (Object3D.mk dpos rot dscale) mesh w
      = Ok ((Object3D.mk dpos rot' dscale, mesh'), w')
      /\ length (heap w') = length (heap w)
      /\ (forall r, (forall j, (i <= j)%nat -> cps !! j <> Some r) ->
                    r <> dpos -> r <> dscale ->
                    heap w' !! r = heap w !! r)
      /\ (forall j p c vc vt,
            data !! j = Some p -> cps !! (i + j)%nat = Some c ->
            heap w !! c = Some vc ->
            heap w !! ParticleData.treePosition p = Some vt ->
            heap w' !! c = Some (Vector3.lerp_val vc vt (delta * 3))).
Proof.
  intros Hnodup Hd.
  induction data as [|particle rest IH]; intros i rot mesh w Ldp Lds Hcps Hdata.
  - exists rot, mesh, w. cbn [ParticleGroup.useFrame_loop].
    split; [reflexivity|]. split; [reflexivity|]. split; [reflexivity|].
    intros j p c vc vt H. inversion H.
  - destruct (Hdata 0%nat particle eq_refl) as ([cur Hcur] & Lt & Htc & Htd & Hts).
    rewrite Nat.add_0_r in Hcur.
    assert (cur ∈ cps) as Hin by (eapply list_elem_of_lookup_2; exact Hcur).
    destruct (Hcps cur Hin) as (Lc & Hcd & Hcs).
    assert (ParticleData.treePosition particle <> cur) as Htcur
      by (intros Heq; rewrite Heq in Htc; contradiction).
    destruct (lookup_lt_is_Some_2 _ _ Lc) as [vc0 Hvc0].
    destruct (lookup_lt_is_Some_2 _ _ Lt) as [vt0 Hvt0].
    destruct (lookup_lt_is_Some_2 _ _ Ldp) as [vp0 Hvp0].
    destruct (lookup_lt_is_Some_2 _ _ Lds) as [vs0 Hvs0].
    cbn [ParticleGroup.useFrame_loop].
    erewrite bind_run by reflexivity.
    rewrite Hcur. erewrite bind_run by reflexivity.
    erewrite bind_run by (apply (lerp_run _ _ _ vc0 vt0); heap_lookup).
    erewrite bind_run
      by (apply (copy_run _ _ _ vp0 (Vector3.lerp_val vc0 vt0 (delta * 3)));
          heap_lookup).
    cbn [Object3D.position Object3D.scale Object3D.rotation ex ey ez].
    erewrite bind_run by (apply (setScalar_run _ _ vs0); heap_lookup).
    erewrite bind_run by (apply get_run; heap_lookup).
    erewrite bind_run by (apply get_run; heap_lookup).
    match goal with
    | |- context [ParticleGroup.useFrame_loop _ _ _ _ _ _ (Object3D.mk _ ?r _) ?m ?w1] =>
        destruct (IH (S i) r m w1) as (rot' & mesh' & w' & Hrun & Hlen & Hframe & Hstep)
    end.
    + cbn [heap with_heap]. len_solve.
    + cbn [heap with_heap]. len_solve.
    + intros c Hc. destruct (Hcps c Hc) as (? & ? & ?).
      cbn [heap with_heap]. repeat split; [len_solve|assumption|assumption].
    + intros j p Hp. destruct (Hdata (S j) p Hp) as (Hs & ? & ? & ? & ?).
      replace (S i + j)%nat with (i + S j)%nat by lia.
      cbn [heap with_heap]. repeat split; try assumption. len_solve.
    + exists rot', mesh', w'. split; [exact Hrun|].
      cbn [heap with_heap] in Hlen, Hframe, Hstep.
      split; [rewrite Hlen; len_solve|]. split.
      * intros r Hr Hrd Hrs. rewrite Hframe; [|intros j Hj; apply Hr; lia|assumption..].
        assert (r <> cur) as Hrc.
        { intros ->. apply (Hr i); [lia|exact Hcur]. }
        rewrite !list_lookup_insert_ne by (apply not_eq_sym; assumption).
        reflexivity.
      * intros [|j] p c vc vt Hp Hc Hvc Hvt.
        -- cbn in Hp. injection Hp as <-. rewrite Nat.add_0_r in Hc.
           assert (c = cur) as -> by congruence.
           assert (vc = vc0) as -> by congruence.
           assert (vt = vt0) as -> by congruence.
           rewrite Hframe; [|intros j Hj Hj'|assumption..].
           ++ heap_lookup.
           ++ pose proof (proj1 (NoDup_alt cps) Hnodup _ _ _ Hj' Hcur). lia.
        -- cbn in Hp. replace (i + S j)%nat with (S i + j)%nat in Hc by lia.
           assert (c ∈ cps) as Hcin by (eapply list_elem_of_lookup_2; exact Hc).
           destruct (Hcps c Hcin) as (Lcc & Hccd & Hccs).
           destruct (Hdata (S j) p Hp) as (_ & Ltp & Htpc & Htpd & Htps).
           assert (c <> cur) as Hccur.
           { intros ->.
             pose proof (proj1 (NoDup_alt cps) Hnodup _ _ _ Hc Hcur). lia. }
           assert (ParticleData.treePosition p <> cur) as Htpcur
             by (intros Heq; rewrite Heq in Htpc; contradiction).
           apply (Hstep j p c vc vt Hp Hc); heap_lookup.
Qed.

(** One frame of a well-formed group in [TREE] mode. *)
Lemma ParticleGroup_useFrame_TREE (data : list ParticleData.t) (g : ParticleGroup.t)
    (state : RootState.t) (delta : R) (w : World) :
  ParticleGroup_wf data g (heap w) ->
  exists (g' : ParticleGroup.t) (w' : World),
    ParticleGroup.useFrame data TREE g state delta w = Ok (g', w')
    /\ ParticleGroup.currentPositions g' = ParticleGroup.currentPositions g
    /\ ParticleGroup_wf data g' (heap w')
    /\ (forall p, p ∈ data ->
          heap w' !! ParticleData.treePosition p
          = heap w !! ParticleData.treePosition p)
    /\ (forall j p c vc vt,
          data !! j = Some p ->
          ParticleGroup.currentPositions g !! j = Some c ->
          heap w !! c = Some vc ->
          heap w !! ParticleData.treePosition p = Some vt ->
          heap w' !! c = Some (Vector3.lerp_val vc vt (delta * 3))).
Proof.
  destruct g as [meshRef [dpos rot dscale] cps].
  unfold ParticleGroup_wf.
  cbn [ParticleGroup.currentPositions ParticleGroup.dummy ParticleGroup.meshRef
       Object3D.position Object3D.scale].
  intros ([mesh ->] & Hlen & Hnodup & Hcps & Ldp & Lds & Hd & Hdata & Hexpl).
  destruct (ParticleGroup_useFrame_loop_TREE state delta cps dpos dscale Hnodup Hd
              data 0%nat rot mesh w Ldp Lds Hcps)
    as (rot' & mesh' & w' & Hrun & Hlen' & Hframe & Hstep).
  { intros j p Hp. split.
    - apply lookup_lt_is_Some_2. rewrite Hlen. apply lookup_lt_Some in Hp. exact Hp.
    - apply Hdata. eapply list_elem_of_lookup_2. exact Hp. }
  eexists _, w'. unfold ParticleGroup.useFrame.
  cbn [ParticleGroup.currentPositions ParticleGroup.dummy ParticleGroup.meshRef].
  rewrite (bind_run _ _ _ _ _ Hrun). cbn beta iota zeta.
  split; [reflexivity|].
  cbn [ParticleGroup.currentPositions ParticleGroup.dummy ParticleGroup.meshRef
       Object3D.position Object3D.scale].
  split; [reflexivity|]. rewrite Hlen'. split.
  { exact (conj (ex_intro _ _ eq_refl)
             (conj Hlen (conj Hnodup (conj Hcps (conj Ldp (conj Lds
               (conj Hd (conj Hdata Hexpl)))))))). }
  split.
  - intros p Hp. destruct (Hdata p Hp) as (_ & Hnot & ? & ?).
    apply Hframe; [|assumption..].
    intros j _ Hj. apply Hnot. eapply list_elem_of_lookup_2. exact Hj.
  - intros j p c vc vt Hp Hc Hvc Hvt. apply (Hstep j p c vc vt Hp Hc Hvc Hvt).
Qed.

(** *** Frames of any length *)

Lemma Rmin_1_alpha (a : R) : 1 <= a -> Rmin 1 a = 1.
Proof. intros H. unfold Rmin. destruct (Rle_dec 1 a); lra. Qed.

(** C2, refuted as stated: the first frame of a freshly mounted group,
    if it comes with [delta = 0.5], moves the ornament's smoothed position
    from (25, 0, 0) to (-2, -13.5, 0), past its target (7, -9, 0), where the
    update with factor [min(1, delta * 3)] would put it on the target; and
    the same frame takes a freshly mounted photo's scale from 1 exactly
    onto its target 1.5, although it was not there before. *)
Lemma animator_overshoots_counterexample :
  exists (g' : ParticleGroup.t) (w' : World) (m' : option Mesh.t) (w'' : World),
    ParticleGroup.useFrame [ornament0] TREE group0 frame0 0.5 group_scene0
    = Ok (g', w')
    /\ heap group_scene0 !! 7%nat = Some (Vec3 25 0 0)
    /\ heap group_scene0 !! ParticleData.treePosition ornament0 = Some (Vec3 7 (-9) 0)
    /\ heap w' !! 7%nat = Some (Vec3 (-2) (-13.5) 0)
    /\ advance_spec (Vec3 25 0 0) (Vec3 7 (-9) 0) 0.5 3 = Vec3 7 (-9) 0
    /\ Vec3 (-2) (-13.5) 0 <> advance_spec (Vec3 25 0 0) (Vec3 7 (-9) 0) 0.5 3
    /\ SinglePhoto.useFrame photo0 TREE (Some mesh0) frame0 0.5 scene0
       = Ok (m', w'')
    /\ heap scene0 !! Mesh.scale mesh0 = Some (Vec3 1 1 1)
    /\ heap w'' !! Mesh.scale mesh0 = Some (Vec3 1.5 1.5 1.5).
Proof.
  destruct (ParticleGroup_useFrame_TREE [ornament0] group0 frame0 0.5 group_scene0
              group0_wf) as (g' & w' & Hrun & _ & _ & _ & Hstep).
  destruct (SinglePhoto_useFrame_TREE photo0 mesh0 frame0 0.5 scene0
              (Vec3 7 (-9) 0) (Vec3 7 (-9) 0) (Vec3 1 1 1))
    as (w'' & Hrun' & _ & _ & Hscale); try reflexivity; try (cbn; lia).
  assert (advance_spec (Vec3 25 0 0) (Vec3 7 (-9) 0) 0.5 3 = Vec3 7 (-9) 0) as Hspec.
  { unfold advance_spec. rewrite Rmin_1_alpha by lra.
    unfold Vector3.lerp_val. cbn [x y z]. f_equal; lra. }
  exists g', w', (Some (Mesh.lookAt mesh0 (Vec3 0 0 30))), w''.
  split; [exact Hrun|]. split; [reflexivity|]. split; [reflexivity|].
  split.
  { rewrite (Hstep 0%nat ornament0 7%nat (Vec3 25 0 0) (Vec3 7 (-9) 0)
               eq_refl eq_refl eq_refl eq_refl).
    unfold Vector3.lerp_val. cbn [x y z]. f_equal. f_equal; lra. }
  split; [exact Hspec|]. split.
  { rewrite Hspec. intros H. injection H as H _. lra. }
  split; [exact Hrun'|]. split; [reflexivity|].
  rewrite Hscale. unfold Vector3.lerp_val. cbn [x y z]. f_equal. f_equal; lra.
Qed.

(** After [n] updates with a factor in (0, 1) the value lies on the segment
    from the start to the target, short of the target. *)
Lemma lerp_iter_on_segment (n : nat) (c t : Vector3) (a : R) :
  0 < a < 1 ->
  exists s : R, 0 <= s < 1 /\ lerp_iter n c t a = Vector3.lerp_val c t s.
Proof.
  intros Ha. exists (1 - (1 - a) ^ n).
  assert (0 < (1 - a) ^ n) by (apply pow_lt; lra).
  assert ((1 - a) ^ n <= 1) as Hle.
  { pose proof (pow_incr (1 - a) 1 n ltac:(lra)) as Hp.
    rewrite pow1 in Hp. exact Hp. }
  split; [lra|].
  destruct (lerp_iter_offset n c t a) as (Hx & Hy & Hz).
  destruct (lerp_iter n c t a) as [vx vy vz]. cbn [x y z] in Hx, Hy, Hz.
  unfold Vector3.lerp_val. f_equal; lra.
Qed.

(** *** What the ornament animator writes, in every mode *)

(** In every mode the particle loop returns, and it writes to no object
    that existed before the frame other than the smoothed positions and the
    dummy's two vectors: the targets it modifies ([EXPLODED], [FOCUS]) are
    clones. *)
Lemma ParticleGroup_useFrame_loop_footprint (appState : AppState)
    (state : RootState.t) (delta : R) (cps : list Ref) (dpos dscale : Ref) :
  forall (data : list ParticleData.t) (i : nat) (rot : Euler)
         (mesh : InstancedMesh.t) (w : World),
    (dpos < length (heap w))%nat -> (dscale < length (heap w))%nat ->
    (forall c, c ∈ cps -> (c < length (heap w))%nat) ->
    (forall j p, data !! j = Some p ->
       is_Some (cps !! (i + j)%nat)
       /\ (ParticleData.treePosition p < length (heap w))%nat
       /\ (ParticleData.explodedPosition p < length (heap w))%nat) ->
    exists (rot' : Euler) (mesh' : InstancedMesh.t) (w' : World),
      ParticleGroup.useFrame_loop appState state delta cps data i
        (Object3D.mk dpos rot dscale) mesh w
      = Ok ((Object3D.mk dpos rot' dscale, mesh'), w')
      /\ (length (heap w) <= length (heap w'))%nat
      /\ (forall r v, r ∉ cps -> r <> dpos -> r <> dscale ->
                      heap w !! r = Some v -> heap w' !! r = Some v).
Proof.
  induction data as [|particle rest IH]; intros i rot mesh w Ldp Lds Hcps Hdata.
  - exists rot, mesh, w. cbn [ParticleGroup.useFrame_loop].
    split; [reflexivity|]. split; [lia|]. intros r v _ _ _ H. exact H.
  - destruct (Hdata 0%nat particle eq_refl) as ([cur Hcur] & Lt & Le).
    rewrite Nat.add_0_r in Hcur.
    assert (cur ∈ cps) as Hin by (eapply list_elem_of_lookup_2; exact Hcur).
    pose proof (Hcps cur Hin) as Lc.
    destruct (lookup_lt_is_Some_2 _ _ Lc) as [vc0 Hvc0].
    destruct (lookup_lt_is_Some_2 _ _ Lt) as [vt0 Hvt0].
    destruct (lookup_lt_is_Some_2 _ _ Le) as [ve0 Hve0].
    destruct (lookup_lt_is_Some_2 _ _ Ldp) as [vp0 Hvp0].
    destruct (lookup_lt_is_Some_2 _ _ Lds) as [vs0 Hvs0].
    cbn [ParticleGroup.useFrame_loop].
    assert (exists (target : Ref) (w0 : World),
              (match appState with
               | TREE => ret (ParticleData.treePosition particle)
               | EXPLODED =>
                   let* target' := Vector3.clone (ParticleData.explodedPosition particle) in
                   let* noise :=
                     new_Vector3
                       (sin (RootState.elapsedTime state
                             + INR (ParticleData.id particle)) * 0.5)
                       (cos (RootState.elapsedTime state * 0.8
                             + INR (ParticleData.id particle)) * 0.5) 0 in
                   Vector3.add target' noise
               | FOCUS =>
                   let* target' := Vector3.clone (ParticleData.explodedPosition particle) in
                   Vector3.multiplyScalar target' 1.5
               end) w = Ok (target, w0)
              /\ (length (heap w) <= length (heap w0))%nat
              /\ (target < length (heap w0))%nat
              /\ (forall r v, heap w !! r = Some v -> heap w0 !! r = Some v))
      as (target & w0 & Htarget & Hlen0 & Ltarget & Hkeep0).
    { destruct appState.
      - exists (ParticleData.treePosition particle), w.
        split; [reflexivity|]. split; [lia|]. split; [exact Lt|]. auto.
      - eexists _, _. split.
        + erewrite bind_run by (apply clone_run; exact Hve0).
          erewrite bind_run by apply new_Vector3_run.
          eapply add_run; heap_lookup.
        + cbn [heap with_heap]. split; [len_solve|]. split; [len_solve|].
          intros r v Hr. pose proof (lookup_lt_Some _ _ _ Hr). heap_lookup.
      - eexists _, _. split.
        + erewrite bind_run by (apply clone_run; exact Hve0).
          eapply multiplyScalar_run; heap_lookup.
        + cbn [heap with_heap]. split; [len_solve|]. split; [len_solve|].
          intros r v Hr. pose proof (lookup_lt_Some _ _ _ Hr). heap_lookup. }
    rewrite (bind_run _ _ _ _ _ Htarget).
    destruct (lookup_lt_is_Some_2 _ _ Ltarget) as [vtg Hvtg].
    pose proof (Hkeep0 _ _ Hvc0) as Hvc1.
    pose proof (Hkeep0 _ _ Hvp0) as Hvp1.
    pose proof (Hkeep0 _ _ Hvs0) as Hvs1.
    pose proof (lookup_lt_Some _ _ _ Hvc1) as Lc1.
    pose proof (lookup_lt_Some _ _ _ Hvp1) as Lp1.
    pose proof (lookup_lt_Some _ _ _ Hvs1) as Ls1.
    rewrite Hcur. erewrite bind_run by reflexivity.
    erewrite bind_run by (eapply lerp_run; eassumption).
    cbn [Object3D.position Object3D.scale Object3D.rotation ex ey ez].
    destruct (decide (dpos = cur)) as [Hpc|Hpc];
    destruct (decide (dscale = dpos)) as [Hsp|Hsp];
    destruct (decide (dscale = cur)) as [Hsc|Hsc];
      try (exfalso; congruence); subst.
    all: erewrite bind_run by (eapply copy_run; heap_lookup).
    all: erewrite bind_run by (eapply setScalar_run; heap_lookup).
    all: erewrite bind_run by (eapply get_run; heap_lookup).
    all: erewrite bind_run by (eapply get_run; heap_lookup).
    all: match goal with
    | |- context [ParticleGroup.useFrame_loop _ _ _ _ _ _ (Object3D.mk _ ?r _) ?m ?w1] =>
        destruct (IH (S i) r m w1) as (rot' & mesh' & w' & Hrun & Hlen & Hframe);
          [ cbn [heap with_heap]; len_solve
          | cbn [heap with_heap]; len_solve
          | intros c Hc; pose proof (Hcps c Hc); cbn [heap with_heap]; len_solve
          | intros j p Hp; destruct (Hdata (S j) p Hp) as (Hs & ? & ?);
            replace (S i + j)%nat with (i + S j)%nat by lia;
            cbn [heap with_heap]; repeat split; [exact Hs|len_solve|len_solve]
          | ]
    end.
    all: exists rot', mesh', w'; (split; [exact Hrun|]);
      cbn [heap with_heap] in Hlen, Hframe.
    all: split; [ revert Hlen; repeat first [rewrite length_insert | rewrite length_app];
                  cbn [length]; lia | ].
    all: intros r v Hr1 Hr2 Hr3 Hr; apply Hframe; try assumption.
    all: assert (r <> cur) by (intros ->; contradiction).
    all: pose proof (Hkeep0 _ _ Hr); heap_lookup.
Qed.

(** A frame of the ornament animator, in any mode, returns and leaves
    every vector that is neither a smoothed position nor one of the dummy's
    as it was; in particular the stored home and scatter positions of the
    particles, which [ParticleGroup.mount] never hands out as smoothed
    positions. *)
Lemma ParticleGroup_useFrame_footprint (data : list ParticleData.t)
    (appState : AppState) (g : ParticleGroup.t) (state : RootState.t) (delta : R)
    (w : World) :
  let cps := ParticleGroup.currentPositions g in
  let dpos := Object3D.position (ParticleGroup.dummy g) in
  let dscale := Object3D.scale (ParticleGroup.dummy g) in
  length cps = length data ->
  (dpos < length (heap w))%nat -> (dscale < length (heap w))%nat ->
  (forall c, c ∈ cps -> (c < length (heap w))%nat) ->
  (forall p, p ∈ data ->
     (ParticleData.treePosition p < length (heap w))%nat
     /\ (ParticleData.explodedPosition p < length (heap w))%nat) ->
  exists (g' : ParticleGroup.t) (w' : World),
    ParticleGroup.useFrame data appState g state delta w = Ok (g', w')
    /\ forall r v, r ∉ cps -> r <> dpos -> r <> dscale ->
                   heap w !! r = Some v -> heap w' !! r = Some v.
Proof.
  destruct g as [[mesh|] [dpos rot dscale] cps];
    cbn [ParticleGroup.currentPositions ParticleGroup.dummy Object3D.position
         Object3D.scale];
    intros Hlen Ldp Lds Hcps Hdata.
  - destruct (ParticleGroup_useFrame_loop_footprint appState state delta cps dpos
                dscale data 0%nat rot mesh w Ldp Lds Hcps)
      as (rot' & mesh' & w' & Hrun & _ & Hframe).
    { intros j p Hp. split.
      - apply lookup_lt_is_Some_2. rewrite Hlen. apply lookup_lt_Some in Hp. exact Hp.
      - apply Hdata. eapply list_elem_of_lookup_2. exact Hp. }
    eexists _, w'. unfold ParticleGroup.useFrame.
    cbn [ParticleGroup.currentPositions ParticleGroup.dummy ParticleGroup.meshRef].
    rewrite (bind_run _ _ _ _ _ Hrun). split; [reflexivity|exact Hframe].
  - exists (ParticleGroup.mk None (Object3D.mk dpos rot dscale) cps), w.
    split; [reflexivity|]. intros r v _ _ _ H. exact H.
Qed.

(** A frame of a well-formed group, in any mode, leaves the stored home
    and scatter position of every particle as they were. *)
Lemma ParticleGroup_useFrame_keeps_positions (data : list ParticleData.t)
    (appState : AppState) (g : ParticleGroup.t) (state : RootState.t) (delta : R)
    (w : World) :
  ParticleGroup_wf data g (heap w) ->
  exists (g' : ParticleGroup.t) (w' : World),
    ParticleGroup.useFrame data appState g state delta w = Ok (g', w')
    /\ forall p, p ∈ data ->
         heap w' !! ParticleData.treePosition p
         = heap w !! ParticleData.treePosition p
         /\ heap w' !! ParticleData.explodedPosition p
            = heap w !! ParticleData.explodedPosition p.
Proof.
  intros (_ & Hlen & _ & Hcps & Ldp & Lds & _ & Htree & Hexpl).
  destruct (ParticleGroup_useFrame_footprint data appState g state delta w Hlen
              Ldp Lds) as (g' & w' & Hrun & Hframe).
  { intros c Hc. apply (Hcps c Hc). }
  { intros p Hp. split; [apply (Htree p Hp)|apply (Hexpl p Hp)]. }
  exists g', w'. split; [exact Hrun|].
  intros p Hp.
  destruct (Htree p Hp) as (Lt & Ht1 & Ht2 & Ht3).
  destruct (Hexpl p Hp) as (Le & He1 & He2 & He3).
  destruct (lookup_lt_is_Some_2 _ _ Lt) as [vt Hvt].
  destruct (lookup_lt_is_Some_2 _ _ Le) as [ve Hve].
  rewrite Hvt, Hve. split; apply Hframe; assumption.
Qed.

End animator.

(** * Further properties of the code *)

(** ** The state machine and the classifier together *)

(** X1: handling the same gesture twice leaves the state the first
    handling left: a repeated signal is a no-op. *)
Theorem handleGestureUpdate_idempotent :
  forall (self : App.t) (g : HandGesture.t),
    handleGestureUpdate (handleGestureUpdate self g) g = handleGestureUpdate self g.
Proof.
  intros [mode g0] [fist open pinch pos rot].
  unfold handleGestureUpdate; cbn.
  destruct fist, open, pinch, mode; reflexivity.
Qed.

(** When the handler leaves the mode at [FOCUS]. *)
Lemma handleGestureUpdate_FOCUS_cases (self : App.t) (g : HandGesture.t) :
  App.appState (handleGestureUpdate self g) = FOCUS
  <-> HandGesture.isFist g = false
      /\ HandGesture.isOpenPalm g = false
      /\ (App.appState self = FOCUS
          \/ (App.appState self = EXPLODED /\ HandGesture.isPinching g = true)).
Proof.
  destruct self as [mode g0]. destruct g as [fist open pinch pos rot].
  unfold handleGestureUpdate; cbn.
  destruct fist, open, pinch, mode; cbn; split;
    try discriminate; try (intros _; repeat split; auto; fail);
    try (intros (H1 & H2 & [H3 | [H3 H4]]); discriminate);
    try reflexivity.
Qed.

(** X2: the mode after a gesture is [FOCUS] exactly when the gesture is
    neither a fist nor an open palm and either the mode was [FOCUS] already
    or it was [EXPLODED] and the gesture is a pinch; so [FOCUS] is never
    entered from [TREE]. *)
Theorem handleGestureUpdate_FOCUS_iff :
  forall (self : App.t) (g : HandGesture.t),
    App.appState (handleGestureUpdate self g) = FOCUS
    <-> HandGesture.isFist g = false
        /\ HandGesture.isOpenPalm g = false
        /\ (App.appState self = FOCUS
            \/ (App.appState self = EXPLODED /\ HandGesture.isPinching g = true)).
Proof. intros self g. apply handleGestureUpdate_FOCUS_cases. Qed.

Lemma ltb_false (a b : R) : ltb a b = false <-> b <= a.
Proof.
  destruct (ltb a b) eqn:E.
  - apply ltb_true in E. split; [discriminate|lra].
  - split; [|reflexivity]. intros _.
    destruct (Rle_or_lt b a) as [H|H]; [exact H|].
    apply ltb_true in H. congruence.
Qed.

Lemma gtb_false (a b : R) : gtb a b = false <-> a <= b.
Proof. unfold gtb. apply ltb_false. Qed.

(** X3: a camera frame without a hand hands the neutral signal to the
    state machine and leaves the mode as it is. *)
Theorem onResults_update_no_hand :
  forall (self : App.t) (results : Results),
    multiHandLandmarks results = None \/ multiHandLandmarks results = Some [] ->
    onResults_update self results
    = Ok {| App.appState := App.appState self; App.gesture := neutral |}.
Proof.
  intros [mode g0] [[[|lms others]|]] [H|H]; try discriminate H; reflexivity.
Qed.

Lemma onResults_update_no_hand_witness :
  onResults_update App.initial (mkResults None)
  = Ok {| App.appState := TREE; App.gesture := neutral |}.
Proof.
  apply (onResults_update_no_hand App.initial (mkResults None)).
  left. reflexivity.
Defined.



(** ** The classifier *)

Lemma landmark_map (f : Landmark.t -> Landmark.t) (lms : list Landmark.t) (k : nat) :
  (k < length lms)%nat -> landmark (map f lms) k = f (landmark lms k).
Proof.
  intros H. unfold landmark.
  rewrite (nth_indep (map f lms) _ (f (Landmark.mk 0 0)))
    by (rewrite length_map; exact H).
  apply map_nth.
Qed.

Lemma euclid_translate (dx dy : R) (p q : Landmark.t) :
  euclid (Landmark.mk (Landmark.x p + dx) (Landmark.y p + dy))
         (Landmark.mk (Landmark.x q + dx) (Landmark.y q + dy))
  = euclid p q.
Proof. unfold euclid. cbn [Landmark.x Landmark.y]. f_equal. ring. Qed.

Lemma euclid_rescale (k : R) (p q : Landmark.t) :
  0 <= k ->
  euclid (Landmark.mk (k * Landmark.x p) (k * Landmark.y p))
         (Landmark.mk (k * Landmark.x q) (k * Landmark.y q))
  = k * euclid p q.
Proof.
  intros Hk. unfold euclid. cbn [Landmark.x Landmark.y].
  replace ((k * Landmark.x p - k * Landmark.x q) ^ 2
           + (k * Landmark.y p - k * Landmark.y q) ^ 2)
    with (Rsqr k * ((Landmark.x p - Landmark.x q) ^ 2
                    + (Landmark.y p - Landmark.y q) ^ 2))
    by (unfold Rsqr; ring).
  rewrite sqrt_mult_alt by apply Rle_0_sqr.
  rewrite sqrt_Rsqr by exact Hk. reflexivity.
Qed.

Lemma meanTipDistance_translate (dx dy : R) (lms : list Landmark.t) :
  (21 <= length lms)%nat ->
  meanTipDistance (translate dx dy lms) = meanTipDistance lms.
Proof.
  intros H. unfold meanTipDistance, translate.
  rewrite !landmark_map
    by (unfold WRIST, INDEX_TIP, MIDDLE_TIP, RING_TIP, PINKY_TIP; lia).
  rewrite !euclid_translate. reflexivity.
Qed.

Lemma pinchDistance_translate (dx dy : R) (lms : list Landmark.t) :
  (21 <= length lms)%nat ->
  pinchDistance (translate dx dy lms) = pinchDistance lms.
Proof.
  intros H. unfold pinchDistance, translate.
  rewrite !landmark_map by (unfold THUMB_TIP, INDEX_TIP; lia).
  apply euclid_translate.
Qed.

(** X5: moving the whole hand in the image changes none of the three
    gesture flags; only the pointer follows (mirrored in [x]) and the
    rotation hint shifts. *)
Theorem onResults_translation_invariant :
  forall (dx dy : R) (lms : list Landmark.t) (others : list (list Landmark.t)),
    (21 <= length lms)%nat ->
    exists g g' : HandGesture.t,
      onResults (mkResults (Some (lms :: others))) = Ok g
      /\ onResults (mkResults (Some (translate dx dy lms :: others))) = Ok g'
      /\ HandGesture.isFist g' = HandGesture.isFist g
      /\ HandGesture.isOpenPalm g' = HandGesture.isOpenPalm g
      /\ HandGesture.isPinching g' = HandGesture.isPinching g
      /\ Point2.x (HandGesture.handPosition g')
         = Point2.x (HandGesture.handPosition g) - dx
      /\ Point2.y (HandGesture.handPosition g')
         = Point2.y (HandGesture.handPosition g) + dy
      /\ HandGesture.rotation g' = HandGesture.rotation g + dx.
Proof.
  intros dx dy lms others H.
  assert (21 <= length (translate dx dy lms))%nat as H'
    by (unfold translate; rewrite length_map; exact H).
  eexists _, _.
  split; [apply onResults_full_hand; exact H|].
  split; [apply onResults_full_hand; exact H'|].
  cbn [HandGesture.isFist HandGesture.isOpenPalm HandGesture.isPinching
       HandGesture.handPosition HandGesture.rotation Point2.x Point2.y].
  rewrite meanTipDistance_translate, pinchDistance_translate by exact H.
  unfold translate.
  rewrite !landmark_map by (unfold WRIST, MIDDLE_MCP; lia).
  cbn [Landmark.x Landmark.y].
  repeat split; lra.
Qed.

Lemma onResults_translation_invariant_witness :
  (21 <= length closed_hand)%nat
  /\ exists g' : HandGesture.t,
       onResults (mkResults (Some [translate 0.25 0.125 closed_hand])) = Ok g'
       /\ HandGesture.isFist g' = true.
Proof.
  split; [simpl; lia|].
  destruct (onResults_translation_invariant 0.25 0.125 closed_hand [])
    as (g & g' & Hg & Hg' & Hfist & _); [simpl; lia|].
  exists g'. split; [exact Hg'|].
  rewrite Hfist.
  rewrite (onResults_full_hand closed_hand []) in Hg by (simpl; lia).
  injection Hg as <-. cbn [HandGesture.isFist].
  apply ltb_true. rewrite closed_hand_meanTipDistance. lra.
Defined.

Lemma meanTipDistance_rescale (k : R) (lms : list Landmark.t) :
  0 <= k -> (21 <= length lms)%nat ->
  meanTipDistance (rescale k lms) = k * meanTipDistance lms.
Proof.
  intros Hk H. unfold meanTipDistance, rescale.
  rewrite !landmark_map
    by (unfold WRIST, INDEX_TIP, MIDDLE_TIP, RING_TIP, PINKY_TIP; lia).
  rewrite !euclid_rescale by exact Hk. lra.
Qed.

(** X6: the flags depend on the apparent size of the hand. Shrinking a
    hand in the image by a factor [k] multiplies the mean fingertip
    distance by [k], so any hand seen small enough ([k] times its mean
    distance below 0.25) is classified as a fist and not as an open palm. *)
Theorem onResults_small_hand_is_fist :
  forall (k : R) (lms : list Landmark.t) (others : list (list Landmark.t)),
    (21 <= length lms)%nat ->
    0 <= k ->
    k * meanTipDistance lms < 0.25 ->
    exists g : HandGesture.t,
      onResults (mkResults (Some (rescale k lms :: others))) = Ok g
      /\ meanTipDistance (rescale k lms) = k * meanTipDistance lms
      /\ HandGesture.isFist g = true
      /\ HandGesture.isOpenPalm g = false.
Proof.
  intros k lms others H Hk Hsmall.
  assert (21 <= length (rescale k lms))%nat as H'
    by (unfold rescale; rewrite length_map; exact H).
  eexists. split; [apply onResults_full_hand; exact H'|].
  cbn [HandGesture.isFist HandGesture.isOpenPalm].
  rewrite meanTipDistance_rescale by assumption.
  split; [reflexivity|]. split.
  - apply ltb_true. exact Hsmall.
  - apply gtb_false. lra.
Qed.

Lemma onResults_small_hand_is_fist_witness :
  (21 <= length closed_hand)%nat /\ 0 <= 0.5
  /\ 0.5 * meanTipDistance closed_hand < 0.25
  /\ exists g : HandGesture.t,
       onResults (mkResults (Some [rescale 0.5 closed_hand])) = Ok g
       /\ HandGesture.isFist g = true.
Proof.
  assert (0.5 * meanTipDistance closed_hand < 0.25) as Hs
    by (rewrite closed_hand_meanTipDistance; lra).
  split; [simpl; lia|]. split; [lra|]. split; [exact Hs|].
  destruct (onResults_small_hand_is_fist 0.5 closed_hand [])
    as (g & Hg & _ & Hfist & _); [simpl; lia|lra|exact Hs|].
  exists g. split; assumption.
Defined.

(** X7: only the first hand is read, and of it only the seven landmarks
    0, 4, 8, 9, 12, 16 and 20: two inputs that agree there give the same
    signal. *)
Theorem onResults_reads_seven_landmarks :
  forall (lms lms' : list Landmark.t) (others others' : list (list Landmark.t)),
    (21 <= length lms)%nat -> (21 <= length lms')%nat ->
    (forall k, k ∈ read_labels -> landmark lms k = landmark lms' k) ->
    onResults (mkResults (Some (lms :: others)))
    = onResults (mkResults (Some (lms' :: others'))).
Proof.
  intros lms lms' others others' H H' Hsame.
  rewrite (onResults_full_hand lms others H), (onResults_full_hand lms' others' H').
  unfold meanTipDistance, pinchDistance.
  rewrite !(Hsame WRIST), !(Hsame THUMB_TIP), !(Hsame INDEX_TIP),
          !(Hsame MIDDLE_MCP), !(Hsame MIDDLE_TIP), !(Hsame RING_TIP),
          !(Hsame PINKY_TIP)
    by (apply list_elem_of_In; simpl; auto 10).
  reflexivity.
Qed.

Lemma onResults_reads_seven_landmarks_witness :
  onResults (mkResults (Some [closed_hand]))
  = onResults (mkResults (Some [closed_hand ++ [Landmark.mk 0 0]; far_hand])).
Proof.
  apply onResults_reads_seven_landmarks; try (simpl; lia).
  intros k Hk. unfold read_labels in Hk.
  repeat (apply elem_of_cons in Hk as [-> | Hk]; [reflexivity|]).
  inversion Hk.
Defined.

(** ** The photo list *)

Section upload.
Variable File : Type.
Variable createObjectURL : File -> string.

Lemma files_forEach_map (files : list File) (newPhotos : list string) :
  files_forEach File createObjectURL files newPhotos
  = newPhotos ++ map createObjectURL files.
Proof.
  revert newPhotos. induction files as [|f files IH]; intros newPhotos.
  - cbn. rewrite app_nil_r. reflexivity.
  - cbn [files_forEach map]. rewrite IH, <- app_assoc. reflexivity.
Qed.

Lemma handlePhotoUpload_step (self : Photos.t) (files : option (list File)) :
  handlePhotoUpload File createObjectURL self files
  = match upload_urls createObjectURL files with
    | [] => self
    | urls =>
        {| Photos.photos :=
             if Photos.hasCustomPhotos self then Photos.photos self ++ urls else urls;
           Photos.hasCustomPhotos := true |}
    end.
Proof.
  destruct files as [[|f fs]|]; try reflexivity.
  unfold handlePhotoUpload. rewrite files_forEach_map.
  cbn [app upload_urls map]. destruct (Photos.hasCustomPhotos self); reflexivity.
Qed.

Lemma handlePhotoUpload_custom (uploads : list (option (list File))) :
  forall self : Photos.t,
    Photos.hasCustomPhotos self = true ->
    fold_left (handlePhotoUpload File createObjectURL) uploads self
    = {| Photos.photos :=
           Photos.photos self ++ concat (map (upload_urls createObjectURL) uploads);
         Photos.hasCustomPhotos := true |}.
Proof.
  induction uploads as [|u uploads IH]; intros [photos custom] Hc;
    cbn [Photos.hasCustomPhotos] in Hc; subst custom.
  - cbn. rewrite app_nil_r. reflexivity.
  - cbn [fold_left map concat]. rewrite handlePhotoUpload_step.
    destruct (upload_urls createObjectURL u) as [|url urls] eqn:E.
    + rewrite IH by reflexivity. reflexivity.
    + rewrite IH by reflexivity.
      cbn [Photos.photos Photos.hasCustomPhotos]. rewrite <- app_assoc. reflexivity.
Qed.

(** X8: whatever the sequence of file selections, the photo list is the
    six default photos as long as nothing was selected, and from the first
    non-empty selection on it is exactly the selected files' urls, in
    order of selection: the defaults are dropped once and nothing that was
    uploaded is ever lost; [null] and empty selections change nothing. *)
Theorem handlePhotoUpload_sequence :
  forall uploads : list (option (list File)),
    let final := fold_left (handlePhotoUpload File createObjectURL) uploads
                           Photos.initial in
    let urls := concat (map (upload_urls createObjectURL) uploads) in
    (urls = [] -> final = Photos.initial)
    /\ (urls <> [] ->
        final = {| Photos.photos := urls; Photos.hasCustomPhotos := true |}).
Proof.
  intros uploads. cbn zeta.
  assert (forall self : Photos.t,
            Photos.hasCustomPhotos self = false ->
            (concat (map (upload_urls createObjectURL) uploads) = [] ->
             fold_left (handlePhotoUpload File createObjectURL) uploads self = self)
            /\ (concat (map (upload_urls createObjectURL) uploads) <> [] ->
                fold_left (handlePhotoUpload File createObjectURL) uploads self
                = {| Photos.photos := concat (map (upload_urls createObjectURL) uploads);
                     Photos.hasCustomPhotos := true |})) as Hgen.
  { induction uploads as [|u uploads IH]; intros self Hc.
    - cbn. split; [reflexivity|congruence].
    - cbn [fold_left map concat]. rewrite handlePhotoUpload_step, Hc.
      destruct (upload_urls createObjectURL u) as [|url urls] eqn:E.
      + cbn [app]. apply IH. exact Hc.
      + split; [discriminate|]. intros _.
        rewrite handlePhotoUpload_custom by reflexivity. reflexivity. }
  apply Hgen. reflexivity.
Qed.

End upload.

(** ** The layout generator, in detail *)

Section layout_detail.
Import THREE.

Lemma generated_at_mono (count : nat) (photoUrls : list string) (w0 : World)
    (h ext : list Vector3) (i : nat) (p : ParticleData.t) :
  generated_at count photoUrls w0 h i p ->
  generated_at count photoUrls w0 (h ++ ext) i p.
Proof.
  intros (Hid & Hrefs & d & Hd & H0 & H1 & H2 & H3 & Hphoto & Horn).
  split; [exact Hid|]. split; [exact Hrefs|].
  exists d. split; [exact Hd|].
  repeat (split; [apply lookup_app_l_Some; assumption|]).
  split; assumption.
Qed.

Lemma generateTreeLayout_body_alloc (count : nat) (photoUrls : list string)
    (w0 : World) (i : nat) (w : World) :
  length (heap w) = (length (heap w0) + 4 * i)%nat ->
  entropy w = entropy w0 ->
  (drawn w0 <= drawn w)%nat ->
  exists (p : ParticleData.t) (w' : World) (ext : list Vector3),
    generateTreeLayout_body count photoUrls i w = Ok (p, w')
    /\ heap w' = heap w ++ ext /\ length ext = 4%nat
    /\ entropy w' = entropy w0
    /\ (drawn w <= drawn w')%nat
    /\ generated_at count photoUrls w0 (heap w') i p.
Proof.
  intros Hlen Hent Hdrawn.
  destruct (Nat.lt_ge_cases i (length photoUrls)) as [Hlt|Hge].
  - eexists _, _, _.
    split; [apply generateTreeLayout_body_photo; exact Hlt|].
    cbn [heap entropy drawn].
    split; [reflexivity|]. split; [reflexivity|]. split; [exact Hent|].
    split; [lia|].
    unfold generated_at, vector_refs.
    cbn [ParticleData.id ParticleData.type ParticleData.textureUrl
         ParticleData.color ParticleData.scale ParticleData.treePosition
         ParticleData.explodedPosition ParticleData.position
         ParticleData.targetPosition].
    rewrite <- Hlen, <- Hent.
    split; [reflexivity|]. split; [reflexivity|].
    exists (drawn w). split; [exact Hdrawn|].
    split; [solve_offset 0%nat|]. split; [solve_offset 1%nat|].
    split; [solve_offset 2%nat|]. split; [solve_offset 3%nat|].
    split; [intros _; repeat split; reflexivity|]. intros H. lia.
  - eexists _, _, _.
    split; [apply generateTreeLayout_body_ornament; exact Hge|].
    cbn [heap entropy drawn].
    split; [reflexivity|]. split; [reflexivity|]. split; [exact Hent|].
    split; [lia|].
    unfold generated_at, vector_refs.
    cbn [ParticleData.id ParticleData.type ParticleData.textureUrl
         ParticleData.color ParticleData.scale ParticleData.treePosition
         ParticleData.explodedPosition ParticleData.position
         ParticleData.targetPosition].
    rewrite <- Hlen, <- Hent.
    split; [reflexivity|]. split; [reflexivity|].
    exists (drawn w). split; [exact Hdrawn|].
    split; [solve_offset 0%nat|]. split; [solve_offset 1%nat|].
    split; [solve_offset 2%nat|]. split; [solve_offset 3%nat|].
    split; [intros H; lia|]. intros _.
    split; [|split; reflexivity].
    unfold ornament_kind.
    destruct (gtb _ 0.9); [reflexivity|].
    destruct (gtb _ 0.7); [reflexivity|].
    destruct (gtb _ 0.6); reflexivity.
Qed.

Lemma generateTreeLayout_loop_alloc (count : nat) (photoUrls : list string)
    (w0 : World) (todo : nat) :
  forall (i : nat) (particles : list ParticleData.t) (w : World),
    length (heap w) = (length (heap w0) + 4 * i)%nat ->
    entropy w = entropy w0 ->
    (drawn w0 <= drawn w)%nat ->
    exists (pushed : list ParticleData.t) (w' : World) (ext : list Vector3),
      generateTreeLayout_loop todo count photoUrls i particles w
      = Ok (particles ++ pushed, w')
      /\ length pushed = todo
      /\ heap w' = heap w ++ ext /\ length ext = (4 * todo)%nat
      /\ forall k p, pushed !! k = Some p ->
                     generated_at count photoUrls w0 (heap w') (i + k) p.
Proof.
  induction todo as [|todo IH]; intros i particles w Hlen Hent Hdrawn.
  - exists [], w, []. cbn [generateTreeLayout_loop]. rewrite !app_nil_r.
    split; [reflexivity|]. split; [reflexivity|]. split; [reflexivity|].
    split; [reflexivity|]. intros k p H. inversion H.
  - destruct (generateTreeLayout_body_alloc count photoUrls w0 i w Hlen Hent Hdrawn)
      as (p & w1 & ext1 & Hbody & Hheap1 & Hext1 & Hent1 & Hdrawn1 & Hgen).
    destruct (IH (S i) (particles ++ [p]) w1)
      as (pushed & w' & ext & Hloop & Hlen' & Hext & Hextlen & Hall).
    { rewrite Hheap1, length_app, Hlen, Hext1. lia. }
    { exact Hent1. }
    { lia. }
    exists (p :: pushed), w', (ext1 ++ ext). cbn [generateTreeLayout_loop].
    rewrite (bind_run _ _ _ _ _ Hbody), Hloop, <- app_assoc. cbn [app].
    split; [reflexivity|]. split; [cbn; lia|].
    split; [rewrite Hext, Hheap1, <- app_assoc; reflexivity|].
    split; [rewrite length_app; lia|].
    intros [|k] q Hq.
    + cbn in Hq. injection Hq as <-. rewrite Nat.add_0_r, Hext.
      apply generated_at_mono, Hgen.
    + cbn in Hq. replace (i + S k)%nat with (S i + k)%nat by lia.
      apply Hall, Hq.
Qed.

(** The generator call as a whole: it extends the heap by four vectors
    per particle, and its particles satisfy [generated_at]. *)
Lemma generateTreeLayout_alloc (count : nat) (photoUrls : list string) (w : World) :
  exists (particles : list ParticleData.t) (w' : World) (ext : list Vector3),
    generateTreeLayout count photoUrls w = Ok (particles, w')
    /\ length particles = count
    /\ heap w' = heap w ++ ext /\ length ext = (4 * count)%nat
    /\ forall i p, particles !! i = Some p ->
                   generated_at count photoUrls w (heap w') i p.
Proof.
  destruct (generateTreeLayout_loop_alloc count photoUrls w count 0%nat [] w)
    as (pushed & w' & ext & Hrun & Hlen & Hext & Hextlen & Hall); [lia|reflexivity|lia|].
  exists pushed, w', ext. unfold generateTreeLayout.
  split; [exact Hrun|]. split; [exact Hlen|]. split; [exact Hext|].
  split; [exact Hextlen|]. intros i p H. apply (Hall i p H).
Qed.

End layout_detail.

Section layout_properties.
Import THREE.

Lemma vector_refs_seq (p : ParticleData.t) (n : nat) :
  vector_refs p = seq n 4 ->
  ParticleData.treePosition p = n
  /\ ParticleData.explodedPosition p = S n
  /\ ParticleData.position p = S (S n)
  /\ ParticleData.targetPosition p = S (S (S n)).
Proof.
  unfold vector_refs. cbn [seq]. intros H.
  injection H as H0 H1 H2 H3. repeat split; assumption.
Qed.

Lemma ratio_bounds (i count : nat) :
  (i < count)%nat -> 0 <= INR i / INR count < 1.
Proof.
  intros H.
  assert (0 <= INR i) by apply pos_INR.
  assert (INR i < INR count) by (apply lt_INR; exact H).
  assert (0 < INR count) by lra.
  split.
  - unfold Rdiv. apply Rmult_le_pos; [assumption|].
    apply Rlt_le, Rinv_0_lt_compat. assumption.
  - apply (Rmult_lt_reg_r (INR count)); [assumption|].
    unfold Rdiv. rewrite Rmult_assoc, Rinv_l, Rmult_1_r, Rmult_1_l by lra.
    assumption.
Qed.

Lemma treePos_at_in_cone (count i : nat) (r : R) :
  (i < count)%nat -> 0 <= r < 1 ->
  let t := treePos_at count i r in
  let q := INR i / INR count in
  y t = 18 * q - 9
  /\ -9 <= y t < 9
  /\ sqrt (x t * x t + z t * z t) = 7 * (1 - q) + r * 0.5
  /\ 7 * (1 - q) <= sqrt (x t * x t + z t * z t) < 7 * (1 - q) + 0.5.
Proof.
  intros Hi Hr. cbn zeta.
  pose proof (ratio_bounds i count Hi) as Hq.
  unfold treePos_at, height, bottomRadius. cbn [x y z].
  set (q := INR i / INR count) in *.
  set (a := INR i * goldenAngle).
  assert (q * 18 / 18 = q) as -> by lra.
  assert (sqrt (cos a * (7 * (1 - q) + r * 0.5) * (cos a * (7 * (1 - q) + r * 0.5))
                + sin a * (7 * (1 - q) + r * 0.5) * (sin a * (7 * (1 - q) + r * 0.5)))
          = 7 * (1 - q) + r * 0.5) as Hrho.
  { pose proof (sin2_cos2 a) as Hsc. unfold Rsqr in Hsc.
    replace (cos a * (7 * (1 - q) + r * 0.5) * (cos a * (7 * (1 - q) + r * 0.5))
             + sin a * (7 * (1 - q) + r * 0.5) * (sin a * (7 * (1 - q) + r * 0.5)))
      with ((sin a * sin a + cos a * cos a)
            * ((7 * (1 - q) + r * 0.5) * (7 * (1 - q) + r * 0.5))) by ring.
    rewrite Hsc, Rmult_1_l. apply sqrt_square. lra. }
  rewrite Hrho. repeat split; lra.
Qed.

(** X9: as long as [Math.random()] returns values in [0, 1), every home
    position lies on the tree: its height is 18 i / count - 9, in [-9, 9),
    and its distance from the trunk axis is the cone radius 7 (1 - i/count)
    plus a jitter below 0.5. *)
Theorem generateTreeLayout_home_in_cone :
  forall (count : nat) (photoUrls : list string) (w : World),
    (forall n, 0 <= entropy w n < 1) ->
    exists (particles : list ParticleData.t) (w' : World),
      generateTreeLayout count photoUrls w = Ok (particles, w')
      /\ forall i p, particles !! i = Some p ->
           exists t : Vector3,
             heap w' !! ParticleData.treePosition p = Some t
             /\ y t = 18 * (INR i / INR count) - 9
             /\ -9 <= y t < 9
             /\ 7 * (1 - INR i / INR count)
                <= sqrt (x t * x t + z t * z t)
                < 7 * (1 - INR i / INR count) + 0.5.
Proof.
  intros count photoUrls w Hrange.
  destruct (generateTreeLayout_alloc count photoUrls w)
    as (particles & w' & ext & Hrun & Hlen & _ & _ & Hall).
  exists particles, w'. split; [exact Hrun|].
  intros i p Hp.
  destruct (Hall i p Hp) as (_ & Hrefs & d & _ & Htree & _).
  apply vector_refs_seq in Hrefs as (-> & _).
  eexists. split; [exact Htree|].
  assert (i < count)%nat as Hi by (rewrite <- Hlen; eapply lookup_lt_Some; exact Hp).
  destruct (treePos_at_in_cone count i (entropy w d) Hi (Hrange d))
    as (Hy & Hyb & _ & Hrho).
  split; [exact Hy|]. split; [exact Hyb|exact Hrho].
Qed.

Lemma generateTreeLayout_home_in_cone_witness :
  (forall n, 0 <= entropy canvas0 n < 1)
  /\ exists (particles : list ParticleData.t) (w' : World),
       generateTreeLayout 3 [] canvas0 = Ok (particles, w')
       /\ forall i p, particles !! i = Some p ->
            exists t : Vector3,
              heap w' !! ParticleData.treePosition p = Some t /\ -9 <= y t < 9.
Proof.
  assert (forall n, 0 <= entropy canvas0 n < 1) as Hrange.
  { intros n. cbn [canvas0 entropy]. unfold entropy0.
    destruct (n =? 2)%nat; lra. }
  split; [exact Hrange|].
  destruct (generateTreeLayout_home_in_cone 3 [] canvas0 Hrange)
    as (particles & w' & Hrun & Hall).
  exists particles, w'. split; [exact Hrun|].
  intros i p Hp. destruct (Hall i p Hp) as (t & Ht & _ & Hy & _).
  exists t. split; assumption.
Defined.

(** X10: the attributes of the generated particles hang together: a
    particle carries a texture handle exactly when it is a [PHOTO]; white
    is the tint of the photos and of nothing else; and every cube is gold. *)
Theorem generateTreeLayout_kinds :
  forall (count : nat) (photoUrls : list string) (w : World),
    exists (particles : list ParticleData.t) (w' : World),
      generateTreeLayout count photoUrls w = Ok (particles, w')
      /\ forall p, p ∈ particles ->
           (ParticleData.type p = PHOTO <-> is_Some (ParticleData.textureUrl p))
           /\ (ParticleData.type p = PHOTO <-> ParticleData.color p = WHITE)
           /\ (ParticleData.type p = CUBE -> ParticleData.color p = GOLD).
Proof.
  intros count photoUrls w.
  destruct (generateTreeLayout_alloc count photoUrls w)
    as (particles & w' & ext & Hrun & Hlen & _ & _ & Hall).
  exists particles, w'. split; [exact Hrun|].
  intros p Hin. apply list_elem_of_lookup in Hin as [i Hi].
  destruct (Hall i p Hi) as (_ & _ & d & _ & _ & _ & _ & _ & Hphoto & Horn).
  destruct (Nat.lt_ge_cases i (length photoUrls)) as [Hlt|Hge].
  - destruct (Hphoto Hlt) as (-> & -> & _ & ->).
    split; [|split; [tauto|discriminate]].
    split; [intros _; apply lookup_lt_is_Some_2; exact Hlt|reflexivity].
  - destruct (Horn Hge) as (Hkind & _ & ->).
    unfold ornament_kind in Hkind.
    destruct (gtb _ 0.9); [|destruct (gtb _ 0.7); [|destruct (gtb _ 0.6)]];
      injection Hkind as -> ->;
      (split; [split; [discriminate|intros [? H]; discriminate H]|]);
      (split; [split; discriminate|]); try discriminate; reflexivity.
Qed.

(** X11: as long as [Math.random()] returns values in [0, 1), every photo
    has scale 1.5 and every ornament a scale in [0.1, 0.4). *)
Theorem generateTreeLayout_scales :
  forall (count : nat) (photoUrls : list string) (w : World),
    (forall n, 0 <= entropy w n < 1) ->
    exists (particles : list ParticleData.t) (w' : World),
      generateTreeLayout count photoUrls w = Ok (particles, w')
      /\ forall p, p ∈ particles ->
           (ParticleData.type p = PHOTO -> ParticleData.scale p = 1.5)
           /\ (ParticleData.type p <> PHOTO -> 0.1 <= ParticleData.scale p < 0.4).
Proof.
  intros count photoUrls w Hrange.
  destruct (generateTreeLayout_alloc count photoUrls w)
    as (particles & w' & ext & Hrun & Hlen & _ & _ & Hall).
  exists particles, w'. split; [exact Hrun|].
  intros p Hin. apply list_elem_of_lookup in Hin as [i Hi].
  destruct (Hall i p Hi) as (_ & _ & d & _ & _ & _ & _ & _ & Hphoto & Horn).
  destruct (Nat.lt_ge_cases i (length photoUrls)) as [Hlt|Hge].
  - destruct (Hphoto Hlt) as (-> & _ & -> & _).
    split; [reflexivity|]. intros H. contradiction.
  - destruct (Horn Hge) as (Hkind & -> & _).
    pose proof (Hrange (S (S (S (S (S (S d))))))) as Hr.
    split; [|intros _; lra].
    intros Hty. exfalso. rewrite Hty in Hkind. unfold ornament_kind in Hkind.
    destruct (gtb _ 0.9); [|destruct (gtb _ 0.7); [|destruct (gtb _ 0.6)]];
      discriminate Hkind.
Qed.

Lemma generateTreeLayout_scales_witness :
  (forall n, 0 <= entropy canvas0 n < 1)
  /\ exists (particles : list ParticleData.t) (w' : World),
       generateTreeLayout 3 ["a"%string] canvas0 = Ok (particles, w')
       /\ forall p, p ∈ particles ->
            ParticleData.type p <> PHOTO -> 0.1 <= ParticleData.scale p < 0.4.
Proof.
  assert (forall n, 0 <= entropy canvas0 n < 1) as Hrange.
  { intros n. cbn [canvas0 entropy]. unfold entropy0.
    destruct (n =? 2)%nat; lra. }
  split; [exact Hrange|].
  destruct (generateTreeLayout_scales 3 ["a"%string] canvas0 Hrange)
    as (particles & w' & Hrun & Hall).
  exists particles, w'. split; [exact Hrun|].
  intros p Hp. apply (Hall p Hp).
Defined.

End layout_properties.

Section scene_particles.
Import THREE.

Lemma concat_vector_refs (particles : list ParticleData.t) :
  forall n : nat,
    (forall i p, particles !! i = Some p -> vector_refs p = seq (n + 4 * i) 4) ->
    concat (map vector_refs particles) = seq n (4 * length particles).
Proof.
  induction particles as [|p rest IH]; intros n Hall.
  - reflexivity.
  - cbn [map concat length].
    rewrite (Hall 0%nat p eq_refl), Nat.mul_0_r, Nat.add_0_r.
    rewrite (IH (n + 4)%nat).
    + replace (4 * S (length rest))%nat with (4 + 4 * length rest)%nat by lia.
      rewrite seq_app. reflexivity.
    + intros i q Hq. rewrite (Hall (S i) q Hq). f_equal. lia.
Qed.

(** X12: the generator allocates all its vectors afresh: the home,
    scatter, current and target vectors of all returned particles are
    pairwise distinct objects, exactly the cells added to the heap (four per
    particle); every vector that existed before the call keeps its value;
    and each particle's current position starts as a copy of its scatter
    position and its target position as a copy of its home position. *)
Theorem generateTreeLayout_fresh_vectors :
  forall (count : nat) (photoUrls : list string) (w : World),
    exists (particles : list ParticleData.t) (w' : World),
      generateTreeLayout count photoUrls w = Ok (particles, w')
      /\ concat (map vector_refs particles) = seq (length (heap w)) (4 * count)
      /\ NoDup (concat (map vector_refs particles))
      /\ length (heap w') = (length (heap w) + 4 * count)%nat
      /\ (forall r v, heap w !! r = Some v -> heap w' !! r = Some v)
      /\ forall p, p ∈ particles ->
           is_Some (heap w' !! ParticleData.explodedPosition p)
           /\ is_Some (heap w' !! ParticleData.treePosition p)
           /\ heap w' !! ParticleData.position p
              = heap w' !! ParticleData.explodedPosition p
           /\ heap w' !! ParticleData.targetPosition p
              = heap w' !! ParticleData.treePosition p.
Proof.
  intros count photoUrls w.
  destruct (generateTreeLayout_alloc count photoUrls w)
    as (particles & w' & ext & Hrun & Hlen & Hext & Hextlen & Hall).
  exists particles, w'. split; [exact Hrun|].
  assert (concat (map vector_refs particles) = seq (length (heap w)) (4 * count))
    as Hrefs.
  { rewrite <- Hlen. apply concat_vector_refs.
    intros i p Hp. apply (Hall i p Hp). }
  split; [exact Hrefs|].
  split; [rewrite Hrefs; apply NoDup_seq|].
  split; [rewrite Hext, length_app, Hextlen; reflexivity|].
  split; [intros r v Hr; rewrite Hext; apply lookup_app_l_Some; exact Hr|].
  intros p Hin. apply list_elem_of_lookup in Hin as [i Hi].
  destruct (Hall i p Hi) as (_ & Hp & d & _ & H0 & H1 & H2 & H3 & _).
  apply vector_refs_seq in Hp as (-> & -> & -> & ->).
  rewrite H0, H1, H2, H3. repeat split; eexists; reflexivity.
Qed.

Lemma mod_5_offset (i : nat) : ((i + 10000) mod 5 = i mod 5)%nat.
Proof.
  change 10000%nat with (2000 * 5)%nat. apply Nat.Div0.mod_add.
Qed.

(** X13: [photoParticles] returns one particle per photo handle, in
    order: the particle of index [i] is a white [PHOTO] of scale 1.5 bound
    to [photos[i]], with id [i + 10000], and it is a focus target of the
    photo animator ([id % 5 === 0]) exactly when [i] is a multiple of 5. *)
Theorem photoParticles_shape :
  forall (photos : list string) (w : World),
    exists (particles : list ParticleData.t) (w' : World),
      photoParticles photos w = Ok (particles, w')
      /\ length particles = length photos
      /\ forall i p, particles !! i = Some p ->
           ParticleData.id p = (i + 10000)%nat
           /\ ParticleData.type p = PHOTO
           /\ ParticleData.color p = WHITE
           /\ ParticleData.scale p = 1.5
           /\ ParticleData.textureUrl p = photos !! i
           /\ is_Some (photos !! i)
           /\ ((ParticleData.id p mod 5 =? 0)%nat = (i mod 5 =? 0)%nat).
Proof.
  intros photos w. unfold photoParticles.
  destruct (length photos =? 0)%nat eqn:E0.
  - apply Nat.eqb_eq in E0. exists [], w.
    split; [reflexivity|]. split; [symmetry; exact E0|].
    intros i p H. inversion H.
  - 
    destruct (generateTreeLayout_alloc (length photos) photos w)
      as (raw & w' & ext & Hrun & Hlen & _ & _ & Hall).
    rewrite (bind_run _ _ _ _ _ Hrun).
    eexists _, w'. split; [reflexivity|].
    split; [rewrite length_imap; exact Hlen|].
    intros i p Hp. rewrite list_lookup_imap in Hp.
    destruct (raw !! i) as [q|] eqn:Hq; [|discriminate Hp].
    cbn in Hp. injection Hp as <-.
    assert (i < length photos)%nat as Hi
      by (rewrite <- Hlen; eapply lookup_lt_Some; exact Hq).
    destruct (Hall i q Hq) as (_ & _ & d & _ & _ & _ & _ & _ & Hphoto & _).
    destruct (Hphoto Hi) as (_ & Hcol & _ & Hurl).
    cbn [ParticleData.id ParticleData.type ParticleData.color ParticleData.scale
         ParticleData.textureUrl].
    split; [reflexivity|]. split; [reflexivity|]. split; [exact Hcol|].
    split; [reflexivity|]. split; [exact Hurl|].
    split; [apply lookup_lt_is_Some_2; exact Hi|].
    rewrite mod_5_offset. reflexivity.
Qed.

Lemma filter_kinds_length (l : list ParticleData.t) :
  (forall p, p ∈ l -> ParticleData.type p <> PHOTO) ->
  (length (ChristmasScene.sphereOrnaments l)
   + length (ChristmasScene.cubeOrnaments l) = length l)%nat.
Proof.
  unfold ChristmasScene.sphereOrnaments, ChristmasScene.cubeOrnaments.
  induction l as [|p l IH]; intros H; [reflexivity|].
  cbn [List.filter].
  assert (ParticleData.type p <> PHOTO) as Hp by (apply H; left).
  assert (forall q, q ∈ l -> ParticleData.type q <> PHOTO) as Hl
    by (intros q Hq; apply H; right; exact Hq).
  specialize (IH Hl).
  destruct (ParticleData.type p); cbn [ParticleType_eqb length]; [lia|lia|congruence].
Qed.

(** X14: the 400 ornaments of the scene are split between the two
    instanced groups without loss or overlap: none is a [PHOTO], so each is
    in exactly one of [sphereOrnaments] and [cubeOrnaments], whose sizes add
    up to 400; and their ids stay below 400, apart from the photos' ids,
    which start at 10000. *)
Theorem ChristmasScene_ornaments_partition :
  forall w : World,
    exists (ornaments : list ParticleData.t) (w' : World),
      ChristmasScene.ornaments w = Ok (ornaments, w')
      /\ length ornaments = 400%nat
      /\ (length (ChristmasScene.sphereOrnaments ornaments)
          + length (ChristmasScene.cubeOrnaments ornaments) = 400)%nat
      /\ forall p, p ∈ ornaments ->
           (ParticleData.id p < 400)%nat
           /\ (p ∈ ChristmasScene.sphereOrnaments ornaments
               <-> ParticleData.type p = SPHERE)
           /\ (p ∈ ChristmasScene.cubeOrnaments ornaments
               <-> ParticleData.type p = CUBE)
           /\ (ParticleData.type p = SPHERE <-> ParticleData.type p <> CUBE).
Proof.
  intros w. unfold ChristmasScene.ornaments, ChristmasScene.ornamentCount.
  destruct (generateTreeLayout_alloc 400 [] w)
    as (ornaments & w' & ext & Hrun & Hlen & _ & _ & Hall).
  exists ornaments, w'. split; [exact Hrun|]. split; [exact Hlen|].
  assert (forall p, p ∈ ornaments -> ParticleData.type p <> PHOTO) as Hnophoto.
  { intros p Hin. apply list_elem_of_lookup in Hin as [i Hi].
    destruct (Hall i p Hi) as (_ & _ & d & _ & _ & _ & _ & _ & _ & Horn).
    destruct (Horn ltac:(cbn; lia)) as (Hkind & _).
    unfold ornament_kind in Hkind.
    destruct (gtb _ 0.9); [|destruct (gtb _ 0.7); [|destruct (gtb _ 0.6)]];
      injection Hkind as -> _; discriminate. }
  split; [rewrite <- Hlen; apply filter_kinds_length; exact Hnophoto|].
  intros p Hin. pose proof (Hnophoto p Hin) as Hp.
  split.
  { apply list_elem_of_lookup in Hin as [i Hi].
    destruct (Hall i p Hi) as (-> & _).
    rewrite <- Hlen. eapply lookup_lt_Some. exact Hi. }
  unfold ChristmasScene.sphereOrnaments, ChristmasScene.cubeOrnaments.
  apply list_elem_of_In in Hin.
  rewrite !list_elem_of_In, !filter_In.
  destruct (ParticleData.type p); cbn [ParticleType_eqb];
    (split; [|split]); split; intros; try tauto; try congruence;
    try discriminate; try (destruct H; discriminate).
Qed.

End scene_particles.

(** ** The photo animator, in every mode *)

Section photo_animator.
Import THREE.

(** One frame of a photo's animator in any mode, in closed form, for a
    mesh whose vectors are not the particle's stored ones. *)
Lemma SinglePhoto_useFrame_spec (particle : ParticleData.t) (appState : AppState)
    (mesh : Mesh.t) (state : RootState.t) (delta : R) (w : World)
    (vt ve mp ms vcam : Vector3) :
  let tree := ParticleData.treePosition particle in
  let expl := ParticleData.explodedPosition particle in
  let cam := RootState.camera_position state in
  heap w !! tree = Some vt ->
  heap w !! expl = Some ve ->
  heap w !! Mesh.position mesh = Some mp ->
  heap w !! Mesh.scale mesh = Some ms ->
  heap w !! cam = Some vcam ->
  tree <> expl ->
  Mesh.position mesh <> tree -> Mesh.position mesh <> expl ->
  Mesh.scale mesh <> tree -> Mesh.scale mesh <> expl ->
  Mesh.position mesh <> Mesh.scale mesh ->
  cam <> Mesh.position mesh -> cam <> Mesh.scale mesh ->
  let s := SinglePhoto_scale appState particle in
  exists w' : World,
    SinglePhoto.useFrame particle appState (Some mesh) state delta w
    = Ok (Some (Mesh.lookAt mesh (SinglePhoto_facing appState particle vcam)), w')
    /\ (length (heap w) <= length (heap w'))%nat
    /\ heap w' !! tree = Some vt
    /\ heap w' !! expl = Some (SinglePhoto_scatter_after appState state particle ve)
    /\ heap w' !! Mesh.position mesh
       = Some (Vector3.lerp_val mp (SinglePhoto_target appState state particle vt ve)
                                (delta * 3))
    /\ heap w' !! Mesh.scale mesh
       = Some (Vector3.lerp_val ms (Vec3 s s s) (delta * 2))
    /\ forall r v, r <> expl -> r <> Mesh.position mesh -> r <> Mesh.scale mesh ->
                   heap w !! r = Some v -> heap w' !! r = Some v.
Proof.
  intros tree expl cam Ht He Hmp Hms Hcam Hte Hpt Hpe Hst Hse Hps Hcp Hcs s.
  subst tree expl cam s.
  pose proof (lookup_lt_Some _ _ _ Ht) as Lt.
  pose proof (lookup_lt_Some _ _ _ He) as Le.
  pose proof (lookup_lt_Some _ _ _ Hmp) as Lmp.
  pose proof (lookup_lt_Some _ _ _ Hms) as Lms.
  pose proof (lookup_lt_Some _ _ _ Hcam) as Lcam.
  unfold SinglePhoto.useFrame, SinglePhoto_facing, SinglePhoto_target,
    SinglePhoto_scale, SinglePhoto_scatter_after, isFocusTarget.
  destruct appState.
  - (* TREE *)
    erewrite bind_run by reflexivity. cbn beta iota zeta.
    erewrite bind_run by (eapply lerp_run; heap_lookup).
    erewrite bind_run by apply new_Vector3_run.
    erewrite bind_run by (eapply lerp_run; heap_lookup).
    erewrite bind_run by reflexivity.
    eexists. split; [reflexivity|].
    cbn [heap with_heap Mesh.position Mesh.scale Mesh.lookAt]. split; [len_solve|].
    split; [heap_lookup|]. split; [heap_lookup|]. split; [heap_lookup|].
    split; [heap_lookup|].
    intros r v Hr1 Hr2 Hr3 Hr. pose proof (lookup_lt_Some _ _ _ Hr). heap_lookup.
  - (* EXPLODED *)
    erewrite bind_run; cycle 1.
    { erewrite bind_run by apply new_Vector3_run.
      erewrite bind_run by (eapply add_run; heap_lookup).
      reflexivity. }
    cbn beta iota zeta. fold (photo_noise state particle).
    erewrite bind_run by (eapply lerp_run; heap_lookup).
    erewrite bind_run by apply new_Vector3_run.
    erewrite bind_run by (eapply lerp_run; heap_lookup).
    erewrite bind_run by reflexivity.
    eexists. split; [reflexivity|].
    cbn [heap with_heap Mesh.position Mesh.scale Mesh.lookAt]. split; [len_solve|].
    split; [heap_lookup|]. split; [heap_lookup|]. split; [heap_lookup|].
    split; [heap_lookup|].
    intros r v Hr1 Hr2 Hr3 Hr. pose proof (lookup_lt_Some _ _ _ Hr). heap_lookup.
  - (* FOCUS *)
    destruct (ParticleData.id particle mod 5 =? 0)%nat.
    + erewrite bind_run; cycle 1.
      { erewrite bind_run by apply new_Vector3_run.
        erewrite bind_run by (eapply get_run; heap_lookup).
        reflexivity. }
      cbn beta iota zeta.
      erewrite bind_run by (eapply lerp_run; heap_lookup).
      erewrite bind_run by apply new_Vector3_run.
      erewrite bind_run by (eapply lerp_run; heap_lookup).
      erewrite bind_run; cycle 1.
      { erewrite bind_run by (eapply get_run; heap_lookup). reflexivity. }
      eexists. split; [reflexivity|].
      cbn [heap with_heap Mesh.position Mesh.scale Mesh.lookAt]. split; [len_solve|].
      split; [heap_lookup|]. split; [heap_lookup|]. split; [heap_lookup|].
      split; [heap_lookup|].
      intros r v Hr1 Hr2 Hr3 Hr. pose proof (lookup_lt_Some _ _ _ Hr). heap_lookup.
    + erewrite bind_run; cycle 1.
      { erewrite bind_run by (eapply clone_run; heap_lookup).
        erewrite bind_run by (eapply multiplyScalar_run; heap_lookup).
        reflexivity. }
      cbn beta iota zeta.
      erewrite bind_run by (eapply lerp_run; heap_lookup).
      erewrite bind_run by apply new_Vector3_run.
      erewrite bind_run by (eapply lerp_run; heap_lookup).
      erewrite bind_run by reflexivity.
      eexists. split; [reflexivity|].
      cbn [heap with_heap Mesh.position Mesh.scale Mesh.lookAt]. split; [len_solve|].
      split; [heap_lookup|]. split; [heap_lookup|]. split; [heap_lookup|].
      split; [heap_lookup|].
      intros r v Hr1 Hr2 Hr3 Hr. pose proof (lookup_lt_Some _ _ _ Hr). heap_lookup.
Qed.

End photo_animator.

Section photo_sessions.
Import THREE.

(** X15: in [FOCUS] mode a photo whose id is a multiple of 5 is pulled
    towards (0, 0, 15), grows towards scale 6 and is turned towards the
    camera; every other photo is pushed towards 1.5 times its scatter
    position, shrinks towards scale 1 and faces (0, 0, 30). Neither stored
    position is touched: here the scatter position is cloned before it is
    scaled. *)
Theorem SinglePhoto_useFrame_FOCUS :
  forall (particle : ParticleData.t) (mesh : Mesh.t) (state : RootState.t)
         (delta : R) (w : World) (vt ve mp ms vcam : Vector3),
    let tree := ParticleData.treePosition particle in
    let expl := ParticleData.explodedPosition particle in
    let cam := RootState.camera_position state in
    heap w !! tree = Some vt ->
    heap w !! expl = Some ve ->
    heap w !! Mesh.position mesh = Some mp ->
    heap w !! Mesh.scale mesh = Some ms ->
    heap w !! cam = Some vcam ->
    tree <> expl ->
    Mesh.position mesh <> tree -> Mesh.position mesh <> expl ->
    Mesh.scale mesh <> tree -> Mesh.scale mesh <> expl ->
    Mesh.position mesh <> Mesh.scale mesh ->
    cam <> Mesh.position mesh -> cam <> Mesh.scale mesh ->
    exists (mesh' : Mesh.t) (w' : World) (mp' ms' : Vector3),
      SinglePhoto.useFrame particle FOCUS (Some mesh) state delta w
      = Ok (Some mesh', w')
      /\ heap w' !! tree = Some vt
      /\ heap w' !! expl = Some ve
      /\ heap w' !! Mesh.position mesh = Some mp'
      /\ heap w' !! Mesh.scale mesh = Some ms'
      /\ ((ParticleData.id particle mod 5 = 0)%nat ->
          mp' = Vector3.lerp_val mp (Vec3 0 0 15) (delta * 3)
          /\ ms' = Vector3.lerp_val ms (Vec3 6 6 6) (delta * 2)
          /\ Mesh.facing mesh' = vcam)
      /\ ((ParticleData.id particle mod 5 <> 0)%nat ->
          mp' = Vector3.lerp_val mp (Vector3.multiplyScalar_val ve 1.5) (delta * 3)
          /\ ms' = Vector3.lerp_val ms (Vec3 1 1 1) (delta * 2)
          /\ Mesh.facing mesh' = Vec3 0 0 30).
Proof.
  intros particle mesh state delta w vt ve mp ms vcam tree expl cam
         Ht He Hmp Hms Hcam Hte Hpt Hpe Hst Hse Hps Hcp Hcs.
  destruct (SinglePhoto_useFrame_spec particle FOCUS mesh state delta w
              vt ve mp ms vcam Ht He Hmp Hms Hcam Hte Hpt Hpe Hst Hse Hps Hcp Hcs)
    as (w' & Hrun & _ & Ht' & He' & Hmp' & Hms' & _).
  eexists _, w', _, _. split; [exact Hrun|].
  split; [exact Ht'|]. split; [exact He'|].
  split; [exact Hmp'|]. split; [exact Hms'|].
  unfold SinglePhoto_target, SinglePhoto_scale, SinglePhoto_facing, isFocusTarget.
  cbn [Mesh.facing Mesh.lookAt].
  split; intros Hid.
  - apply Nat.eqb_eq in Hid. rewrite Hid. repeat split.
  - apply Nat.eqb_neq in Hid. rewrite Hid.
    replace 1.0 with 1 by lra. repeat split.
Qed.

Lemma SinglePhoto_useFrame_FOCUS_witness :
  exists (mesh' : Mesh.t) (w' : World),
    SinglePhoto.useFrame photo0 FOCUS (Some mesh0) frame0 (1 / 60) scene0
    = Ok (Some mesh', w')
    /\ heap w' !! 2%nat = Some (Vec3 25 0 0)
    /\ heap w' !! 5%nat
       = Some (Vector3.lerp_val (Vec3 7 (-9) 0) (Vec3 0 0 15) (1 / 60 * 3))
    /\ Mesh.facing mesh' = Vec3 0 0 25.
Proof.
  destruct (SinglePhoto_useFrame_FOCUS photo0 mesh0 frame0 (1 / 60) scene0
              (Vec3 7 (-9) 0) (Vec3 25 0 0) (Vec3 7 (-9) 0) (Vec3 1 1 1)
              (Vec3 0 0 25))
    as (mesh' & w' & mp' & ms' & Hrun & _ & He & Hmp & _ & Hfocus & _);
    try reflexivity; try (cbn; lia).
  destruct Hfocus as (-> & _ & Hfacing); [reflexivity|].
  exists mesh', w'. repeat split; assumption.
Defined.

Lemma photo_noise_bound (state : RootState.t) (p : ParticleData.t) :
  x (photo_noise state p) = 0 /\ z (photo_noise state p) = 0
  /\ Rabs (y (photo_noise state p)) <= 0.5.
Proof.
  unfold photo_noise. cbn [x y z].
  split; [reflexivity|]. split; [reflexivity|].
  pose proof (SIN_bound (RootState.elapsedTime state + INR (ParticleData.id p))).
  apply Rabs_le. lra.
Qed.

(** The invariant of a photo's session: the stored home position keeps
    its value, the stored scatter position keeps its [x] and [z], and its
    [y] has moved by at most 0.5 per [EXPLODED] frame. *)
Lemma SinglePhoto_run_frames_inv (particle : ParticleData.t) (frames : list Frame) :
  forall (mesh : Mesh.t) (w : World) (vt ve0 ve : Vector3) (k : nat),
    let tree := ParticleData.treePosition particle in
    let expl := ParticleData.explodedPosition particle in
    heap w !! tree = Some vt ->
    heap w !! expl = Some ve ->
    x ve = x ve0 -> z ve = z ve0 -> Rabs (y ve - y ve0) <= 0.5 * INR k ->
    (Mesh.position mesh < length (heap w))%nat ->
    (Mesh.scale mesh < length (heap w))%nat ->
    tree <> expl ->
    Mesh.position mesh <> tree -> Mesh.position mesh <> expl ->
    Mesh.scale mesh <> tree -> Mesh.scale mesh <> expl ->
    Mesh.position mesh <> Mesh.scale mesh ->
    (forall fr, fr ∈ frames ->
       let cam := RootState.camera_position (frame_state fr) in
       (cam < length (heap w))%nat
       /\ cam <> Mesh.position mesh /\ cam <> Mesh.scale mesh) ->
    exists (mesh' : Mesh.t) (w' : World) (ve' : Vector3),
      run_frames (SinglePhoto_frame particle) frames (Some mesh) w
      = Ok (Some mesh', w')
      /\ heap w' !! tree = Some vt
      /\ heap w' !! expl = Some ve'
      /\ x ve' = x ve0 /\ z ve' = z ve0
      /\ Rabs (y ve' - y ve0) <= 0.5 * INR (k + exploded_frames frames)
      /\ (exploded_frames frames = 0%nat -> ve' = ve).
Proof.
  induction frames as [|[[mode state] delta] frames IH];
    intros mesh w vt ve0 ve k tree expl Ht He Hx Hz Hy Lp Ls Hte Hpt Hpe Hst Hse
           Hps Hcams.
  - exists mesh, w, ve. cbn [run_frames]. unfold exploded_frames. cbn.
    rewrite Nat.add_0_r. repeat split; assumption.
  - destruct (lookup_lt_is_Some_2 _ _ Lp) as [mp Hmp].
    destruct (lookup_lt_is_Some_2 _ _ Ls) as [ms Hms].
    destruct (Hcams (mode, state, delta)) as (Lc & Hcp & Hcs); [left|].
    cbn [frame_state fst snd] in Lc, Hcp, Hcs.
    destruct (lookup_lt_is_Some_2 _ _ Lc) as [vcam Hvcam].
    destruct (SinglePhoto_useFrame_spec particle mode mesh state delta w
                vt ve mp ms vcam Ht He Hmp Hms Hvcam Hte Hpt Hpe Hst Hse Hps Hcp Hcs)
      as (w1 & Hrun & Hlen & Ht1 & He1 & Hmp1 & Hms1 & _).
    set (ve1 := SinglePhoto_scatter_after mode state particle ve) in *.
    set (k1 := if AppState_eqb mode EXPLODED then S k else k).
    assert (x ve1 = x ve0 /\ z ve1 = z ve0
            /\ Rabs (y ve1 - y ve0) <= 0.5 * INR k1
            /\ (AppState_eqb mode EXPLODED = false -> ve1 = ve)) as (Hx1 & Hz1 & Hy1 & Hsame).
    { subst ve1 k1. destruct (photo_noise_bound state particle) as (Hnx & Hnz & Hny).
      destruct mode; cbn [SinglePhoto_scatter_after AppState_eqb];
        try (repeat split; assumption).
      unfold Vector3.add_val. cbn [x y z]. rewrite Hnx, Hnz.
      split; [lra|]. split; [lra|]. split; [|discriminate].
      rewrite S_INR.
      replace (y ve + y (photo_noise state particle) - y ve0)
        with ((y ve - y ve0) + y (photo_noise state particle)) by ring.
      eapply Rle_trans; [apply Rabs_triang|]. lra. }
    destruct (IH (Mesh.lookAt mesh (SinglePhoto_facing mode particle vcam)) w1
                 vt ve0 ve1 k1)
      as (mesh' & w' & ve' & Hloop & Ht' & He' & Hx' & Hz' & Hy' & Hsame');
      try assumption.
    { cbn [Mesh.position Mesh.lookAt]. lia. }
    { cbn [Mesh.scale Mesh.lookAt]. lia. }
    { intros fr Hfr. destruct (Hcams fr) as (? & ? & ?); [right; exact Hfr|].
      cbn [Mesh.position Mesh.scale Mesh.lookAt]. repeat split; [lia|assumption..]. }
    exists mesh', w', ve'. cbn [run_frames].
    unfold SinglePhoto_frame at 1. cbn [frame_mode frame_state frame_delta fst snd].
    rewrite (bind_run _ _ _ _ _ Hrun).
    split; [exact Hloop|]. split; [exact Ht'|]. split; [exact He'|].
    split; [exact Hx'|]. split; [exact Hz'|].
    unfold exploded_frames in *. cbn [List.filter frame_mode fst].
    subst k1. destruct (AppState_eqb mode EXPLODED) eqn:Em; cbn [length].
    + split; [|discriminate].
      replace (k + S (length (List.filter
                 (fun fr => AppState_eqb (frame_mode fr) EXPLODED) frames)))%nat
        with (S k + length (List.filter
                 (fun fr => AppState_eqb (frame_mode fr) EXPLODED) frames))%nat by lia.
      exact Hy'.
    + split; [exact Hy'|]. intros H0. rewrite (Hsame' H0). apply Hsame. reflexivity.
Qed.

End photo_sessions.

Section photo_session_theorem.
Import THREE.

(** Mounting a photo and animating it through any frames. *)
Lemma SinglePhoto_mount_session :
  forall (particle : ParticleData.t) (frames : list Frame) (w : World)
         (vt ve : Vector3),
    let tree := ParticleData.treePosition particle in
    let expl := ParticleData.explodedPosition particle in
    heap w !! tree = Some vt ->
    heap w !! expl = Some ve ->
    tree <> expl ->
    (forall fr, fr ∈ frames ->
       (RootState.camera_position (frame_state fr) < length (heap w))%nat) ->
    exists (mesh : Mesh.t) (w1 : World) (mesh' : Mesh.t) (w2 : World) (ve' : Vector3),
      SinglePhoto.mount particle w = Ok (mesh, w1)
      /\ run_frames (SinglePhoto_frame particle) frames (Some mesh) w1
         = Ok (Some mesh', w2)
      /\ heap w2 !! tree = Some vt
      /\ heap w2 !! expl = Some ve'
      /\ x ve' = x ve /\ z ve' = z ve
      /\ Rabs (y ve' - y ve) <= 0.5 * INR (exploded_frames frames)
      /\ (exploded_frames frames = 0%nat -> ve' = ve).
Proof.
  intros particle frames w vt ve tree expl Ht He Hte Hcams.
  pose proof (lookup_lt_Some _ _ _ Ht) as Lt.
  pose proof (lookup_lt_Some _ _ _ He) as Le.
  unfold SinglePhoto.mount.
  erewrite bind_run by (apply clone_run; exact Ht).
  erewrite bind_run by apply new_Vector3_run.
  cbn [heap with_heap].
  set (mesh := Mesh.mk (length (heap w)) (length (heap w ++ [vt])) (Vec3 0 0 1)).
  set (w1 := with_heap (with_heap w (heap w ++ [vt]))
                       ((heap w ++ [vt]) ++ [Vec3 1 1 1])).
  assert (heap w1 !! tree = Some vt) as Ht1
    by (subst w1; cbn [heap with_heap];
        apply lookup_app_l_Some, lookup_app_l_Some; exact Ht).
  assert (heap w1 !! expl = Some ve) as He1
    by (subst w1; cbn [heap with_heap];
        apply lookup_app_l_Some, lookup_app_l_Some; exact He).
  assert (length (heap w1) = S (S (length (heap w)))) as Hlen1
    by (subst w1; cbn [heap with_heap]; rewrite !length_app; cbn [length]; lia).
  assert (Mesh.position mesh = length (heap w)) as Hp by reflexivity.
  assert (Mesh.scale mesh = S (length (heap w))) as Hs
    by (subst mesh; cbn [Mesh.scale]; rewrite length_app; cbn [length]; lia).
  assert (Rabs (y ve - y ve) <= 0.5 * INR 0) as Hy0
    by (rewrite Rminus_diag, Rabs_R0; cbn [INR]; lra).
  destruct (SinglePhoto_run_frames_inv particle frames mesh w1 vt ve ve 0%nat
              Ht1 He1 eq_refl eq_refl Hy0)
    as (mesh' & w2 & ve' & Hrun & Ht' & He' & Hx & Hz & Hy & Hsame).
  - rewrite Hp, Hlen1. lia.
  - rewrite Hs, Hlen1. lia.
  - exact Hte.
  - rewrite Hp. fold tree. lia.
  - rewrite Hp. fold expl. lia.
  - rewrite Hs. fold tree. lia.
  - rewrite Hs. fold expl. lia.
  - rewrite Hp, Hs. lia.
  - intros fr Hfr. specialize (Hcams fr Hfr). cbn zeta.
    rewrite Hp, Hs, Hlen1. lia.
  - eexists mesh, w1, mesh', w2, ve'. split; [reflexivity|].
    repeat split; assumption.
Qed.

(** X16: a photo that is mounted and then animated through any sequence
    of frames, in any modes, always gets its frame computed, and its stored
    home position never changes. Its stored scatter position keeps its [x]
    and [z] and changes in [y] only: by at most 0.5 for each frame rendered
    in [EXPLODED] mode, and not at all when there is no such frame. *)
Theorem SinglePhoto_session_stored_positions :
  forall (particle : ParticleData.t) (frames : list Frame) (w : World)
         (vt ve : Vector3),
    let tree := ParticleData.treePosition particle in
    let expl := ParticleData.explodedPosition particle in
    heap w !! tree = Some vt ->
    heap w !! expl = Some ve ->
    tree <> expl ->
    (forall fr, fr ∈ frames ->
       (RootState.camera_position (frame_state fr) < length (heap w))%nat) ->
    exists (mesh : Mesh.t) (w1 : World) (mesh' : Mesh.t) (w2 : World) (ve' : Vector3),
      SinglePhoto.mount particle w = Ok (mesh, w1)
      /\ run_frames (SinglePhoto_frame particle) frames (Some mesh) w1
         = Ok (Some mesh', w2)
      /\ heap w2 !! tree = Some vt
      /\ heap w2 !! expl = Some ve'
      /\ x ve' = x ve /\ z ve' = z ve
      /\ Rabs (y ve' - y ve) <= 0.5 * INR (exploded_frames frames)
      /\ (exploded_frames frames = 0%nat -> ve' = ve).
Proof.
  intros particle frames w vt ve tree expl Ht He Hte Hcams.
  apply SinglePhoto_mount_session; assumption.
Qed.

Lemma SinglePhoto_session_stored_positions_witness :
  exists (mesh' : Mesh.t) (w2 : World) (ve' : Vector3),
    run_frames (SinglePhoto_frame photo0)
               [(EXPLODED, frame0, 1 / 60); (FOCUS, frame0, 1 / 60)]
               (Some mesh0) scene0
    = Ok (Some mesh', w2)
    /\ heap w2 !! 1%nat = Some (Vec3 7 (-9) 0)
    /\ heap w2 !! 2%nat = Some ve'
    /\ x ve' = 25 /\ z ve' = 0
    /\ Rabs (y ve' - 0) <= 0.5 * INR 1.
Proof.
  destruct (SinglePhoto_session_stored_positions photo0
              [(EXPLODED, frame0, 1 / 60); (FOCUS, frame0, 1 / 60)]
              photo_layout0 (Vec3 7 (-9) 0) (Vec3 25 0 0))
    as (mesh & w1 & mesh' & w2 & ve' & Hmount & Hrun & Ht & He & Hx & Hz & Hy & _).
  - reflexivity.
  - reflexivity.
  - cbn. lia.
  - intros fr Hfr.
    repeat (apply elem_of_cons in Hfr as [-> | Hfr]; [cbn; lia|]).
    inversion Hfr.
  - rewrite mesh0_is_mounted in Hmount. injection Hmount as <- <-.
    exists mesh', w2, ve'. repeat split; assumption.
Defined.

End photo_session_theorem.

(** ** The camera controller *)

Section camera.
Import THREE.

(** One frame of the camera controller, in closed form: it returns, moves
    the camera position by [CameraController_step], allocates at most the
    home vector and writes to no other object. *)
Lemma CameraController_useFrame_spec (appState : AppState) (gesture : HandGesture.t)
    (camera : Camera.t) (state : RootState.t) (delta : R) (w : World) (v : Vector3) :
  heap w !! Camera.position camera = Some v ->
  exists (camera' : Camera.t) (w' : World),
    CameraController.useFrame appState gesture camera state delta w = Ok (camera', w')
    /\ Camera.position camera' = Camera.position camera
    /\ Camera.facing camera'
       = match appState with FOCUS => Camera.facing camera | _ => Vec3 0 0 0 end
    /\ heap w' !! Camera.position camera
       = Some (CameraController_step appState gesture delta v)
    /\ (forall r u, r <> Camera.position camera ->
                    heap w !! r = Some u -> heap w' !! r = Some u).
Proof.
  intros Hv. pose proof (lookup_lt_Some _ _ _ Hv) as Lv.
  destruct camera as [pos facing]. cbn [Camera.position Camera.facing] in *.
  destruct appState; unfold CameraController.useFrame;
    cbn [Camera.position Camera.facing Camera.lookAt].
  - erewrite bind_run by apply new_Vector3_run.
    erewrite bind_run by (eapply lerp_run; heap_lookup).
    eexists _, _. split; [reflexivity|].
    cbn [Camera.position Camera.facing CameraController_step].
    split; [reflexivity|]. split; [reflexivity|]. split.
    + heap_lookup.
    + intros r u Hr Hu. pose proof (lookup_lt_Some _ _ _ Hu). heap_lookup.
  - unfold CameraController.add_x, CameraController.add_y.
    erewrite bind_run
      by (erewrite bind_run by (apply get_run; exact Hv);
          eapply put_run; exact Hv).
    erewrite bind_run
      by (erewrite bind_run by (apply get_run; heap_lookup);
          eapply put_run; heap_lookup).
    eexists _, _. split; [reflexivity|].
    cbn [Camera.position Camera.facing CameraController_step x y z].
    split; [reflexivity|]. split; [reflexivity|]. split.
    + unfold pointer_target. heap_lookup.
    + intros r u Hr Hu. heap_lookup.
  - exists (Camera.mk pos facing), w. split; [reflexivity|].
    split; [reflexivity|]. split; [reflexivity|]. split; [exact Hv|]. auto.
Qed.

(** A session of the camera controller returns, and the camera position is
    what [CameraController_step], folded over the frames, makes of it. *)
Lemma CameraController_run_frames (frames : list CameraFrame) :
  forall (camera : Camera.t) (w : World) (v : Vector3),
    heap w !! Camera.position camera = Some v ->
    exists (camera' : Camera.t) (w' : World),
      run_frames CameraController_frame frames camera w = Ok (camera', w')
      /\ Camera.position camera' = Camera.position camera
      /\ heap w' !! Camera.position camera
         = Some (fold_left (fun u fr =>
                   CameraController_step (frame_mode (fst fr)) (snd fr)
                                         (frame_delta (fst fr)) u) frames v)
      /\ (forall r u, r <> Camera.position camera ->
                      heap w !! r = Some u -> heap w' !! r = Some u).
Proof.
  induction frames as [|fr rest IH]; intros camera w v Hv.
  - exists camera, w. split; [reflexivity|]. split; [reflexivity|].
    split; [exact Hv|]. auto.
  - destruct (CameraController_useFrame_spec (frame_mode (fst fr)) (snd fr) camera
                (frame_state (fst fr)) (frame_delta (fst fr)) w v Hv)
      as (c1 & w1 & Hrun & Hpos & _ & Hv1 & Hkeep1).
    rewrite <- Hpos in Hv1.
    destruct (IH c1 w1 _ Hv1) as (c2 & w2 & Hrest & Hpos2 & Hv2 & Hkeep2).
    exists c2, w2. cbn [run_frames]. unfold CameraController_frame at 1.
    rewrite (bind_run _ _ _ _ _ Hrun).
    split; [exact Hrest|]. split; [congruence|].
    rewrite Hpos in Hv2, Hkeep2. split; [exact Hv2|].
    intros r u Hr Hu. apply Hkeep2; [exact Hr|]. apply Hkeep1; assumption.
Qed.

Lemma CameraController_step_depth (appState : AppState) (gesture : HandGesture.t)
    (delta : R) (v : Vector3) :
  z v = 25 -> z (CameraController_step appState gesture delta v) = 25.
Proof.
  intros Hz. destruct appState; cbn [CameraController_step Vector3.lerp_val x y z].
  - rewrite Hz. lra.
  - exact Hz.
  - exact Hz.
Qed.

Lemma CameraController_step_bounds (appState : AppState) (gesture : HandGesture.t)
    (delta : R) (v : Vector3) :
  0 <= delta <= 0.5 ->
  0 <= Point2.x (HandGesture.handPosition gesture) <= 1 ->
  0 <= Point2.y (HandGesture.handPosition gesture) <= 1 ->
  -4 <= x v <= 4 -> -4 <= y v <= 4 ->
  -4 <= x (CameraController_step appState gesture delta v) <= 4
  /\ -4 <= y (CameraController_step appState gesture delta v) <= 4.
Proof.
  intros Hd Hx Hy Hvx Hvy.
  destruct appState;
    cbn [CameraController_step Vector3.lerp_val x y z]; unfold pointer_target.
  - repeat split; nra.
  - repeat split; nra.
  - repeat split; lra.
Qed.

(** X17: the camera stays at the depth the [Canvas] put it at.  Whatever
    the modes, pointer positions and frame times of a session, the camera
    controller returns in every frame, the camera keeps its position object,
    its [z] coordinate is still [25] afterwards, and no other object that
    existed before the session is written to. *)
Theorem CameraController_session_depth :
  forall (frames : list CameraFrame) (camera : Camera.t) (w : World) (v : Vector3),
    heap w !! Camera.position camera = Some v ->
    z v = 25 ->
    exists (camera' : Camera.t) (w' : World) (v' : Vector3),
      run_frames CameraController_frame frames camera w = Ok (camera', w')
      /\ Camera.position camera' = Camera.position camera
      /\ heap w' !! Camera.position camera = Some v'
      /\ z v' = 25
      /\ (forall r u, r <> Camera.position camera ->
                      heap w !! r = Some u -> heap w' !! r = Some u).
Proof.
  intros frames camera w v Hv Hz.
  destruct (CameraController_run_frames frames camera w v Hv)
    as (camera' & w' & Hrun & Hpos & Hv' & Hkeep).
  eexists camera', w', _. split; [exact Hrun|]. split; [exact Hpos|].
  split; [exact Hv'|]. split; [|exact Hkeep].
  clear Hrun Hv' Hkeep Hv. revert v Hz.
  induction frames as [|fr rest IH]; intros v Hz; cbn [fold_left].
  - exact Hz.
  - apply IH. apply CameraController_step_depth. exact Hz.
Qed.

Lemma CameraController_session_depth_witness :
  exists (camera' : Camera.t) (w' : World) (v' : Vector3),
    run_frames CameraController_frame
      [((EXPLODED, frame0, 1 / 60), HandGesture.mk false true false (Point2.mk 1 0) 0);
       ((TREE, frame0, 1 / 60), HandGesture.mk true false false (Point2.mk 1 0) 0)]
      camera0 canvas0
    = Ok (camera', w')
    /\ Camera.position camera' = 0%nat
    /\ heap w' !! 0%nat = Some v'
    /\ z v' = 25
    /\ (forall r u, r <> 0%nat -> heap canvas0 !! r = Some u -> heap w' !! r = Some u).
Proof.
  apply (CameraController_session_depth _ camera0 canvas0
           (Vec3 0 0 25)); reflexivity.
Defined.

(** X18: with the pointer inside the image ([0 <= x, y <= 1]) and frames
    no longer than half a second, the camera never leaves the square
    [-4 <= x, y <= 4] around the axis of the tree once it is in it. *)
Theorem CameraController_session_bounds :
  forall (frames : list CameraFrame) (camera : Camera.t) (w : World) (v : Vector3),
    heap w !! Camera.position camera = Some v ->
    -4 <= x v <= 4 -> -4 <= y v <= 4 ->
    (forall fr, fr ∈ frames ->
       0 <= frame_delta (fst fr) <= 0.5
       /\ 0 <= Point2.x (HandGesture.handPosition (snd fr)) <= 1
       /\ 0 <= Point2.y (HandGesture.handPosition (snd fr)) <= 1) ->
    exists (camera' : Camera.t) (w' : World) (v' : Vector3),
      run_frames CameraController_frame frames camera w = Ok (camera', w')
      /\ heap w' !! Camera.position camera' = Some v'
      /\ -4 <= x v' <= 4 /\ -4 <= y v' <= 4.
Proof.
  intros frames camera w v Hv Hx Hy Hframes.
  destruct (CameraController_run_frames frames camera w v Hv)
    as (camera' & w' & Hrun & Hpos & Hv' & _).
  eexists camera', w', _. split; [exact Hrun|]. rewrite Hpos.
  split; [exact Hv'|].
  clear Hrun Hv' Hv. revert v Hx Hy.
  induction frames as [|fr rest IH]; intros v Hx Hy; cbn [fold_left].
  - split; assumption.
  - destruct (Hframes fr) as (Hd & Hhx & Hhy); [left|].
    destruct (CameraController_step_bounds (frame_mode (fst fr)) (snd fr)
                (frame_delta (fst fr)) v Hd Hhx Hhy Hx Hy) as (Hx1 & Hy1).
    apply IH; [|assumption..].
    intros fr' Hfr'. apply Hframes. right. exact Hfr'.
Qed.

Lemma CameraController_session_bounds_witness :
  exists (camera' : Camera.t) (w' : World) (v' : Vector3),
    run_frames CameraController_frame
      [((EXPLODED, frame0, 1 / 60), HandGesture.mk false true false (Point2.mk 1 0) 0);
       ((TREE, frame0, 1 / 60), HandGesture.mk true false false (Point2.mk 1 0) 0)]
      camera0 canvas0
    = Ok (camera', w')
    /\ heap w' !! Camera.position camera' = Some v'
    /\ -4 <= x v' <= 4 /\ -4 <= y v' <= 4.
Proof.
  apply (CameraController_session_bounds _ camera0 canvas0
           (Vec3 0 0 25)).
  - reflexivity.
  - cbn [x]. lra.
  - cbn [y]. lra.
  - intros fr Hfr. apply list_elem_of_In in Hfr.
    destruct Hfr as [<-|[<-|[]]];
      cbn [fst snd frame_delta HandGesture.handPosition Point2.x Point2.y]; lra.
Defined.

(** X19: while the mode is [EXPLODED] and the hand holds still, the camera
    chases the pointer geometrically: after [n] frames of length [delta] the
    offset of its [x] and [y] from the pointer target is the initial offset
    times [(1 - 2 * delta) ^ n], and its depth has not changed.  (So it
    overshoots the target when a frame is longer than half a second.) *)
Theorem CameraController_EXPLODED_tracks_pointer :
  forall (frames : list CameraFrame) (gesture : HandGesture.t) (delta : R)
         (camera : Camera.t) (w : World) (v : Vector3),
    heap w !! Camera.position camera = Some v ->
    (forall fr, fr ∈ frames ->
       frame_mode (fst fr) = EXPLODED /\ snd fr = gesture
       /\ frame_delta (fst fr) = delta) ->
    exists (camera' : Camera.t) (w' : World) (v' : Vector3),
      run_frames CameraController_frame frames camera w = Ok (camera', w')
      /\ heap w' !! Camera.position camera' = Some v'
      /\ x v' - pointer_target (Point2.x (HandGesture.handPosition gesture))
         = (1 - 2 * delta) ^ length frames
           * (x v - pointer_target (Point2.x (HandGesture.handPosition gesture)))
      /\ y v' - pointer_target (Point2.y (HandGesture.handPosition gesture))
         = (1 - 2 * delta) ^ length frames
           * (y v - pointer_target (Point2.y (HandGesture.handPosition gesture)))
      /\ z v' = z v.
Proof.
  intros frames gesture delta camera w v Hv Hframes.
  destruct (CameraController_run_frames frames camera w v Hv)
    as (camera' & w' & Hrun & Hpos & Hv' & _).
  eexists camera', w', _. split; [exact Hrun|]. rewrite Hpos.
  split; [exact Hv'|].
  clear Hrun Hv' Hv. revert v.
  induction frames as [|fr rest IH]; intros v; cbn [fold_left length pow].
  - repeat split; ring.
  - destruct (Hframes fr) as (-> & -> & ->); [left|].
    destruct (IH (fun fr' H => Hframes fr' (list_elem_of_further _ _ _ H))
                 (CameraController_step EXPLODED gesture delta v))
      as (-> & -> & ->).
    cbn [CameraController_step x y z]. repeat split; ring.
Qed.

Lemma CameraController_EXPLODED_tracks_pointer_witness :
  exists (camera' : Camera.t) (w' : World) (v' : Vector3),
    run_frames CameraController_frame
      [((EXPLODED, frame0, 1 / 4), HandGesture.mk false true false (Point2.mk 1 0) 0);
       ((EXPLODED, frame0, 1 / 4), HandGesture.mk false true false (Point2.mk 1 0) 0)]
      camera0 canvas0
    = Ok (camera', w')
    /\ heap w' !! Camera.position camera' = Some v'
    /\ x v' - pointer_target 1 = (1 - 2 * (1 / 4)) ^ 2 * (0 - pointer_target 1)
    /\ y v' - pointer_target 0 = (1 - 2 * (1 / 4)) ^ 2 * (0 - pointer_target 0)
    /\ z v' = 25.
Proof.
  apply (CameraController_EXPLODED_tracks_pointer
           [((EXPLODED, frame0, 1 / 4), HandGesture.mk false true false (Point2.mk 1 0) 0);
            ((EXPLODED, frame0, 1 / 4), HandGesture.mk false true false (Point2.mk 1 0) 0)]
           (HandGesture.mk false true false (Point2.mk 1 0) 0) (1 / 4)
           camera0 canvas0 (Vec3 0 0 25)).
  - reflexivity.
  - intros fr Hfr. apply list_elem_of_In in Hfr.
    destruct Hfr as [<-|[<-|[]]]; repeat split; reflexivity.
Defined.

(** X20: while the mode is [TREE] the camera returns to its home
    [(0, 0, 25)] by repeated interpolation: after [n] frames of length
    [delta] its position is the [n]-fold interpolation towards home, so its
    distance from home is the initial distance times [|1 - delta| ^ n],
    whatever the hand does. *)
Theorem CameraController_TREE_returns_home :
  forall (frames : list CameraFrame) (delta : R)
         (camera : Camera.t) (w : World) (v : Vector3),
    heap w !! Camera.position camera = Some v ->
    (forall fr, fr ∈ frames ->
       frame_mode (fst fr) = TREE /\ frame_delta (fst fr) = delta) ->
    exists (camera' : Camera.t) (w' : World),
      run_frames CameraController_frame frames camera w = Ok (camera', w')
      /\ heap w' !! Camera.position camera'
         = Some (lerp_iter (length frames) v (Vec3 0 0 25) delta)
      /\ Vector3.distance (lerp_iter (length frames) v (Vec3 0 0 25) delta)
                          (Vec3 0 0 25)
         = Rabs (1 - delta) ^ length frames * Vector3.distance v (Vec3 0 0 25).
Proof.
  intros frames delta camera w v Hv Hframes.
  destruct (CameraController_run_frames frames camera w v Hv)
    as (camera' & w' & Hrun & Hpos & Hv' & _).
  exists camera', w'. split; [exact Hrun|]. rewrite Hpos.
  split; [|apply lerp_iter_distance].
  rewrite Hv'. f_equal.
  clear Hrun Hv' Hv. revert v.
  induction frames as [|fr rest IH]; intros v; cbn [fold_left length].
  - reflexivity.
  - destruct (Hframes fr) as (-> & ->); [left|].
    rewrite (IH (fun fr' H => Hframes fr' (list_elem_of_further _ _ _ H))).
    cbn [CameraController_step]. apply lerp_iter_shift.
Qed.

Lemma CameraController_TREE_returns_home_witness :
  exists (camera' : Camera.t) (w' : World),
    run_frames CameraController_frame
      [((TREE, frame0, 1 / 4), HandGesture.mk true false false (Point2.mk 1 0) 0);
       ((TREE, frame0, 1 / 4), HandGesture.mk true false false (Point2.mk 0 1) 0)]
      camera0 steered_canvas
    = Ok (camera', w')
    /\ heap w' !! Camera.position camera' = Some (Vec3 2.25 (-2.25) 25)
    /\ Vector3.distance (Vec3 2.25 (-2.25) 25) (Vec3 0 0 25)
       = Rabs (1 - 1 / 4) ^ 2 * Vector3.distance (Vec3 4 (-4) 25) (Vec3 0 0 25).
Proof.
  assert (lerp_iter 2 (Vec3 4 (-4) 25) (Vec3 0 0 25) (1 / 4) = Vec3 2.25 (-2.25) 25)
    as Hval.
  { unfold lerp_iter, Vector3.lerp_val. cbn [Nat.iter nat_rect x y z].
    f_equal; lra. }
  destruct (CameraController_TREE_returns_home
              [((TREE, frame0, 1 / 4), HandGesture.mk true false false (Point2.mk 1 0) 0);
               ((TREE, frame0, 1 / 4), HandGesture.mk true false false (Point2.mk 0 1) 0)]
              (1 / 4) camera0 steered_canvas (Vec3 4 (-4) 25))
    as (camera' & w' & Hrun & Hpos & Hdist).
  - reflexivity.
  - intros fr Hfr. apply list_elem_of_In in Hfr.
    destruct Hfr as [<-|[<-|[]]]; split; reflexivity.
  - cbn [length] in Hpos, Hdist. rewrite Hval in Hpos, Hdist.
    exists camera', w'. split; [exact Hrun|]. split; [exact Hpos|exact Hdist].
Defined.

End camera.

(** ** The ornament animator in every mode *)

Section ornament_animator.
Import THREE.

(** The target of a particle in a frame: where the code finds or builds
    it, and its value.  In [EXPLODED] and [FOCUS] mode it is a fresh clone;
    nothing that existed before is written to. *)
Lemma ParticleGroup_target_run (appState : AppState) (state : RootState.t)
    (particle : ParticleData.t) (w : World) (vt ve : Vector3) :
  heap w !! ParticleData.treePosition particle = Some vt ->
  heap w !! ParticleData.explodedPosition particle = Some ve ->
  exists (target : Ref) (w0 : World),
    (match appState with
     | TREE => ret (ParticleData.treePosition particle)
     | EXPLODED =>
         let* target' := Vector3.clone (ParticleData.explodedPosition particle) in
         let* noise :=
           new_Vector3
             (sin (RootState.elapsedTime state + INR (ParticleData.id particle)) * 0.5)
             (cos (RootState.elapsedTime state * 0.8
                   + INR (ParticleData.id particle)) * 0.5) 0 in
         Vector3.add target' noise
     | FOCUS =>
         let* target' := Vector3.clone (ParticleData.explodedPosition particle) in
         Vector3.multiplyScalar target' 1.5
     end) w = Ok (target, w0)
    /\ (length (heap w) <= length (heap w0))%nat
    /\ heap w0 !! target = Some (ParticleGroup_target appState state particle vt ve)
    /\ (forall r v, heap w !! r = Some v -> heap w0 !! r = Some v).
Proof.
  intros Hvt Hve. destruct appState.
  - exists (ParticleData.treePosition particle), w.
    split; [reflexivity|]. split; [lia|]. split; [exact Hvt|]. auto.
  - eexists _, _. split.
    + erewrite bind_run by (apply clone_run; exact Hve).
      erewrite bind_run by apply new_Vector3_run.
      eapply add_run; heap_lookup.
    + cbn [heap with_heap]. split; [len_solve|]. split.
      * rewrite list_lookup_insert_eq by len_solve. reflexivity.
      * intros r v Hr. pose proof (lookup_lt_Some _ _ _ Hr). heap_lookup.
  - eexists _, _. split.
    + erewrite bind_run by (apply clone_run; exact Hve).
      eapply multiplyScalar_run; heap_lookup.
    + cbn [heap with_heap]. split; [len_solve|]. split.
      * rewrite list_lookup_insert_eq by len_solve. reflexivity.
      * intros r v Hr. pose proof (lookup_lt_Some _ _ _ Hr). heap_lookup.
Qed.

(** The particle loop from index [i] on, in any mode.  It returns; the
    dummy has been turned once per particle; every remaining particle's
    smoothed position has taken one interpolation step with factor
    [delta * 3] towards the particle's target; instance [i + j] of the mesh
    has received that position, the dummy's rotation after [j + 1] turns,
    the particle's uniform scale and its colour; instances below [i] and
    all vectors other than the smoothed positions from [i] on and the
    dummy's two are as before. *)
Lemma ParticleGroup_useFrame_loop_spec (appState : AppState) (state : RootState.t)
    (delta : R) (cps : list Ref) (dpos dscale : Ref) :
  NoDup cps ->
  dpos <> dscale ->
  forall (data : list ParticleData.t) (i : nat) (rot : Euler)
         (mesh : InstancedMesh.t) (w : World),
    (dpos < length (heap w))%nat -> (dscale < length (heap w))%nat ->
    (forall c, c ∈ cps -> (c < length (heap w))%nat /\ c <> dpos /\ c <> dscale) ->
    (forall j p, data !! j = Some p ->
       is_Some (cps !! (i + j)%nat)
       /\ ((ParticleData.treePosition p < length (heap w))%nat
           /\ (ParticleData.treePosition p ∉ cps)
           /\ ParticleData.treePosition p <> dpos
           /\ ParticleData.treePosition p <> dscale)
       /\ ((ParticleData.explodedPosition p < length (heap w))%nat
           /\ (ParticleData.explodedPosition p ∉ cps)
           /\ ParticleData.explodedPosition p <> dpos
           /\ ParticleData.explodedPosition p <> dscale)) ->
    exists (mesh' : InstancedMesh.t) (w' : World),
      ParticleGroup.useFrame_loop appState state delta cps data i
        (Object3D.mk dpos rot dscale) mesh w
      = Ok ((Object3D.mk dpos (Nat.iter (length data) (spin_step delta) rot) dscale,
             mesh'), w')
      /\ (length (heap w) <= length (heap w'))%nat
      /\ (forall r v, (forall j, (i <= j)%nat -> cps !! j <> Some r) ->
                      r <> dpos -> r <> dscale ->
                      heap w !! r = Some v -> heap w' !! r = Some v)
      /\ (length (InstancedMesh.instanceMatrix mesh')
          = length (InstancedMesh.instanceMatrix mesh)
          /\ length (InstancedMesh.instanceColor mesh')
             = length (InstancedMesh.instanceColor mesh))
      /\ (forall k, (k < i)%nat ->
            InstancedMesh.instanceMatrix mesh' !! k
            = InstancedMesh.instanceMatrix mesh !! k
            /\ InstancedMesh.instanceColor mesh' !! k
               = InstancedMesh.instanceColor mesh !! k)
      /\ (forall j p c vc vt ve,
            data !! j = Some p -> cps !! (i + j)%nat = Some c ->
            heap w !! c = Some vc ->
            heap w !! ParticleData.treePosition p = Some vt ->
            heap w !! ParticleData.explodedPosition p = Some ve ->
            heap w' !! c
            = Some (Vector3.lerp_val vc (ParticleGroup_target appState state p vt ve)
                                     (delta * 3))
            /\ ((i + j < length (InstancedMesh.instanceMatrix mesh))%nat ->
                InstancedMesh.instanceMatrix mesh' !! (i + j)%nat
                = Some (compose
                          (Vector3.lerp_val vc
                             (ParticleGroup_target appState state p vt ve) (delta * 3))
                          (Nat.iter (S j) (spin_step delta) rot)
                          (Vec3 (ParticleData.scale p) (ParticleData.scale p)
                                (ParticleData.scale p))))
            /\ ((i + j < length (InstancedMesh.instanceColor mesh))%nat ->
                InstancedMesh.instanceColor mesh' !! (i + j)%nat
                = Some (ParticleData.color p))).
Proof.
  intros Hnodup Hd.
  induction data as [|particle rest IH]; intros i rot mesh w Ldp Lds Hcps Hdata.
  - exists mesh, w. cbn [ParticleGroup.useFrame_loop length Nat.iter nat_rect].
    split; [reflexivity|]. split; [lia|]. split; [auto|]. split; [auto|].
    split; [auto|]. intros j p c vc vt ve H. inversion H.
  - destruct (Hdata 0%nat particle eq_refl)
      as ([cur Hcur] & (Lt & Htc & Htd & Hts) & (Le & Hec & Hed & Hes)).
    rewrite Nat.add_0_r in Hcur.
    assert (cur ∈ cps) as Hin by (eapply list_elem_of_lookup_2; exact Hcur).
    destruct (Hcps cur Hin) as (Lc & Hcd & Hcs).
    destruct (lookup_lt_is_Some_2 _ _ Lc) as [vc0 Hvc0].
    destruct (lookup_lt_is_Some_2 _ _ Lt) as [vt0 Hvt0].
    destruct (lookup_lt_is_Some_2 _ _ Le) as [ve0 Hve0].
    destruct (lookup_lt_is_Some_2 _ _ Ldp) as [vp0 Hvp0].
    destruct (lookup_lt_is_Some_2 _ _ Lds) as [vs0 Hvs0].
    destruct (ParticleGroup_target_run appState state particle w vt0 ve0 Hvt0 Hve0)
      as (target & w0 & Htarget & Hlen0 & Hvtg & Hkeep0).
    pose proof (Hkeep0 _ _ Hvc0) as Hvc1.
    pose proof (Hkeep0 _ _ Hvp0) as Hvp1.
    pose proof (Hkeep0 _ _ Hvs0) as Hvs1.
    cbn [ParticleGroup.useFrame_loop].
    rewrite (bind_run _ _ _ _ _ Htarget).
    rewrite Hcur. erewrite bind_run by reflexivity.
    erewrite bind_run by (eapply lerp_run; eassumption).
    erewrite bind_run by (eapply copy_run; heap_lookup).
    cbn [Object3D.position Object3D.scale Object3D.rotation ex ey ez].
    erewrite bind_run by (eapply setScalar_run; heap_lookup).
    erewrite bind_run by (eapply get_run; heap_lookup).
    erewrite bind_run by (eapply get_run; heap_lookup).
    match goal with
    | |- context [ParticleGroup.useFrame_loop _ _ _ _ _ _ (Object3D.mk _ ?r _) ?m ?w1] =>
        destruct (IH (S i) r m w1)
          as (mesh' & w' & Hrun & Hlen & Hframe & (HlenM & HlenC) & Hbelow & Hstep)
    end.
    + cbn [heap with_heap]. len_solve.
    + cbn [heap with_heap]. len_solve.
    + intros c Hc. destruct (Hcps c Hc) as (? & ? & ?).
      cbn [heap with_heap]. repeat split; [len_solve|assumption|assumption].
    + intros j p Hp.
      destruct (Hdata (S j) p Hp) as (Hs & (? & ? & ? & ?) & (? & ? & ? & ?)).
      replace (S i + j)%nat with (i + S j)%nat by lia.
      cbn [heap with_heap].
      split; [exact Hs|]. split; (split; [len_solve|]); repeat split; assumption.
    + exists mesh', w'.
      cbn [heap with_heap InstancedMesh.setMatrixAt InstancedMesh.setColorAt
           InstancedMesh.instanceMatrix InstancedMesh.instanceColor]
        in Hlen, Hframe, HlenM, HlenC, Hbelow, Hstep.
      rewrite length_insert in HlenM. rewrite length_insert in HlenC.
      split.
      { rewrite Hrun. cbn [length]. rewrite Nat.iter_succ_r. reflexivity. }
      split.
      { revert Hlen. repeat first [rewrite length_insert | rewrite length_app].
        lia. }
      assert (forall r v, r <> cur -> r <> dpos -> r <> dscale ->
                heap w !! r = Some v ->
                <[dscale := Vec3 (ParticleData.scale particle)
                                 (ParticleData.scale particle)
                                 (ParticleData.scale particle)]>
                  (<[dpos := Vector3.lerp_val vc0
                               (ParticleGroup_target appState state particle vt0 ve0)
                               (delta * 3)]>
                     (<[cur := Vector3.lerp_val vc0
                                 (ParticleGroup_target appState state particle vt0 ve0)
                                 (delta * 3)]> (heap w0))) !! r = Some v) as Hkeep1.
      { intros r v Hrc Hrd Hrs Hr. pose proof (Hkeep0 _ _ Hr). heap_lookup. }
      assert (forall j, (S i <= j)%nat -> cps !! j <> Some cur) as Hlater.
      { intros j Hj Hj'.
        pose proof (proj1 (NoDup_alt cps) Hnodup _ _ _ Hj' Hcur). lia. }
      split.
      { intros r v Hr Hrd Hrs Hv. apply Hframe; [|assumption..|].
        - intros j Hj. apply Hr. lia.
        - apply Hkeep1; try assumption.
          intros ->. apply (Hr i); [lia|exact Hcur]. }
      split; [split; assumption|].
      split.
      { intros k Hk. destruct (Hbelow k) as (HM & HC); [lia|].
        rewrite HM, HC.
        rewrite !list_lookup_insert_ne by lia. split; reflexivity. }
      intros [|j] p c vc vt ve Hp Hc Hvc Hvt Hve.
      * cbn in Hp. injection Hp as <-. rewrite Nat.add_0_r in Hc |- *.
        assert (c = cur) as -> by congruence.
        assert (vc = vc0) as -> by congruence.
        assert (vt = vt0) as -> by congruence.
        assert (ve = ve0) as -> by congruence.
        destruct (Hbelow i) as (HM & HC); [lia|].
        rewrite HM, HC. split; [|split].
        -- apply Hframe; [exact Hlater|assumption..|]. heap_lookup.
        -- intros Hi. rewrite list_lookup_insert_eq by exact Hi. reflexivity.
        -- intros Hi. rewrite list_lookup_insert_eq by exact Hi. reflexivity.
      * cbn in Hp. replace (i + S j)%nat with (S i + j)%nat in * by lia.
        assert (c ∈ cps) as Hcin by (eapply list_elem_of_lookup_2; exact Hc).
        destruct (Hcps c Hcin) as (Lcc & Hccd & Hccs).
        destruct (Hdata (S j) p Hp)
          as (_ & (Ltp & Htpc & Htpd & Htps) & (Lep & Hepc & Hepd & Heps)).
        assert (c <> cur) as Hccur.
        { intros ->.
          pose proof (proj1 (NoDup_alt cps) Hnodup _ _ _ Hc Hcur). lia. }
        assert (ParticleData.treePosition p <> cur) as Htpcur
          by (intros Heq; rewrite Heq in Htpc; contradiction).
        assert (ParticleData.explodedPosition p <> cur) as Hepcur
          by (intros Heq; rewrite Heq in Hepc; contradiction).
        destruct (Hstep j p c vc vt ve Hp Hc) as (Hval & HvalM & HvalC).
        -- apply Hkeep1; assumption.
        -- apply Hkeep1; assumption.
        -- apply Hkeep1; assumption.
        -- split; [exact Hval|]. split.
           ++ intros Hi. rewrite HvalM by (rewrite length_insert; exact Hi).
              rewrite (Nat.iter_succ_r (S j) (spin_step delta) rot). reflexivity.
           ++ intros Hi. apply HvalC. rewrite length_insert. exact Hi.
Qed.

Lemma spin_step_iter (n : nat) (delta : R) (r : Euler) :
  Nat.iter n (spin_step delta) r = spin n delta r.
Proof.
  induction n as [|n IH].
  - destruct r as [rx ry rz]. unfold spin. cbn. f_equal; lra.
  - rewrite Nat.iter_succ, IH. unfold spin, spin_step.
    cbn [ex ey ez]. rewrite S_INR. f_equal; lra.
Qed.

(** One frame of a well-formed group, in any mode. *)
Lemma ParticleGroup_useFrame_spec (data : list ParticleData.t) (appState : AppState)
    (g : ParticleGroup.t) (state : RootState.t) (delta : R) (w : World) :
  ParticleGroup_wf data g (heap w) ->
  exists (mesh mesh' : InstancedMesh.t) (w' : World),
    ParticleGroup.meshRef g = Some mesh
    /\ ParticleGroup.useFrame data appState g state delta w
       = Ok ({| ParticleGroup.meshRef := Some mesh';
                ParticleGroup.dummy :=
                  Object3D.mk (Object3D.position (ParticleGroup.dummy g))
                    (spin (length data) delta
                          (Object3D.rotation (ParticleGroup.dummy g)))
                    (Object3D.scale (ParticleGroup.dummy g));
                ParticleGroup.currentPositions := ParticleGroup.currentPositions g |},
             w')
    /\ (length (heap w) <= length (heap w'))%nat
    /\ (forall r v, r ∉ ParticleGroup.currentPositions g ->
                    r <> Object3D.position (ParticleGroup.dummy g) ->
                    r <> Object3D.scale (ParticleGroup.dummy g) ->
                    heap w !! r = Some v -> heap w' !! r = Some v)
    /\ (length (InstancedMesh.instanceMatrix mesh')
        = length (InstancedMesh.instanceMatrix mesh)
        /\ length (InstancedMesh.instanceColor mesh')
           = length (InstancedMesh.instanceColor mesh))
    /\ (forall j p c vc vt ve,
          data !! j = Some p ->
          ParticleGroup.currentPositions g !! j = Some c ->
          heap w !! c = Some vc ->
          heap w !! ParticleData.treePosition p = Some vt ->
          heap w !! ParticleData.explodedPosition p = Some ve ->
          heap w' !! c
          = Some (Vector3.lerp_val vc (ParticleGroup_target appState state p vt ve)
                                   (delta * 3))
          /\ ((j < length (InstancedMesh.instanceMatrix mesh))%nat ->
              InstancedMesh.instanceMatrix mesh' !! j
              = Some (compose
                        (Vector3.lerp_val vc
                           (ParticleGroup_target appState state p vt ve) (delta * 3))
                        (spin (S j) delta (Object3D.rotation (ParticleGroup.dummy g)))
                        (Vec3 (ParticleData.scale p) (ParticleData.scale p)
                              (ParticleData.scale p))))
          /\ ((j < length (InstancedMesh.instanceColor mesh))%nat ->
              InstancedMesh.instanceColor mesh' !! j = Some (ParticleData.color p))).
Proof.
  destruct g as [meshRef [dpos rot dscale] cps].
  unfold ParticleGroup_wf.
  cbn [ParticleGroup.currentPositions ParticleGroup.dummy ParticleGroup.meshRef
       Object3D.position Object3D.scale Object3D.rotation].
  intros ([mesh ->] & Hlen & Hnodup & Hcps & Ldp & Lds & Hd & Htree & Hexpl).
  destruct (ParticleGroup_useFrame_loop_spec appState state delta cps dpos dscale
              Hnodup Hd data 0%nat rot mesh w Ldp Lds Hcps)
    as (mesh' & w' & Hrun & Hlen' & Hframe & Hlens & _ & Hstep).
  { intros j p Hp.
    assert (p ∈ data) as Hin by (eapply list_elem_of_lookup_2; exact Hp).
    split; [|split; [apply (Htree p Hin)|apply (Hexpl p Hin)]].
    apply lookup_lt_is_Some_2. rewrite Hlen. apply lookup_lt_Some in Hp. exact Hp. }
  exists mesh, mesh', w'. split; [reflexivity|].
  unfold ParticleGroup.useFrame.
  cbn [ParticleGroup.currentPositions ParticleGroup.dummy ParticleGroup.meshRef].
  rewrite (bind_run _ _ _ _ _ Hrun). cbn beta iota zeta.
  rewrite spin_step_iter.
  split; [reflexivity|]. split; [exact Hlen'|]. split.
  { intros r v Hr Hrd Hrs Hv. apply Hframe; try assumption.
    intros j _ Hj. apply Hr. eapply list_elem_of_lookup_2. exact Hj. }
  split; [exact Hlens|].
  intros j p c vc vt ve Hp Hc Hvc Hvt Hve.
  destruct (Hstep j p c vc vt ve Hp Hc Hvc Hvt Hve) as (Hval & HM & HC).
  cbn [Nat.add] in HM, HC. rewrite spin_step_iter in HM.
  split; [exact Hval|]. split; assumption.
Qed.

(** Well-formedness does not depend on the mesh contents or the dummy's
    rotation, and survives allocation. *)
Lemma ParticleGroup_wf_frame (data : list ParticleData.t) (g : ParticleGroup.t)
    (mesh' : InstancedMesh.t) (rot' : Euler) (h h' : list Vector3) :
  ParticleGroup_wf data g h ->
  (length h <= length h')%nat ->
  ParticleGroup_wf data
    {| ParticleGroup.meshRef := Some mesh';
       ParticleGroup.dummy :=
         Object3D.mk (Object3D.position (ParticleGroup.dummy g)) rot'
                     (Object3D.scale (ParticleGroup.dummy g));
       ParticleGroup.currentPositions := ParticleGroup.currentPositions g |} h'.
Proof.
  unfold ParticleGroup_wf.
  cbn [ParticleGroup.currentPositions ParticleGroup.dummy ParticleGroup.meshRef
       Object3D.position Object3D.scale].
  intros (_ & Hlen & Hnodup & Hcps & Ldp & Lds & Hd & Htree & Hexpl) Hle.
  split; [eexists; reflexivity|]. split; [exact Hlen|]. split; [exact Hnodup|].
  split.
  { intros c Hc. destruct (Hcps c Hc) as (? & ? & ?).
    split; [lia|]. split; assumption. }
  split; [lia|]. split; [lia|]. split; [exact Hd|].
  split; intros p Hp; [destruct (Htree p Hp) as (? & ? & ? & ?)
                      |destruct (Hexpl p Hp) as (? & ? & ? & ?)];
    cbn zeta; (split; [lia|]); repeat split; assumption.
Qed.

(** The stored positions of a well-formed group are outside what a frame
    writes. *)
Lemma ParticleGroup_wf_stored (data : list ParticleData.t) (g : ParticleGroup.t)
    (h : list Vector3) (p : ParticleData.t) :
  ParticleGroup_wf data g h -> p ∈ data ->
  (exists vt, h !! ParticleData.treePosition p = Some vt
              /\ ParticleData.treePosition p ∉ ParticleGroup.currentPositions g
              /\ ParticleData.treePosition p <> Object3D.position (ParticleGroup.dummy g)
              /\ ParticleData.treePosition p <> Object3D.scale (ParticleGroup.dummy g))
  /\ (exists ve, h !! ParticleData.explodedPosition p = Some ve
              /\ ParticleData.explodedPosition p ∉ ParticleGroup.currentPositions g
              /\ ParticleData.explodedPosition p
                 <> Object3D.position (ParticleGroup.dummy g)
              /\ ParticleData.explodedPosition p
                 <> Object3D.scale (ParticleGroup.dummy g)).
Proof.
  intros (_ & _ & _ & _ & _ & _ & _ & Htree & Hexpl) Hp.
  destruct (Htree p Hp) as (Lt & ? & ? & ?).
  destruct (Hexpl p Hp) as (Le & ? & ? & ?).
  destruct (lookup_lt_is_Some_2 _ _ Lt) as [vt Hvt].
  destruct (lookup_lt_is_Some_2 _ _ Le) as [ve Hve].
  split; [exists vt|exists ve]; repeat split; assumption.
Qed.

(** X21: one frame of a well-formed ornament group, in any mode.  The
    frame returns; the group keeps its smoothed-position objects and stays
    well-formed; every particle's smoothed position takes one interpolation
    step with factor [delta * 3] towards the mode's target (home, scatter
    plus float offset, or 1.5 times scatter); and the particle's stored home
    and scatter positions are left as they were. *)
Theorem ParticleGroup_useFrame_step :
  forall (data : list ParticleData.t) (appState : AppState) (g : ParticleGroup.t)
         (state : RootState.t) (delta : R) (w : World),
    ParticleGroup_wf data g (heap w) ->
    exists (g' : ParticleGroup.t) (w' : World),
      ParticleGroup.useFrame data appState g state delta w = Ok (g', w')
      /\ ParticleGroup.currentPositions g' = ParticleGroup.currentPositions g
      /\ ParticleGroup_wf data g' (heap w')
      /\ forall j p c vc vt ve,
           data !! j = Some p ->
           ParticleGroup.currentPositions g !! j = Some c ->
           heap w !! c = Some vc ->
           heap w !! ParticleData.treePosition p = Some vt ->
           heap w !! ParticleData.explodedPosition p = Some ve ->
           heap w' !! c
           = Some (Vector3.lerp_val vc (ParticleGroup_target appState state p vt ve)
                                    (delta * 3))
           /\ heap w' !! ParticleData.treePosition p = Some vt
           /\ heap w' !! ParticleData.explodedPosition p = Some ve.
Proof.
  intros data appState g state delta w Hwf.
  destruct (ParticleGroup_useFrame_spec data appState g state delta w Hwf)
    as (mesh & mesh' & w' & _ & Hrun & Hlen & Hframe & _ & Hstep).
  eexists _, w'. split; [exact Hrun|].
  cbn [ParticleGroup.currentPositions]. split; [reflexivity|].
  split; [apply (ParticleGroup_wf_frame data g _ _ (heap w)); assumption|].
  intros j p c vc vt ve Hp Hc Hvc Hvt Hve.
  destruct (Hstep j p c vc vt ve Hp Hc Hvc Hvt Hve) as (Hval & _).
  split; [exact Hval|].
  assert (p ∈ data) as Hin by (eapply list_elem_of_lookup_2; exact Hp).
  destruct (ParticleGroup_wf_stored data g (heap w) p Hwf Hin)
    as ((vt' & _ & ? & ? & ?) & (ve' & _ & ? & ? & ?)).
  split; apply Hframe; assumption.
Qed.

Lemma ParticleGroup_useFrame_step_witness :
  exists (g' : ParticleGroup.t) (w' : World),
    ParticleGroup.useFrame [ornament0] FOCUS group0 frame0 (1 / 60) group_scene0
    = Ok (g', w')
    /\ ParticleGroup.currentPositions g' = [7%nat]
    /\ ParticleGroup_wf [ornament0] g' (heap w')
    /\ forall j p c vc vt ve,
         [ornament0] !! j = Some p ->
         [7%nat] !! j = Some c ->
         heap group_scene0 !! c = Some vc ->
         heap group_scene0 !! ParticleData.treePosition p = Some vt ->
         heap group_scene0 !! ParticleData.explodedPosition p = Some ve ->
         heap w' !! c
         = Some (Vector3.lerp_val vc (ParticleGroup_target FOCUS frame0 p vt ve)
                                  (1 / 60 * 3))
         /\ heap w' !! ParticleData.treePosition p = Some vt
         /\ heap w' !! ParticleData.explodedPosition p = Some ve.
Proof.
  apply (ParticleGroup_useFrame_step [ornament0] FOCUS group0 frame0 (1 / 60)
           group_scene0).
  exact group0_wf.
Defined.

(** X22: what a frame hands to the renderer.  All ornaments of a group are
    drawn through one shared dummy whose rotation is never reset: in a frame
    of length [delta], instance [j] receives the particle's new smoothed
    position, its uniform scale and its colour, and the rotation the dummy
    had before the frame advanced by [(j + 1) * delta * 0.2] about [x] and
    [(j + 1) * delta * 0.1] about [y]; after the frame the dummy's rotation
    has advanced by these steps once per particle. *)
Theorem ParticleGroup_useFrame_instances :
  forall (data : list ParticleData.t) (appState : AppState) (g : ParticleGroup.t)
         (state : RootState.t) (delta : R) (w : World),
    ParticleGroup_wf data g (heap w) ->
    exists (mesh mesh' : InstancedMesh.t) (g' : ParticleGroup.t) (w' : World),
      ParticleGroup.meshRef g = Some mesh
      /\ ParticleGroup.useFrame data appState g state delta w = Ok (g', w')
      /\ ParticleGroup.meshRef g' = Some mesh'
      /\ Object3D.rotation (ParticleGroup.dummy g')
         = spin (length data) delta (Object3D.rotation (ParticleGroup.dummy g))
      /\ length (InstancedMesh.instanceMatrix mesh')
         = length (InstancedMesh.instanceMatrix mesh)
      /\ length (InstancedMesh.instanceColor mesh')
         = length (InstancedMesh.instanceColor mesh)
      /\ forall j p c vc',
           data !! j = Some p ->
           ParticleGroup.currentPositions g !! j = Some c ->
           heap w' !! c = Some vc' ->
           ((j < length (InstancedMesh.instanceMatrix mesh))%nat ->
            InstancedMesh.instanceMatrix mesh' !! j
            = Some (compose vc'
                      (spin (S j) delta (Object3D.rotation (ParticleGroup.dummy g)))
                      (Vec3 (ParticleData.scale p) (ParticleData.scale p)
                            (ParticleData.scale p))))
           /\ ((j < length (InstancedMesh.instanceColor mesh))%nat ->
               InstancedMesh.instanceColor mesh' !! j = Some (ParticleData.color p)).
Proof.
  intros data appState g state delta w Hwf.
  destruct (ParticleGroup_useFrame_spec data appState g state delta w Hwf)
    as (mesh & mesh' & w' & Hmesh & Hrun & Hlen & Hframe & (HlenM & HlenC) & Hstep).
  eexists mesh, mesh', _, w'. split; [exact Hmesh|]. split; [exact Hrun|].
  cbn [ParticleGroup.meshRef ParticleGroup.dummy Object3D.rotation].
  split; [reflexivity|]. split; [reflexivity|].
  split; [exact HlenM|]. split; [exact HlenC|].
  intros j p c vc' Hp Hc Hvc'.
  assert (p ∈ data) as Hin by (eapply list_elem_of_lookup_2; exact Hp).
  assert (c ∈ ParticleGroup.currentPositions g) as Hcin
    by (eapply list_elem_of_lookup_2; exact Hc).
  destruct (ParticleGroup_wf_stored data g (heap w) p Hwf Hin)
    as ((vt & Hvt & _) & (ve & Hve & _)).
  destruct Hwf as (_ & _ & _ & Hcps & _).
  destruct (Hcps c Hcin) as (Lc & _).
  destruct (lookup_lt_is_Some_2 _ _ Lc) as [vc Hvc].
  destruct (Hstep j p c vc vt ve Hp Hc Hvc Hvt Hve) as (Hval & HM & HC).
  rewrite Hval in Hvc'. injection Hvc' as <-.
  split; assumption.
Qed.

Lemma ParticleGroup_useFrame_instances_witness :
  exists (mesh mesh' : InstancedMesh.t) (g' : ParticleGroup.t) (w' : World),
    ParticleGroup.meshRef group0 = Some mesh
    /\ ParticleGroup.useFrame [ornament0] EXPLODED group0 frame0 (1 / 60) group_scene0
       = Ok (g', w')
    /\ ParticleGroup.meshRef g' = Some mesh'
    /\ Object3D.rotation (ParticleGroup.dummy g')
       = spin 1 (1 / 60) (mkEuler 0 0 0)
    /\ length (InstancedMesh.instanceMatrix mesh')
       = length (InstancedMesh.instanceMatrix mesh)
    /\ length (InstancedMesh.instanceColor mesh')
       = length (InstancedMesh.instanceColor mesh)
    /\ forall j p c vc',
         [ornament0] !! j = Some p ->
         [7%nat] !! j = Some c ->
         heap w' !! c = Some vc' ->
         ((j < length (InstancedMesh.instanceMatrix mesh))%nat ->
          InstancedMesh.instanceMatrix mesh' !! j
          = Some (compose vc' (spin (S j) (1 / 60) (mkEuler 0 0 0))
                    (Vec3 (ParticleData.scale p) (ParticleData.scale p)
                          (ParticleData.scale p))))
         /\ ((j < length (InstancedMesh.instanceColor mesh))%nat ->
             InstancedMesh.instanceColor mesh' !! j = Some (ParticleData.color p)).
Proof.
  apply (ParticleGroup_useFrame_instances [ornament0] EXPLODED group0 frame0 (1 / 60)
           group_scene0).
  exact group0_wf.
Defined.

End ornament_animator.

(** ** Sessions of the ornament animator *)

Section ornament_sessions.
Import THREE.

Lemma spin_spin (n : nat) (d1 d2 : R) (r : Euler) :
  spin n d2 (spin n d1 r) = spin n (d1 + d2) r.
Proof. unfold spin. cbn [ex ey ez]. f_equal; lra. Qed.

Lemma spin_0 (n : nat) (r : Euler) : spin n 0 r = r.
Proof. destruct r as [rx ry rz]. unfold spin. cbn [ex ey ez]. f_equal; lra. Qed.

(** Any run of frames of a well-formed group. *)
Lemma ParticleGroup_run_frames_inv :
  forall (data : list ParticleData.t) (frames : list Frame)
         (g : ParticleGroup.t) (w : World),
    ParticleGroup_wf data g (heap w) ->
    exists (g' : ParticleGroup.t) (w' : World),
      run_frames (ParticleGroup_frame data) frames g w = Ok (g', w')
      /\ ParticleGroup_wf data g' (heap w')
      /\ ParticleGroup.currentPositions g' = ParticleGroup.currentPositions g
      /\ Object3D.rotation (ParticleGroup.dummy g')
         = spin (length data) (total_time frames)
                (Object3D.rotation (ParticleGroup.dummy g))
      /\ forall p, p ∈ data ->
           heap w' !! ParticleData.treePosition p
           = heap w !! ParticleData.treePosition p
           /\ heap w' !! ParticleData.explodedPosition p
              = heap w !! ParticleData.explodedPosition p.
Proof.
  intros data frames. induction frames as [|fr rest IH]; intros g w Hwf.
  - exists g, w. split; [reflexivity|]. split; [exact Hwf|].
    split; [reflexivity|]. cbn [total_time fold_right]. rewrite spin_0.
    split; [reflexivity|]. auto.
  - destruct (ParticleGroup_useFrame_spec data (frame_mode fr) g (frame_state fr)
                (frame_delta fr) w Hwf)
      as (mesh & mesh' & w1 & _ & Hrun & Hlen & Hframe & _ & _).
    pose proof (ParticleGroup_wf_frame data g mesh'
                  (spin (length data) (frame_delta fr)
                        (Object3D.rotation (ParticleGroup.dummy g)))
                  (heap w) (heap w1) Hwf Hlen) as Hwf1.
    destruct (IH _ w1 Hwf1) as (g' & w' & Hrest & Hwf' & Hcps & Hrot & Hstored).
    exists g', w'. cbn [run_frames]. unfold ParticleGroup_frame at 1.
    rewrite (bind_run _ _ _ _ _ Hrun).
    split; [exact Hrest|]. split; [exact Hwf'|]. split; [exact Hcps|].
    split.
    { rewrite Hrot. cbn [ParticleGroup.dummy Object3D.rotation total_time fold_right].
      apply spin_spin. }
    intros p Hp. destruct (Hstored p Hp) as (-> & ->).
    destruct (ParticleGroup_wf_stored data g (heap w) p Hwf Hp)
      as ((vt & Hvt & ? & ? & ?) & (ve & Hve & ? & ? & ?)).
    rewrite Hvt, Hve. split; apply Hframe; assumption.
Qed.

(** X23: a whole session of a well-formed ornament group, through any
    sequence of modes and frame times.  Every frame returns; the group stays
    well-formed and keeps its smoothed-position objects; the stored home and
    scatter position of every particle hold the values they held before the
    session (unlike a photo's scatter position); and the shared dummy's
    rotation has advanced by [n * T * 0.2] about [x] and [n * T * 0.1] about
    [y], for [n] particles and a session of total time [T]. *)
Theorem ParticleGroup_session_keeps_layout :
  forall (data : list ParticleData.t) (frames : list Frame)
         (g : ParticleGroup.t) (w : World),
    ParticleGroup_wf data g (heap w) ->
    exists (g' : ParticleGroup.t) (w' : World),
      run_frames (ParticleGroup_frame data) frames g w = Ok (g', w')
      /\ ParticleGroup_wf data g' (heap w')
      /\ ParticleGroup.currentPositions g' = ParticleGroup.currentPositions g
      /\ Object3D.rotation (ParticleGroup.dummy g')
         = spin (length data) (total_time frames)
                (Object3D.rotation (ParticleGroup.dummy g))
      /\ forall p, p ∈ data ->
           heap w' !! ParticleData.treePosition p
           = heap w !! ParticleData.treePosition p
           /\ heap w' !! ParticleData.explodedPosition p
              = heap w !! ParticleData.explodedPosition p.
Proof.
  intros data frames g w Hwf.
  apply ParticleGroup_run_frames_inv. exact Hwf.
Qed.

Lemma ParticleGroup_session_keeps_layout_witness :
  exists (g' : ParticleGroup.t) (w' : World),
    run_frames (ParticleGroup_frame [ornament0])
      [(EXPLODED, frame0, 1 / 60); (FOCUS, frame0, 1 / 30)] group0 group_scene0
    = Ok (g', w')
    /\ ParticleGroup_wf [ornament0] g' (heap w')
    /\ ParticleGroup.currentPositions g' = [7%nat]
    /\ Object3D.rotation (ParticleGroup.dummy g')
       = spin 1 (1 / 60 + (1 / 30 + 0)) (mkEuler 0 0 0)
    /\ forall p, p ∈ [ornament0] ->
         heap w' !! ParticleData.treePosition p
         = heap group_scene0 !! ParticleData.treePosition p
         /\ heap w' !! ParticleData.explodedPosition p
            = heap group_scene0 !! ParticleData.explodedPosition p.
Proof.
  apply (ParticleGroup_session_keeps_layout [ornament0]
           [(EXPLODED, frame0, 1 / 60); (FOCUS, frame0, 1 / 30)] group0 group_scene0).
  exact group0_wf.
Defined.

(** The target of a particle does not depend on the frame's clock outside
    [EXPLODED] mode. *)
Lemma ParticleGroup_target_steady (appState : AppState) (s1 s2 : RootState.t)
    (p : ParticleData.t) (vt ve : Vector3) :
  appState <> EXPLODED ->
  ParticleGroup_target appState s1 p vt ve = ParticleGroup_target appState s2 p vt ve.
Proof. destruct appState; [reflexivity|contradiction|reflexivity]. Qed.

(** A run of frames of a well-formed group in a mode with a fixed target. *)
Lemma ParticleGroup_run_frames_steady :
  forall (data : list ParticleData.t) (appState : AppState) (delta : R)
         (frames : list Frame) (g : ParticleGroup.t) (w : World),
    ParticleGroup_wf data g (heap w) ->
    appState <> EXPLODED ->
    (forall fr, fr ∈ frames -> frame_mode fr = appState /\ frame_delta fr = delta) ->
    exists (g' : ParticleGroup.t) (w' : World),
      run_frames (ParticleGroup_frame data) frames g w = Ok (g', w')
      /\ forall j p c vc vt ve (state : RootState.t),
           data !! j = Some p ->
           ParticleGroup.currentPositions g !! j = Some c ->
           heap w !! c = Some vc ->
           heap w !! ParticleData.treePosition p = Some vt ->
           heap w !! ParticleData.explodedPosition p = Some ve ->
           let target := ParticleGroup_target appState state p vt ve in
           heap w' !! c = Some (lerp_iter (length frames) vc target (delta * 3))
           /\ Vector3.distance (lerp_iter (length frames) vc target (delta * 3)) target
              = Rabs (1 - delta * 3) ^ length frames * Vector3.distance vc target.
Proof.
  intros data appState delta frames.
  induction frames as [|fr rest IH]; intros g w Hwf Hmode Hframes.
  - exists g, w. split; [reflexivity|].
    intros j p c vc vt ve state _ _ Hvc _ _. cbn zeta.
    split; [exact Hvc|]. apply lerp_iter_distance.
  - destruct (Hframes fr) as (Hm & Hdl); [left|].
    destruct (ParticleGroup_useFrame_spec data (frame_mode fr) g (frame_state fr)
                (frame_delta fr) w Hwf)
      as (mesh & mesh' & w1 & _ & Hrun & Hlen & Hframe & _ & Hstep).
    pose proof (ParticleGroup_wf_frame data g mesh'
                  (spin (length data) (frame_delta fr)
                        (Object3D.rotation (ParticleGroup.dummy g)))
                  (heap w) (heap w1) Hwf Hlen) as Hwf1.
    destruct (IH _ w1 Hwf1 Hmode) as (g' & w' & Hrest & Hall).
    { intros fr' Hfr'. apply Hframes. right. exact Hfr'. }
    exists g', w'. cbn [run_frames]. unfold ParticleGroup_frame at 1.
    rewrite (bind_run _ _ _ _ _ Hrun).
    split; [exact Hrest|].
    intros j p c vc vt ve state Hp Hc Hvc Hvt Hve. cbn zeta.
    split; [|apply lerp_iter_distance].
    assert (p ∈ data) as Hin by (eapply list_elem_of_lookup_2; exact Hp).
    destruct (ParticleGroup_wf_stored data g (heap w) p Hwf Hin)
      as ((vt' & _ & ? & ? & ?) & (ve' & _ & ? & ? & ?)).
    destruct (Hstep j p c vc vt ve Hp Hc Hvc Hvt Hve) as (Hval & _).
    rewrite Hm, Hdl in Hval.
    rewrite (ParticleGroup_target_steady appState (frame_state fr) state p vt ve Hmode)
      in Hval.
    cbn [length]. rewrite <- lerp_iter_shift.
    apply (Hall j p c _ vt ve state Hp Hc Hval); apply Hframe; assumption.
Qed.

(** X24: a run of frames in one of the modes with a fixed target ([TREE],
    [FOCUS]) and one frame time.  After [n] frames every ornament's smoothed
    position is the [n]-fold interpolation, with factor [delta * 3], of its
    value before the run towards the target: the home position in [TREE]
    mode, 1.5 times the scatter position in [FOCUS] mode; so its distance
    from the target is the initial distance times [|1 - 3 * delta| ^ n]. *)
Theorem ParticleGroup_steady_mode_converges :
  forall (data : list ParticleData.t) (appState : AppState) (delta : R)
         (frames : list Frame) (g : ParticleGroup.t) (w : World),
    ParticleGroup_wf data g (heap w) ->
    appState <> EXPLODED ->
    (forall fr, fr ∈ frames -> frame_mode fr = appState /\ frame_delta fr = delta) ->
    exists (g' : ParticleGroup.t) (w' : World),
      run_frames (ParticleGroup_frame data) frames g w = Ok (g', w')
      /\ forall j p c vc vt ve (state : RootState.t),
           data !! j = Some p ->
           ParticleGroup.currentPositions g !! j = Some c ->
           heap w !! c = Some vc ->
           heap w !! ParticleData.treePosition p = Some vt ->
           heap w !! ParticleData.explodedPosition p = Some ve ->
           let target := ParticleGroup_target appState state p vt ve in
           heap w' !! c = Some (lerp_iter (length frames) vc target (delta * 3))
           /\ Vector3.distance (lerp_iter (length frames) vc target (delta * 3)) target
              = Rabs (1 - delta * 3) ^ length frames * Vector3.distance vc target.
Proof.
  intros data appState delta frames g w Hwf Hmode Hframes.
  apply ParticleGroup_run_frames_steady; assumption.
Qed.

Lemma ParticleGroup_steady_mode_converges_witness :
  exists (g' : ParticleGroup.t) (w' : World),
    run_frames (ParticleGroup_frame [ornament0])
      [(FOCUS, frame0, 1 / 60); (FOCUS, frame0, 1 / 60)] group0 group_scene0
    = Ok (g', w')
    /\ forall j p c vc vt ve (state : RootState.t),
         [ornament0] !! j = Some p ->
         [7%nat] !! j = Some c ->
         heap group_scene0 !! c = Some vc ->
         heap group_scene0 !! ParticleData.treePosition p = Some vt ->
         heap group_scene0 !! ParticleData.explodedPosition p = Some ve ->
         let target := ParticleGroup_target FOCUS state p vt ve in
         heap w' !! c = Some (lerp_iter 2 vc target (1 / 60 * 3))
         /\ Vector3.distance (lerp_iter 2 vc target (1 / 60 * 3)) target
            = Rabs (1 - 1 / 60 * 3) ^ 2 * Vector3.distance vc target.
Proof.
  apply (ParticleGroup_steady_mode_converges [ornament0] FOCUS (1 / 60)
           [(FOCUS, frame0, 1 / 60); (FOCUS, frame0, 1 / 60)] group0 group_scene0).
  - exact group0_wf.
  - discriminate.
  - intros fr Hfr. apply list_elem_of_In in Hfr.
    destruct Hfr as [<-|[<-|[]]]; split; reflexivity.
Defined.

End ornament_sessions.

(** ** From the layout to the animated scene *)

Section scene_pipeline.
Import THREE.

(** [data.map(p => p.position.clone())]: the clones are appended to the
    heap in order, each with the value of the particle's current
    position. *)
Lemma clone_positions_values (data : list ParticleData.t) :
  forall w : World,
    (forall p, p ∈ data -> (ParticleData.position p < length (heap w))%nat) ->
    exists vals : list Vector3,
      ParticleGroup.clone_positions data w
      = Ok (seq (length (heap w)) (length data), with_heap w (heap w ++ vals))
      /\ length vals = length data
      /\ forall j p, data !! j = Some p ->
           vals !! j = heap w !! ParticleData.position p.
Proof.
  induction data as [|p rest IH]; intros w Hvalid.
  - exists []. cbn [ParticleGroup.clone_positions length seq].
    rewrite app_nil_r. destruct w as [h e d]. split; [reflexivity|].
    split; [reflexivity|]. intros j q H. inversion H.
  - assert (ParticleData.position p < length (heap w))%nat as Lp
      by (apply Hvalid; left).
    destruct (lookup_lt_is_Some_2 _ _ Lp) as [v Hv].
    destruct (IH (with_heap w (heap w ++ [v]))) as (vals & Hrun & Hlen & Hvals).
    { intros q Hq. cbn [heap with_heap]. rewrite length_app. cbn [length].
      assert (ParticleData.position q < length (heap w))%nat
        by (apply Hvalid; right; exact Hq).
      lia. }
    exists (v :: vals). cbn [ParticleGroup.clone_positions].
    rewrite (bind_run _ _ _ _ _ (clone_run w _ v Hv)).
    rewrite (bind_run _ _ _ _ _ Hrun).
    cbn [heap with_heap] in *. rewrite length_app. cbn [length].
    rewrite Nat.add_1_r, <- app_assoc. cbn [app].
    split; [reflexivity|]. split; [lia|].
    intros [|j] q Hq.
    + cbn in Hq. injection Hq as <-. cbn. symmetry. exact Hv.
    + cbn in Hq. change (vals !! j = heap w !! ParticleData.position q).
      rewrite (Hvals j q Hq).
      apply lookup_app_l. apply Hvalid. right.
      eapply list_elem_of_lookup_2. exact Hq.
Qed.

(** Mounting a group, step by step: the dummy's two vectors and then one
    clone per particle are appended to the heap. *)
Lemma ParticleGroup_mount_run (data : list ParticleData.t) (w : World) :
  (forall p, p ∈ data -> (ParticleData.position p < length (heap w))%nat) ->
  exists vals : list Vector3,
    ParticleGroup.mount data w
    = Ok ({| ParticleGroup.meshRef :=
               Some (InstancedMesh.mk
                       (replicate (length data)
                          (compose (Vec3 0 0 0) (mkEuler 0 0 0) (Vec3 1 1 1)))
                       (replicate (length data) WHITE));
             ParticleGroup.dummy :=
               Object3D.mk (length (heap w)) (mkEuler 0 0 0) (S (length (heap w)));
             ParticleGroup.currentPositions :=
               seq (S (S (length (heap w)))) (length data) |},
          with_heap w (heap w ++ [Vec3 0 0 0; Vec3 1 1 1] ++ vals))
    /\ length vals = length data
    /\ forall j p, data !! j = Some p ->
         vals !! j = heap w !! ParticleData.position p.
Proof.
  intros Hvalid. unfold ParticleGroup.mount.
  erewrite bind_run by apply new_Vector3_run.
  erewrite bind_run by apply new_Vector3_run.
  cbn [heap with_heap].
  destruct (clone_positions_values data
              (with_heap (with_heap w (heap w ++ [Vec3 0 0 0]))
                         ((heap w ++ [Vec3 0 0 0]) ++ [Vec3 1 1 1])))
    as (vals & Hrun & Hlen & Hvals).
  { intros p Hp. pose proof (Hvalid p Hp).
    cbn [heap with_heap]. rewrite !length_app. cbn [length]. lia. }
  cbn [heap with_heap] in Hrun, Hvals.
  rewrite (bind_run _ _ _ _ _ Hrun).
  exists vals. cbn [ret]. unfold ret.
  rewrite !length_app. cbn [length]. rewrite !Nat.add_1_r.
  rewrite <- !app_assoc. cbn [app].
  split; [reflexivity|]. split; [exact Hlen|].
  intros j p Hp. rewrite (Hvals j p Hp).
  assert (ParticleData.position p < length (heap w))%nat as Lp
    by (apply Hvalid; eapply list_elem_of_lookup_2; exact Hp).
  rewrite <- !app_assoc. apply lookup_app_l. exact Lp.
Qed.

(** X25: mounting an ornament group.  Given particles whose vectors are
    live, mounting returns a well-formed group whose instanced mesh has one
    instance per particle; the dummy and the smoothed positions are new
    objects; every object that existed before keeps its value; and each
    particle's smoothed position starts with the value of the particle's
    current position. *)
Theorem ParticleGroup_mount_starts_at_positions :
  forall (data : list ParticleData.t) (w : World),
    (forall p, p ∈ data ->
       (ParticleData.position p < length (heap w))%nat
       /\ (ParticleData.treePosition p < length (heap w))%nat
       /\ (ParticleData.explodedPosition p < length (heap w))%nat) ->
    exists (g : ParticleGroup.t) (mesh : InstancedMesh.t) (w' : World),
      ParticleGroup.mount data w = Ok (g, w')
      /\ ParticleGroup_wf data g (heap w')
      /\ ParticleGroup.meshRef g = Some mesh
      /\ length (InstancedMesh.instanceMatrix mesh) = length data
      /\ length (InstancedMesh.instanceColor mesh) = length data
      /\ (length (heap w) <= Object3D.position (ParticleGroup.dummy g))%nat
      /\ (length (heap w) <= Object3D.scale (ParticleGroup.dummy g))%nat
      /\ (forall r v, heap w !! r = Some v -> heap w' !! r = Some v)
      /\ forall j p, data !! j = Some p ->
           exists c : Ref,
             ParticleGroup.currentPositions g !! j = Some c
             /\ (length (heap w) <= c)%nat
             /\ heap w' !! c = heap w !! ParticleData.position p.
Proof.
  intros data w Hvalid.
  destruct (ParticleGroup_mount_wf data w Hvalid) as (g & w' & Hmount & Hwf).
  destruct (ParticleGroup_mount_run data w) as (vals & Hrun & Hlen & Hvals).
  { intros p Hp. apply (Hvalid p Hp). }
  rewrite Hrun in Hmount. injection Hmount as <- <-.
  eexists _, _, _. split; [exact Hrun|]. split; [exact Hwf|].
  cbn [ParticleGroup.meshRef ParticleGroup.dummy ParticleGroup.currentPositions
       Object3D.position Object3D.scale InstancedMesh.instanceMatrix
       InstancedMesh.instanceColor heap with_heap].
  split; [reflexivity|].
  cbn [InstancedMesh.instanceMatrix InstancedMesh.instanceColor].
  rewrite !length_replicate.
  split; [reflexivity|]. split; [reflexivity|]. split; [lia|]. split; [lia|].
  split; [intros r v Hr; apply lookup_app_l_Some; exact Hr|].
  intros j p Hp. pose proof (lookup_lt_Some _ _ _ Hp) as Lj.
  exists (S (S (length (heap w))) + j)%nat.
  split; [apply lookup_seq_lt; exact Lj|]. split; [lia|].
  rewrite <- (Hvals j p Hp).
  rewrite lookup_app_r by lia.
  replace (S (S (length (heap w))) + j - length (heap w))%nat with (S (S j)) by lia.
  reflexivity.
Qed.

Lemma ParticleGroup_mount_starts_at_positions_witness :
  exists (g : ParticleGroup.t) (mesh : InstancedMesh.t) (w' : World),
    ParticleGroup.mount [ornament0] layout0 = Ok (g, w')
    /\ ParticleGroup_wf [ornament0] g (heap w')
    /\ ParticleGroup.meshRef g = Some mesh
    /\ length (InstancedMesh.instanceMatrix mesh) = 1%nat
    /\ length (InstancedMesh.instanceColor mesh) = 1%nat
    /\ (5 <= Object3D.position (ParticleGroup.dummy g))%nat
    /\ (5 <= Object3D.scale (ParticleGroup.dummy g))%nat
    /\ (forall r v, heap layout0 !! r = Some v -> heap w' !! r = Some v)
    /\ forall j p, [ornament0] !! j = Some p ->
         exists c : Ref,
           ParticleGroup.currentPositions g !! j = Some c
           /\ (5 <= c)%nat
           /\ heap w' !! c = heap layout0 !! ParticleData.position p.
Proof.
  apply (ParticleGroup_mount_starts_at_positions [ornament0] layout0).
  intros p Hp. apply list_elem_of_In in Hp. destruct Hp as [<-|[]].
  cbn. lia.
Defined.

(** Every vector of a generated particle is live after the call, and its
    home and scatter positions are different objects. *)
Lemma generateTreeLayout_refs (count : nat) (photoUrls : list string) (w : World) :
  exists (particles : list ParticleData.t) (w1 : World),
    generateTreeLayout count photoUrls w = Ok (particles, w1)
    /\ length particles = count
    /\ forall p, p ∈ particles ->
         (ParticleData.position p < length (heap w1))%nat
         /\ (ParticleData.treePosition p < length (heap w1))%nat
         /\ (ParticleData.explodedPosition p < length (heap w1))%nat
         /\ ParticleData.treePosition p <> ParticleData.explodedPosition p
         /\ (ParticleData.type p = PHOTO -> photoUrls <> []).
Proof.
  destruct (generateTreeLayout_alloc count photoUrls w)
    as (particles & w1 & ext & Hrun & Hlen & Hext & Hextlen & Hall).
  exists particles, w1. split; [exact Hrun|]. split; [exact Hlen|].
  intros p Hin. apply list_elem_of_lookup in Hin as [i Hi].
  pose proof (lookup_lt_Some _ _ _ Hi) as Li. rewrite Hlen in Li.
  destruct (Hall i p Hi) as (_ & Hp & d & _ & _ & _ & _ & _ & Hphoto & Horn).
  apply vector_refs_seq in Hp as (-> & -> & -> & _).
  rewrite Hext, length_app, Hextlen.
  split; [lia|]. split; [lia|]. split; [lia|]. split; [lia|].
  intros Htype ->. cbn [length] in Horn.
  destruct (Horn ltac:(lia)) as (Hkind & _).
  rewrite Htype in Hkind. unfold ornament_kind in Hkind.
  repeat destruct (gtb _ _) in Hkind; discriminate Hkind.
Qed.

Lemma sphereOrnaments_elem (ornaments : list ParticleData.t) (p : ParticleData.t) :
  p ∈ ChristmasScene.sphereOrnaments ornaments -> p ∈ ornaments.
Proof.
  unfold ChristmasScene.sphereOrnaments.
  rewrite !list_elem_of_In, filter_In. tauto.
Qed.

Lemma cubeOrnaments_elem (ornaments : list ParticleData.t) (p : ParticleData.t) :
  p ∈ ChristmasScene.cubeOrnaments ornaments -> p ∈ ornaments.
Proof.
  unfold ChristmasScene.cubeOrnaments.
  rewrite !list_elem_of_In, filter_In. tauto.
Qed.

(** X26: the ornament pipeline of [ChristmasScene] never fails and never
    disturbs the layout.  The 400 ornaments are generated; each of the two
    groups made of them (spheres, cubes), mounted in any later world and
    animated through any sequence of modes and frame times, has every frame
    computed, and the stored home and scatter position of each of its
    ornaments still hold the values they held when the group was mounted. *)
Theorem ChristmasScene_ornament_groups :
  forall w : World,
    exists (ornaments : list ParticleData.t) (w1 : World),
      ChristmasScene.ornaments w = Ok (ornaments, w1)
      /\ length ornaments = ChristmasScene.ornamentCount
      /\ forall (data : list ParticleData.t) (w2 : World) (frames : list Frame),
           data = ChristmasScene.sphereOrnaments ornaments
           \/ data = ChristmasScene.cubeOrnaments ornaments ->
           (length (heap w1) <= length (heap w2))%nat ->
           exists (g : ParticleGroup.t) (w3 : World)
                  (g' : ParticleGroup.t) (w4 : World),
             ParticleGroup.mount data w2 = Ok (g, w3)
             /\ run_frames (ParticleGroup_frame data) frames g w3 = Ok (g', w4)
             /\ forall p, p ∈ data ->
                  is_Some (heap w2 !! ParticleData.treePosition p)
                  /\ is_Some (heap w2 !! ParticleData.explodedPosition p)
                  /\ heap w4 !! ParticleData.treePosition p
                     = heap w2 !! ParticleData.treePosition p
                  /\ heap w4 !! ParticleData.explodedPosition p
                     = heap w2 !! ParticleData.explodedPosition p.
Proof.
  intros w. unfold ChristmasScene.ornaments.
  destruct (generateTreeLayout_refs ChristmasScene.ornamentCount [] w)
    as (ornaments & w1 & Hgen & Hcount & Hrefs).
  exists ornaments, w1. split; [exact Hgen|]. split; [exact Hcount|].
  intros data w2 frames Hdata Hle.
  assert (forall p, p ∈ data -> p ∈ ornaments) as Hsub.
  { intros p Hp. destruct Hdata as [-> | ->];
      [eapply sphereOrnaments_elem|eapply cubeOrnaments_elem]; exact Hp. }
  assert (forall p, p ∈ data ->
            (ParticleData.position p < length (heap w2))%nat
            /\ (ParticleData.treePosition p < length (heap w2))%nat
            /\ (ParticleData.explodedPosition p < length (heap w2))%nat) as Hvalid.
  { intros p Hp. destruct (Hrefs p (Hsub p Hp)) as (? & ? & ? & _).
    repeat split; lia. }
  destruct (ParticleGroup_mount_wf data w2 Hvalid) as (g & w3 & Hmount & Hwf).
  destruct (ParticleGroup_mount_run data w2) as (vals & Hrun & _ & _).
  { intros p Hp. apply (Hvalid p Hp). }
  pose proof Hmount as Hmount'.
  rewrite Hrun in Hmount'. injection Hmount' as Hg Hw3.
  destruct (ParticleGroup_run_frames_inv data frames g w3 Hwf)
    as (g' & w4 & Hsession & _ & _ & _ & Hstored).
  exists g, w3, g', w4. split; [exact Hmount|]. split; [exact Hsession|].
  intros p Hp. destruct (Hvalid p Hp) as (_ & Lt & Le).
  destruct (Hstored p Hp) as (-> & ->).
  split; [apply lookup_lt_is_Some_2; exact Lt|].
  split; [apply lookup_lt_is_Some_2; exact Le|].
  rewrite <- Hw3. cbn [heap with_heap].
  split; apply lookup_app_l; assumption.
Qed.

(** The photo particles refer to the vectors of the generator's output. *)
Lemma photoParticles_refs (photos : list string) (w : World) :
  exists (particles : list ParticleData.t) (w1 : World),
    photoParticles photos w = Ok (particles, w1)
    /\ forall p, p ∈ particles ->
         (ParticleData.treePosition p < length (heap w1))%nat
         /\ (ParticleData.explodedPosition p < length (heap w1))%nat
         /\ ParticleData.treePosition p <> ParticleData.explodedPosition p.
Proof.
  unfold photoParticles. destruct (length photos =? 0)%nat.
  - exists [], w. split; [reflexivity|]. intros p Hp. inversion Hp.
  - destruct (generateTreeLayout_refs (length photos) photos w)
      as (raw & w1 & Hgen & _ & Hrefs).
    rewrite (bind_run _ _ _ _ _ Hgen).
    eexists _, w1. split; [reflexivity|].
    intros p Hp. apply list_elem_of_lookup in Hp as [i Hi].
    rewrite list_lookup_imap in Hi.
    destruct (raw !! i) as [q|] eqn:Hq; [|discriminate Hi].
    cbn in Hi. injection Hi as <-.
    cbn [ParticleData.treePosition ParticleData.explodedPosition].
    destruct (Hrefs q) as (_ & ? & ? & ? & _);
      [eapply list_elem_of_lookup_2; exact Hq|].
    repeat split; assumption.
Qed.

(** X27: the photo pipeline of [ChristmasScene] never fails.  For the
    photo particles made from any list of photo handles, each photo, mounted
    in any later world and animated through any sequence of modes and frame
    times (with a live camera), has every frame computed; its stored home
    position keeps its value, and its stored scatter position moves by at
    most 0.5 in [y] per [EXPLODED] frame and not at all in [x] and [z]. *)
Theorem PhotoCloud_sessions :
  forall (photos : list string) (w : World),
    exists (particles : list ParticleData.t) (w1 : World),
      photoParticles photos w = Ok (particles, w1)
      /\ forall (p : ParticleData.t) (w2 : World) (frames : list Frame),
           p ∈ particles ->
           (length (heap w1) <= length (heap w2))%nat ->
           (forall fr, fr ∈ frames ->
              (RootState.camera_position (frame_state fr) < length (heap w2))%nat) ->
           exists (mesh : Mesh.t) (w3 : World) (mesh' : Mesh.t) (w4 : World)
                  (ve ve' : Vector3),
             SinglePhoto.mount p w2 = Ok (mesh, w3)
             /\ run_frames (SinglePhoto_frame p) frames (Some mesh) w3
                = Ok (Some mesh', w4)
             /\ heap w4 !! ParticleData.treePosition p
                = heap w2 !! ParticleData.treePosition p
             /\ heap w2 !! ParticleData.explodedPosition p = Some ve
             /\ heap w4 !! ParticleData.explodedPosition p = Some ve'
             /\ x ve' = x ve /\ z ve' = z ve
             /\ Rabs (y ve' - y ve) <= 0.5 * INR (exploded_frames frames).
Proof.
  intros photos w.
  destruct (photoParticles_refs photos w) as (particles & w1 & Hrun & Hrefs).
  exists particles, w1. split; [exact Hrun|].
  intros p w2 frames Hp Hle Hcams.
  destruct (Hrefs p Hp) as (Lt & Le & Hte).
  destruct (lookup_lt_is_Some_2 (heap w2) (ParticleData.treePosition p))
    as [vt Hvt]; [lia|].
  destruct (lookup_lt_is_Some_2 (heap w2) (ParticleData.explodedPosition p))
    as [ve Hve]; [lia|].
  destruct (SinglePhoto_mount_session p frames w2 vt ve Hvt Hve Hte Hcams)
    as (mesh & w3 & mesh' & w4 & ve' & Hmount & Hsession & Ht' & He' & Hx & Hz
        & Hy & _).
  exists mesh, w3, mesh', w4, ve, ve'.
  split; [exact Hmount|]. split; [exact Hsession|].
  split; [rewrite Ht', Hvt; reflexivity|].
  split; [exact Hve|]. split; [exact He'|].
  split; [exact Hx|]. split; [exact Hz|]. exact Hy.
Qed.

Lemma PhotoCloud_sessions_witness :
  exists (mesh : Mesh.t) (w3 : THREE.World) (mesh' : Mesh.t) (w4 : THREE.World)
         (ve ve' : THREE.Vector3),
    SinglePhoto.mount photo0 photo_layout0 = Ok (mesh, w3)
    /\ run_frames (SinglePhoto_frame photo0)
         [(EXPLODED, frame0, 1 / 60); (TREE, frame0, 1 / 60)] (Some mesh) w3
       = Ok (Some mesh', w4)
    /\ THREE.heap w4 !! ParticleData.treePosition photo0
       = THREE.heap photo_layout0 !! ParticleData.treePosition photo0
    /\ THREE.heap photo_layout0 !! ParticleData.explodedPosition photo0 = Some ve
    /\ THREE.heap w4 !! ParticleData.explodedPosition photo0 = Some ve'
    /\ THREE.x ve' = THREE.x ve /\ THREE.z ve' = THREE.z ve
    /\ Rabs (THREE.y ve' - THREE.y ve)
       <= 0.5 * INR (exploded_frames
                       [(EXPLODED, frame0, 1 / 60); (TREE, frame0, 1 / 60)]).
Proof.
  destruct (PhotoCloud_sessions ["a"%string] canvas0)
    as (particles & w1 & Hrun & Hall).
  rewrite photo0_is_generated in Hrun. injection Hrun as <- <-.
  apply (Hall photo0 photo_layout0
           [(EXPLODED, frame0, 1 / 60); (TREE, frame0, 1 / 60)]).
  - apply list_elem_of_In. left. reflexivity.
  - apply Nat.le_refl.
  - intros fr Hfr. apply list_elem_of_In in Hfr.
    destruct Hfr as [<-|[<-|[]]]; cbn; lia.
Defined.

End scene_pipeline.

(** ** Where the animators aim, and what steers the camera *)

Section aims.
Import THREE.

Lemma sqrt_scaled (k a : R) : 0 <= k -> sqrt (k * k * a) = k * sqrt a.
Proof.
  intros Hk. destruct (Rle_dec 0 a) as [Ha|Ha].
  - rewrite sqrt_mult_alt by nra. rewrite sqrt_square by exact Hk. reflexivity.
  - assert (a < 0) as Hneg by lra.
    rewrite (sqrt_neg_0 a) by lra. rewrite Rmult_0_r.
    apply sqrt_neg_0. nra.
Qed.

(** The geometry of the ornament target: pushed out by the factor 1.5 in
    [FOCUS] mode, within [sqrt 0.5] of the scatter position and at its
    depth in [EXPLODED] mode. *)
Lemma ParticleGroup_target_geometry (state : RootState.t) (p : ParticleData.t)
    (vt ve : Vector3) :
  Vector3.length (ParticleGroup_target FOCUS state p vt ve) = 1.5 * Vector3.length ve
  /\ Vector3.distance (ParticleGroup_target EXPLODED state p vt ve) ve <= sqrt 0.5
  /\ z (ParticleGroup_target EXPLODED state p vt ve) = z ve.
Proof.
  split; [|split].
  - unfold Vector3.length.
    cbn [ParticleGroup_target Vector3.multiplyScalar_val x y z].
    replace (x ve * 1.5 * (x ve * 1.5) + y ve * 1.5 * (y ve * 1.5)
             + z ve * 1.5 * (z ve * 1.5))
      with (1.5 * 1.5 * (x ve * x ve + y ve * y ve + z ve * z ve)) by lra.
    apply sqrt_scaled. lra.
  - unfold Vector3.distance.
    cbn [ParticleGroup_target Vector3.add_val float_noise x y z].
    set (a := sin (RootState.elapsedTime state + INR (ParticleData.id p))).
    set (b := cos (RootState.elapsedTime state * 0.8 + INR (ParticleData.id p))).
    apply sqrt_le_1_alt.
    assert (-1 <= a <= 1) as Ha by apply SIN_bound.
    assert (-1 <= b <= 1) as Hb by apply COS_bound.
    nra.
  - cbn [ParticleGroup_target Vector3.add_val float_noise x y z]. lra.
Qed.

(** X28: where a frame of the ornament animator moves the ornaments.  A
    frame of a well-formed group returns, and every ornament's smoothed
    position takes its interpolation step (factor [delta * 3]) towards an
    aim that is: in [TREE] mode the stored home position; in [FOCUS] mode
    the stored scatter position pushed out to 1.5 times its distance from
    the origin; in [EXPLODED] mode a point at the depth of the stored
    scatter position and never farther than [sqrt 0.5] from it. *)
Theorem ParticleGroup_useFrame_aim :
  forall (data : list ParticleData.t) (appState : AppState) (g : ParticleGroup.t)
         (state : RootState.t) (delta : R) (w : World),
    ParticleGroup_wf data g (heap w) ->
    exists (g' : ParticleGroup.t) (w' : World),
      ParticleGroup.useFrame data appState g state delta w = Ok (g', w')
      /\ forall j p c vc vt ve,
           data !! j = Some p ->
           ParticleGroup.currentPositions g !! j = Some c ->
           heap w !! c = Some vc ->
           heap w !! ParticleData.treePosition p = Some vt ->
           heap w !! ParticleData.explodedPosition p = Some ve ->
           exists aim : Vector3,
             heap w' !! c = Some (Vector3.lerp_val vc aim (delta * 3))
             /\ match appState with
                | TREE => aim = vt
                | EXPLODED =>
                    Vector3.distance aim ve <= sqrt 0.5 /\ z aim = z ve
                | FOCUS =>
                    aim = Vector3.multiplyScalar_val ve 1.5
                    /\ Vector3.length aim = 1.5 * Vector3.length ve
                end.
Proof.
  intros data appState g state delta w Hwf.
  destruct (ParticleGroup_useFrame_spec data appState g state delta w Hwf)
    as (mesh & mesh' & w' & _ & Hrun & _ & _ & _ & Hstep).
  eexists _, w'. split; [exact Hrun|].
  intros j p c vc vt ve Hp Hc Hvc Hvt Hve.
  destruct (Hstep j p c vc vt ve Hp Hc Hvc Hvt Hve) as (Hval & _).
  exists (ParticleGroup_target appState state p vt ve). split; [exact Hval|].
  destruct (ParticleGroup_target_geometry state p vt ve) as (Hfocus & Hdist & Hz).
  destruct appState.
  - reflexivity.
  - split; assumption.
  - split; [reflexivity|exact Hfocus].
Qed.

Lemma ParticleGroup_useFrame_aim_witness :
  exists (g' : ParticleGroup.t) (w' : World),
    ParticleGroup.useFrame [ornament0] FOCUS group0 frame0 (1 / 60) group_scene0
    = Ok (g', w')
    /\ exists aim : Vector3,
         heap w' !! 7%nat = Some (Vector3.lerp_val (Vec3 25 0 0) aim (1 / 60 * 3))
         /\ aim = Vector3.multiplyScalar_val (Vec3 25 0 0) 1.5
         /\ Vector3.length aim = 1.5 * Vector3.length (Vec3 25 0 0).
Proof.
  destruct (ParticleGroup_useFrame_aim [ornament0] FOCUS group0 frame0 (1 / 60)
              group_scene0 group0_wf) as (g' & w' & Hrun & Haim).
  exists g', w'. split; [exact Hrun|].
  destruct (Haim 0%nat ornament0 7%nat (Vec3 25 0 0) (Vec3 7 (-9) 0) (Vec3 25 0 0)
                 eq_refl eq_refl eq_refl eq_refl eq_refl)
    as (aim & Hval & Hfocus).
  exists aim. split; [exact Hval|exact Hfocus].
Defined.

Lemma open_hand_meanTipDistance : meanTipDistance open_hand = 0.5.
Proof.
  unfold meanTipDistance, euclid, landmark, open_hand.
  cbn [nth replicate WRIST INDEX_TIP MIDDLE_TIP RING_TIP PINKY_TIP
       Landmark.x Landmark.y].
  replace ((0.2 - 0.5) ^ 2 + (0.9 - 0.5) ^ 2) with (0.5 * 0.5) by lra.
  rewrite sqrt_square by lra. lra.
Qed.

(** X29: the hand steers the camera through the state the callback's
    gesture leaves in the app.  With a hand of 21 points or more in the
    image, a frame of the camera controller run with the mode and the
    gesture the app then holds does this: after an open hand (mean
    fingertip distance above 0.4) the mode is [EXPLODED] and the camera's
    [x] moves towards [(0.5 - knuckle.x) * 8] and its [y] towards
    [(knuckle.y - 0.5) * 8], by the fraction [2 * delta] of the way, its
    depth unchanged; after a fist (below 0.25) the mode is [TREE] and the
    camera is interpolated towards (0, 0, 25) whatever the pointer; and
    whenever the mode is [FOCUS] the camera is left alone. *)
Theorem onResults_steers_camera :
  forall (self : App.t) (lms : list Landmark.t) (others : list (list Landmark.t))
         (camera : Camera.t) (state : RootState.t) (delta : R) (w : World)
         (v : Vector3),
    (21 <= length lms)%nat ->
    heap w !! Camera.position camera = Some v ->
    exists (self' : App.t) (camera' : Camera.t) (w' : World) (v' : Vector3),
      onResults_update self (mkResults (Some (lms :: others))) = Ok self'
      /\ CameraController.useFrame (App.appState self') (App.gesture self')
           camera state delta w
         = Ok (camera', w')
      /\ heap w' !! Camera.position camera' = Some v'
      /\ (meanTipDistance lms > 0.4 ->
          App.appState self' = EXPLODED
          /\ Camera.facing camera' = Vec3 0 0 0
          /\ v' = Vec3
                    (x v + ((0.5 - Landmark.x (landmark lms MIDDLE_MCP)) * 8 - x v)
                           * delta * 2)
                    (y v + ((Landmark.y (landmark lms MIDDLE_MCP) - 0.5) * 8 - y v)
                           * delta * 2)
                    (z v))
      /\ (meanTipDistance lms < 0.25 ->
          App.appState self' = TREE
          /\ Camera.facing camera' = Vec3 0 0 0
          /\ v' = Vector3.lerp_val v (Vec3 0 0 25) delta)
      /\ (App.appState self' = FOCUS -> camera' = camera /\ w' = w /\ v' = v).
Proof.
  intros self lms others camera state delta w v Hlen Hv.
  unfold onResults_update. rewrite (onResults_full_hand lms others Hlen).
  cbn [Result_bind].
  match goal with
  | |- context [Ok (handleGestureUpdate self ?g0)] =>
      set (g := g0); set (self' := handleGestureUpdate self g)
  end.
  destruct (CameraController_useFrame_spec (App.appState self') (App.gesture self')
              camera state delta w v Hv)
    as (camera' & w' & Hrun & Hpos & Hfacing & Hval & _).
  eexists self', camera', w', _. split; [reflexivity|]. split; [exact Hrun|].
  rewrite Hpos. split; [exact Hval|].
  assert (App.gesture self' = g) as Hg by reflexivity.
  split; [|split].
  - intros Hopen.
    assert (App.appState self' = EXPLODED) as Hmode.
    { assert (ltb (meanTipDistance lms) 0.25 = false) as H1
        by (apply ltb_false; lra).
      apply gtb_true in Hopen.
      subst self' g. destruct self as [mode g0]. unfold handleGestureUpdate.
      cbn [HandGesture.isFist HandGesture.isOpenPalm App.appState].
      rewrite H1, Hopen. destruct mode; reflexivity. }
    split; [exact Hmode|]. rewrite Hmode in Hfacing |- *.
    split; [exact Hfacing|].
    rewrite Hg. subst g.
    cbn [CameraController_step HandGesture.handPosition Point2.x Point2.y].
    unfold pointer_target. f_equal; lra.
  - intros Hfist.
    assert (App.appState self' = TREE) as Hmode.
    { apply ltb_true in Hfist.
      subst self' g. destruct self as [mode g0]. unfold handleGestureUpdate.
      cbn [HandGesture.isFist App.appState]. rewrite Hfist. reflexivity. }
    split; [exact Hmode|]. rewrite Hmode in Hfacing |- *.
    split; [exact Hfacing|]. reflexivity.
  - intros Hmode. rewrite Hmode in Hrun |- *.
    cbn [CameraController.useFrame] in Hrun. unfold ret in Hrun.
    injection Hrun as <- <-.
    split; [reflexivity|]. split; reflexivity.
Qed.

Lemma onResults_steers_camera_witness :
  exists (self' : App.t) (camera' : Camera.t) (w' : World),
    onResults_update App.initial (mkResults (Some [open_hand])) = Ok self'
    /\ App.appState self' = EXPLODED
    /\ CameraController.useFrame (App.appState self') (App.gesture self')
         camera0 frame0 (1 / 60) canvas0
       = Ok (camera', w')
    /\ Camera.facing camera' = Vec3 0 0 0
    /\ heap w' !! Camera.position camera' = Some (Vec3 0.08 (8 / 75) 25).
Proof.
  destruct (onResults_steers_camera App.initial open_hand [] camera0 frame0 (1 / 60)
              canvas0 (Vec3 0 0 25))
    as (self' & camera' & w' & v' & Hupd & Hrun & Hv' & Hopen & _ & _).
  - cbn. lia.
  - reflexivity.
  - destruct Hopen as (Hmode & Hfacing & Hval).
    { rewrite open_hand_meanTipDistance. lra. }
    exists self', camera', w'. split; [exact Hupd|]. split; [exact Hmode|].
    split; [exact Hrun|]. split; [exact Hfacing|].
    rewrite Hv', Hval. f_equal.
    unfold landmark, open_hand, MIDDLE_MCP.
    cbn [nth replicate Landmark.x Landmark.y x y z]. f_equal; lra.
Defined.

End aims.

(** ** The convergence of the animators *)

Section steady_photo.
Import THREE.

Lemma SinglePhoto_target_steady (appState : AppState) (s1 s2 : RootState.t)
    (p : ParticleData.t) (vt ve : Vector3) :
  appState <> EXPLODED ->
  SinglePhoto_target appState s1 p vt ve = SinglePhoto_target appState s2 p vt ve
  /\ SinglePhoto_scatter_after appState s1 p ve = ve.
Proof. destruct appState; [split; reflexivity|contradiction|split; reflexivity]. Qed.

(** A run of frames of a photo in a mode with a fixed target ([TREE],
    [FOCUS]) and one frame time: the mesh position and scale take one
    interpolation step per frame, and the stored positions stay put. *)
Lemma SinglePhoto_run_frames_steady (particle : ParticleData.t) (appState : AppState)
    (delta : R) (state0 : RootState.t) (frames : list Frame) :
  appState <> EXPLODED ->
  (forall fr, fr ∈ frames -> frame_mode fr = appState /\ frame_delta fr = delta) ->
  forall (mesh : Mesh.t) (w : World) (vt ve mp ms : Vector3),
    let tree := ParticleData.treePosition particle in
    let expl := ParticleData.explodedPosition particle in
    heap w !! tree = Some vt ->
    heap w !! expl = Some ve ->
    heap w !! Mesh.position mesh = Some mp ->
    heap w !! Mesh.scale mesh = Some ms ->
    tree <> expl ->
    Mesh.position mesh <> tree -> Mesh.position mesh <> expl ->
    Mesh.scale mesh <> tree -> Mesh.scale mesh <> expl ->
    Mesh.position mesh <> Mesh.scale mesh ->
    (forall fr, fr ∈ frames ->
       let cam := RootState.camera_position (frame_state fr) in
       (cam < length (heap w))%nat
       /\ cam <> Mesh.position mesh /\ cam <> Mesh.scale mesh) ->
    let s := SinglePhoto_scale appState particle in
    exists (mesh' : Mesh.t) (w' : World),
      run_frames (SinglePhoto_frame particle) frames (Some mesh) w
      = Ok (Some mesh', w')
      /\ heap w' !! tree = Some vt
      /\ heap w' !! expl = Some ve
      /\ heap w' !! Mesh.position mesh
         = Some (lerp_iter (length frames) mp
                   (SinglePhoto_target appState state0 particle vt ve) (delta * 3))
      /\ heap w' !! Mesh.scale mesh
         = Some (lerp_iter (length frames) ms (Vec3 s s s) (delta * 2)).
Proof.
  intros Hmode.
  induction frames as [|[[mode state] dl] frames IH];
    intros Hframes mesh w vt ve mp ms tree expl Ht He Hmp Hms Hte Hpt Hpe Hst Hse
           Hps Hcams s.
  - exists mesh, w. cbn [run_frames length]. unfold lerp_iter. cbn [Nat.iter nat_rect].
    split; [reflexivity|]. repeat split; assumption.
  - destruct (Hframes (mode, state, dl)) as (Hm & Hd); [left|].
    cbn [frame_mode frame_delta fst snd] in Hm, Hd. subst mode dl.
    destruct (Hcams (appState, state, delta)) as (Lc & Hcp & Hcs); [left|].
    cbn [frame_state fst snd] in Lc, Hcp, Hcs.
    destruct (lookup_lt_is_Some_2 _ _ Lc) as [vcam Hvcam].
    destruct (SinglePhoto_useFrame_spec particle appState mesh state delta w
                vt ve mp ms vcam Ht He Hmp Hms Hvcam Hte Hpt Hpe Hst Hse Hps Hcp Hcs)
      as (w1 & Hrun & Hlen & Ht1 & He1 & Hmp1 & Hms1 & _).
    destruct (SinglePhoto_target_steady appState state state0 particle vt ve Hmode)
      as (Htarget & Hscatter).
    rewrite Hscatter in He1. rewrite Htarget in Hmp1.
    destruct (IH (fun fr H => Hframes fr (list_elem_of_further _ _ _ H))
                 (Mesh.lookAt mesh (SinglePhoto_facing appState particle vcam)) w1
                 vt ve _ _ Ht1 He1 Hmp1 Hms1 Hte Hpt Hpe Hst Hse Hps)
      as (mesh' & w' & Hloop & Ht' & He' & Hmp' & Hms').
    { intros fr Hfr. destruct (Hcams fr) as (? & ? & ?); [right; exact Hfr|].
      cbn [Mesh.position Mesh.scale Mesh.lookAt]. repeat split; [lia|assumption..]. }
    exists mesh', w'. cbn [run_frames].
    unfold SinglePhoto_frame at 1. cbn [frame_mode frame_state frame_delta fst snd].
    rewrite (bind_run _ _ _ _ _ Hrun).
    split; [exact Hloop|]. split; [exact Ht'|]. split; [exact He'|].
    cbn [Mesh.position Mesh.scale Mesh.lookAt length] in Hmp', Hms' |- *.
    rewrite <- !lerp_iter_shift. split; assumption.
Qed.

(** An update whose factor exceeds 1 passes the target, where the clamped
    update of the specification would stop on it. *)
Lemma lerp_val_passes_target (start target : Vector3) (delta rate : R) :
  1 < delta * rate -> start <> target ->
  advance_spec start target delta rate = target
  /\ Vector3.lerp_val start target (delta * rate) <> target.
Proof.
  intros Ha Hne. split.
  - unfold advance_spec. rewrite Rmin_1_alpha by lra.
    destruct start as [sx sy sz], target as [tx ty tz].
    unfold Vector3.lerp_val. cbn [x y z]. f_equal; lra.
  - intros Heq. apply Hne.
    destruct (lerp_val_offset start target (delta * rate)) as (Hx & Hy & Hz).
    rewrite Heq in Hx, Hy, Hz.
    destruct start as [sx sy sz], target as [tx ty tz]. cbn [x y z] in *.
    f_equal; nra.
Qed.

End steady_photo.

Section convergence.
Import THREE.
Import PrimFloat.

(** In double precision the update from 25 towards 7 with factor
    [0.25 * 3] is still short of the target after 27 steps and on it after
    28; with factor [1 / 60 * 3] it stops moving after 686 steps, above
    the target. *)
Lemma F64_lerp_lands :
  (F64.lerp_iter 27 25 7 (0.25 * 3) =? 7)%float = false
  /\ F64.lerp_iter 28 25 7 (0.25 * 3)%float = 7%float.
Proof. split; vm_compute; reflexivity. Qed.

Lemma F64_lerp_stalls :
  let a := (1 / 60 * 3)%float in
  let c := F64.lerp_iter 686 25 7 a in
  F64.lerp c 7 a = c /\ (7 <? c)%float = true.
Proof. split; vm_compute; reflexivity. Qed.

(** C2 (as the code has it).  The animators interpolate with the factor
    [delta * rate] itself (rate 3 for positions, 2 for the photo scale),
    without a clamp: in every mode and for every [delta], one frame moves
    an ornament's smoothed position, and a photo's mesh position and scale,
    by [Vector3.lerp] with that factor towards the mode's target; and in
    the modes with a fixed target ([TREE], [FOCUS]) [n] frames apply [n]
    such updates.  In exact arithmetic the offset from the target is
    multiplied by [1 - delta * rate] at each update: for a factor strictly
    between 0 and 1 the value stays on the segment towards the target, the
    distance decreases strictly and tends to zero, and the target is not
    reached in finitely many updates unless the value started there; a
    factor 1 lands on the target in one update; a factor above 1 passes the
    target, where the specification's clamped update would stop on it.  In
    the double-precision arithmetic the program computes with, the same
    update can land exactly on the target (after 28 updates from 25 towards
    7 with [delta = 0.25]) or stop short of it (from update 686 on with
    [delta = 1 / 60]). *)
Theorem animator_convergence_unclamped :
  (forall (data : list ParticleData.t) (appState : AppState) (g : ParticleGroup.t)
          (state : RootState.t) (delta : R) (w : World)
          (j : nat) (p : ParticleData.t) (c : Ref) (vc vt ve : Vector3),
      ParticleGroup_wf data g (heap w) ->
      data !! j = Some p ->
      ParticleGroup.currentPositions g !! j = Some c ->
      heap w !! c = Some vc ->
      heap w !! ParticleData.treePosition p = Some vt ->
      heap w !! ParticleData.explodedPosition p = Some ve ->
      exists (g' : ParticleGroup.t) (w' : World),
        ParticleGroup.useFrame data appState g state delta w = Ok (g', w')
        /\ heap w' !! c
           = Some (Vector3.lerp_val vc (ParticleGroup_target appState state p vt ve)
                                    (delta * 3)))
  /\ (forall (particle : ParticleData.t) (appState : AppState) (mesh : Mesh.t)
             (state : RootState.t) (delta : R) (w : World)
             (vt ve mp ms vcam : Vector3),
        let tree := ParticleData.treePosition particle in
        let expl := ParticleData.explodedPosition particle in
        let cam := RootState.camera_position state in
        heap w !! tree = Some vt ->
        heap w !! expl = Some ve ->
        heap w !! Mesh.position mesh = Some mp ->
        heap w !! Mesh.scale mesh = Some ms ->
        heap w !! cam = Some vcam ->
        tree <> expl ->
        Mesh.position mesh <> tree -> Mesh.position mesh <> expl ->
        Mesh.scale mesh <> tree -> Mesh.scale mesh <> expl ->
        Mesh.position mesh <> Mesh.scale mesh ->
        cam <> Mesh.position mesh -> cam <> Mesh.scale mesh ->
        let s := SinglePhoto_scale appState particle in
        exists (mesh' : Mesh.t) (w' : World),
          SinglePhoto.useFrame particle appState (Some mesh) state delta w
          = Ok (Some mesh', w')
          /\ heap w' !! Mesh.position mesh
             = Some (Vector3.lerp_val mp
                       (SinglePhoto_target appState state particle vt ve) (delta * 3))
          /\ heap w' !! Mesh.scale mesh
             = Some (Vector3.lerp_val ms (Vec3 s s s) (delta * 2)))
  /\ (forall (data : list ParticleData.t) (appState : AppState) (delta : R)
             (frames : list Frame) (g : ParticleGroup.t) (w : World)
             (j : nat) (p : ParticleData.t) (c : Ref) (vc vt ve : Vector3)
             (state : RootState.t),
        ParticleGroup_wf data g (heap w) ->
        appState <> EXPLODED ->
        (forall fr, fr ∈ frames -> frame_mode fr = appState /\ frame_delta fr = delta) ->
        data !! j = Some p ->
        ParticleGroup.currentPositions g !! j = Some c ->
        heap w !! c = Some vc ->
        heap w !! ParticleData.treePosition p = Some vt ->
        heap w !! ParticleData.explodedPosition p = Some ve ->
        exists (g' : ParticleGroup.t) (w' : World),
          run_frames (ParticleGroup_frame data) frames g w = Ok (g', w')
          /\ heap w' !! c
             = Some (lerp_iter (length frames) vc
                       (ParticleGroup_target appState state p vt ve) (delta * 3)))
  /\ (forall (particle : ParticleData.t) (appState : AppState) (delta : R)
             (frames : list Frame) (mesh : Mesh.t) (w : World)
             (vt ve mp ms : Vector3) (state : RootState.t),
        let tree := ParticleData.treePosition particle in
        let expl := ParticleData.explodedPosition particle in
        appState <> EXPLODED ->
        (forall fr, fr ∈ frames -> frame_mode fr = appState /\ frame_delta fr = delta) ->
        heap w !! tree = Some vt ->
        heap w !! expl = Some ve ->
        heap w !! Mesh.position mesh = Some mp ->
        heap w !! Mesh.scale mesh = Some ms ->
        tree <> expl ->
        Mesh.position mesh <> tree -> Mesh.position mesh <> expl ->
        Mesh.scale mesh <> tree -> Mesh.scale mesh <> expl ->
        Mesh.position mesh <> Mesh.scale mesh ->
        (forall fr, fr ∈ frames ->
           let cam := RootState.camera_position (frame_state fr) in
           (cam < length (heap w))%nat
           /\ cam <> Mesh.position mesh /\ cam <> Mesh.scale mesh) ->
        let s := SinglePhoto_scale appState particle in
        exists (mesh' : Mesh.t) (w' : World),
          run_frames (SinglePhoto_frame particle) frames (Some mesh) w
          = Ok (Some mesh', w')
          /\ heap w' !! Mesh.position mesh
             = Some (lerp_iter (length frames) mp
                       (SinglePhoto_target appState state particle vt ve) (delta * 3))
          /\ heap w' !! Mesh.scale mesh
             = Some (lerp_iter (length frames) ms (Vec3 s s s) (delta * 2)))
  /\ (forall (delta rate : R) (start target : Vector3),
        let after n := lerp_iter n start target (delta * rate) in
        after 1%nat = Vector3.lerp_val start target (delta * rate)
        /\ (forall n,
              x (after n) - x target = (1 - delta * rate) ^ n * (x start - x target)
              /\ y (after n) - y target = (1 - delta * rate) ^ n * (y start - y target)
              /\ z (after n) - z target = (1 - delta * rate) ^ n * (z start - z target))
        /\ (forall n, Vector3.distance (after n) target
                      = Rabs (1 - delta * rate) ^ n * Vector3.distance start target)
        /\ (0 < delta * rate < 1 ->
            (forall n, exists s, 0 <= s < 1
                                 /\ after n = Vector3.lerp_val start target s)
            /\ (forall n, start <> target ->
                  after n <> target
                  /\ Vector3.distance (after (S n)) target
                     < Vector3.distance (after n) target)
            /\ (forall eps, 0 < eps ->
                  exists N, forall n, (N <= n)%nat ->
                    Vector3.distance (after n) target < eps))
        /\ (delta * rate = 1 -> after 1%nat = target)
        /\ (1 < delta * rate -> start <> target ->
            advance_spec start target delta rate = target
            /\ after 1%nat <> target))
  /\ ((F64.lerp_iter 27 25 7 (0.25 * 3) =? 7)%float = false
      /\ F64.lerp_iter 28 25 7 (0.25 * 3)%float = 7%float
      /\ (let a := (1 / 60 * 3)%float in
          let c := F64.lerp_iter 686 25 7 a in
          F64.lerp c 7 a = c /\ (7 <? c)%float = true)).
Proof.
  split; [|split; [|split; [|split; [|split]]]].
  - intros data appState g state delta w j p c vc vt ve Hwf Hp Hc Hvc Hvt Hve.
    destruct (ParticleGroup_useFrame_spec data appState g state delta w Hwf)
      as (mesh & mesh' & w' & _ & Hrun & _ & _ & _ & Hstep).
    eexists _, w'. split; [exact Hrun|].
    apply (Hstep j p c vc vt ve Hp Hc Hvc Hvt Hve).
  - intros particle appState mesh state delta w vt ve mp ms vcam tree expl cam
           Ht He Hmp Hms Hcam Hte Hpt Hpe Hst Hse Hps Hcp Hcs s.
    destruct (SinglePhoto_useFrame_spec particle appState mesh state delta w
                vt ve mp ms vcam Ht He Hmp Hms Hcam Hte Hpt Hpe Hst Hse Hps Hcp Hcs)
      as (w' & Hrun & _ & _ & _ & Hmp' & Hms' & _).
    eexists _, w'. split; [exact Hrun|]. split; assumption.
  - intros data appState delta frames g w j p c vc vt ve state Hwf Hmode Hframes
           Hp Hc Hvc Hvt Hve.
    destruct (ParticleGroup_run_frames_steady data appState delta frames g w Hwf
                Hmode Hframes) as (g' & w' & Hrun & Hall).
    exists g', w'. split; [exact Hrun|].
    apply (Hall j p c vc vt ve state Hp Hc Hvc Hvt Hve).
  - intros particle appState delta frames mesh w vt ve mp ms state tree expl
           Hmode Hframes Ht He Hmp Hms Hte Hpt Hpe Hst Hse Hps Hcams s.
    destruct (SinglePhoto_run_frames_steady particle appState delta state frames
                Hmode Hframes mesh w vt ve mp ms Ht He Hmp Hms Hte Hpt Hpe Hst Hse
                Hps Hcams)
      as (mesh' & w' & Hrun & _ & _ & Hmp' & Hms').
    exists mesh', w'. split; [exact Hrun|]. split; assumption.
  - intros delta rate start target after.
    split; [reflexivity|].
    split; [intros n; apply lerp_iter_offset|].
    split; [intros n; apply lerp_iter_distance|].
    split; [|split].
    + intros Ha.
      destruct (lerp_iter_converges start target (delta * rate) Ha)
        as (_ & Hstrict & Hlim).
      split; [intros n; apply lerp_iter_on_segment; exact Ha|].
      split; [exact Hstrict|exact Hlim].
    + intros Ha. subst after. cbn beta. rewrite Ha.
      unfold lerp_iter. cbn [Nat.iter nat_rect].
      destruct start as [sx sy sz], target as [tx ty tz].
      unfold Vector3.lerp_val. cbn [x y z]. f_equal; lra.
    + intros Ha Hne. apply lerp_val_passes_target; assumption.
  - destruct F64_lerp_lands as (H27 & H28).
    split; [exact H27|]. split; [exact H28|]. exact F64_lerp_stalls.
Qed.

Lemma animator_convergence_unclamped_witness :
  (exists (g' : ParticleGroup.t) (w' : World),
     ParticleGroup.useFrame [ornament0] EXPLODED group0 frame0 0.5 group_scene0
     = Ok (g', w')
     /\ heap w' !! 7%nat
        = Some (Vector3.lerp_val (Vec3 25 0 0)
                  (ParticleGroup_target EXPLODED frame0 ornament0
                     (Vec3 7 (-9) 0) (Vec3 25 0 0)) (0.5 * 3)))
  /\ (exists (mesh' : Mesh.t) (w' : World),
        SinglePhoto.useFrame photo0 FOCUS (Some mesh0) frame0 0.5 scene0
        = Ok (Some mesh', w')
        /\ heap w' !! 5%nat
           = Some (Vector3.lerp_val (Vec3 7 (-9) 0)
                     (SinglePhoto_target FOCUS frame0 photo0
                        (Vec3 7 (-9) 0) (Vec3 25 0 0)) (0.5 * 3))
        /\ heap w' !! 6%nat
           = Some (Vector3.lerp_val (Vec3 1 1 1)
                     (Vec3 (SinglePhoto_scale FOCUS photo0)
                           (SinglePhoto_scale FOCUS photo0)
                           (SinglePhoto_scale FOCUS photo0)) (0.5 * 2)))
  /\ (exists (g' : ParticleGroup.t) (w' : World),
        run_frames (ParticleGroup_frame [ornament0])
          [(FOCUS, frame0, 1 / 60); (FOCUS, frame0, 1 / 60)] group0 group_scene0
        = Ok (g', w')
        /\ heap w' !! 7%nat
           = Some (lerp_iter 2 (Vec3 25 0 0)
                     (ParticleGroup_target FOCUS frame0 ornament0
                        (Vec3 7 (-9) 0) (Vec3 25 0 0)) (1 / 60 * 3)))
  /\ (exists (mesh' : Mesh.t) (w' : World),
        run_frames (SinglePhoto_frame photo0)
          [(FOCUS, frame0, 1 / 60); (FOCUS, frame0, 1 / 60)] (Some mesh0) scene0
        = Ok (Some mesh', w')
        /\ heap w' !! 5%nat
           = Some (lerp_iter 2 (Vec3 7 (-9) 0)
                     (SinglePhoto_target FOCUS frame0 photo0
                        (Vec3 7 (-9) 0) (Vec3 25 0 0)) (1 / 60 * 3))
        /\ heap w' !! 6%nat
           = Some (lerp_iter 2 (Vec3 1 1 1)
                     (Vec3 (SinglePhoto_scale FOCUS photo0)
                           (SinglePhoto_scale FOCUS photo0)
                           (SinglePhoto_scale FOCUS photo0)) (1 / 60 * 2)))
  /\ (advance_spec (Vec3 25 0 0) (Vec3 7 (-9) 0) 0.5 3 = Vec3 7 (-9) 0
      /\ lerp_iter 1 (Vec3 25 0 0) (Vec3 7 (-9) 0) (0.5 * 3) <> Vec3 7 (-9) 0)
  /\ (forall n, Vector3.distance
                   (lerp_iter n (Vec3 25 0 0) (Vec3 7 (-9) 0) (1 / 60 * 3))
                   (Vec3 7 (-9) 0)
                 = Rabs (1 - 1 / 60 * 3) ^ n
                   * Vector3.distance (Vec3 25 0 0) (Vec3 7 (-9) 0)).
Proof.
  destruct animator_convergence_unclamped
    as (Hgroup & Hphoto & Hgroups & Hphotos & Hval & _).
  split; [|split; [|split; [|split; [|split]]]].
  - apply (Hgroup [ornament0] EXPLODED group0 frame0 0.5 group_scene0 0%nat
                  ornament0 7%nat (Vec3 25 0 0) (Vec3 7 (-9) 0) (Vec3 25 0 0)
                  group0_wf eq_refl eq_refl eq_refl eq_refl eq_refl).
  - apply (Hphoto photo0 FOCUS mesh0 frame0 0.5 scene0
                  (Vec3 7 (-9) 0) (Vec3 25 0 0) (Vec3 7 (-9) 0) (Vec3 1 1 1)
                  (Vec3 0 0 25) eq_refl eq_refl eq_refl eq_refl eq_refl);
      cbn; lia.
  - apply (Hgroups [ornament0] FOCUS (1 / 60)
                   [(FOCUS, frame0, 1 / 60); (FOCUS, frame0, 1 / 60)]
                   group0 group_scene0 0%nat ornament0 7%nat
                   (Vec3 25 0 0) (Vec3 7 (-9) 0) (Vec3 25 0 0) frame0 group0_wf).
    + discriminate.
    + intros fr Hfr. apply list_elem_of_In in Hfr.
      destruct Hfr as [<-|[<-|[]]]; split; reflexivity.
    + reflexivity.
    + reflexivity.
    + reflexivity.
    + reflexivity.
    + reflexivity.
  - apply (Hphotos photo0 FOCUS (1 / 60)
                   [(FOCUS, frame0, 1 / 60); (FOCUS, frame0, 1 / 60)]
                   mesh0 scene0 (Vec3 7 (-9) 0) (Vec3 25 0 0) (Vec3 7 (-9) 0)
                   (Vec3 1 1 1) frame0).
    + discriminate.
    + intros fr Hfr. apply list_elem_of_In in Hfr.
      destruct Hfr as [<-|[<-|[]]]; split; reflexivity.
    + reflexivity.
    + reflexivity.
    + reflexivity.
    + reflexivity.
    + cbn; lia.
    + cbn; lia.
    + cbn; lia.
    + cbn; lia.
    + cbn; lia.
    + cbn; lia.
    + intros fr Hfr. apply list_elem_of_In in Hfr.
      destruct Hfr as [<-|[<-|[]]]; cbn; lia.
  - destruct (Hval 0.5 3 (Vec3 25 0 0) (Vec3 7 (-9) 0))
      as (_ & _ & _ & _ & _ & Hpass).
    apply Hpass; [lra|].
    intros Heq. injection Heq as Hx _. lra.
  - intros n.
    destruct (Hval (1 / 60) 3 (Vec3 25 0 0) (Vec3 7 (-9) 0))
      as (_ & _ & Hdist & _).
    apply Hdist.
Defined.

End convergence.
